(** * VEX robot simulator: drivetrain, intake/outtake and collision filter

    A shallow embedding of the simulation core of the repository together
    with the properties the specification states about it, and of the
    code around that core: the frame loop, the start and shutdown of the
    physics world, the two glTF readers, the mesh buffers and the
    semaphore ring of the renderer.  The sources:
    - Robot.h, AssetLoader.h           src/unnamed/part_001
    - Mesh.cpp                         src/unnamed/part_002
    - VulkanContext.h                  src/unnamed/part_003
    - Mesh.h                           src/unnamed/part_004
    - PhysicsWorld.h, SimulationFilter.h, GameBlock.h, AssetLoader.cpp
                                       src/unnamed/part_005
    - Robot.cpp, PhysicsWorld.cpp      src/simulator/src/shaders/basic.frag
    - main.cpp (SpawnBlock, the frame loop)  src/simulator/src/main.cpp
    - ModelLoader.cpp, VulkanContext.cpp, Pipeline.h
                                       src/simulator/src/renderer/

    Conventions of the embedding.
    - A C++ [float] is an IEEE 754 binary32 value: [spec_float] of the
      Standard Library with a 24 bit significand and round to nearest even.
    - A [PxU32] is a [Z]; the filter words only ever go through [&] and [|].
      Where the code computes in [uint32_t] or [size_t] the wrap-around is
      written out.
    - A pointer into the engine or into the block list that may be null is
      an [option]; a call through a null pointer, through a pointer to an
      object that has been released, or an access outside a vector or
      buffer is a fault, and a function that can reach one returns
      [option].  An exception that leaves main for want of a handler ends
      the run in the same way.  Running out of memory is not modelled.
    - The bytes of a glTF buffer are read least significant byte first
      (the byte order of the machines the simulator is built for);
      alignment is not modelled.
    - What the PhysX engine, the Vulkan driver and GLFW decide on their own
      (whether an object can be created, how bodies move during a step,
      which keys are down) enters as an argument. *)

From Stdlib Require Import ZArith Bool Lia.
From Stdlib Require Import Floats.SpecFloat.
From Stdlib Require Strings.Byte.
From stdpp Require Import base option list gmap strings.

(** ** binary32 arithmetic *)

Module F32.

Definition float : Type := spec_float.

Definition prec : Z := 24.
Definition emax : Z := 128.

Definition add : float -> float -> float := SFadd prec emax.
Definition sub : float -> float -> float := SFsub prec emax.
Definition mul : float -> float -> float := SFmul prec emax.
Definition div : float -> float -> float := SFdiv prec emax.
Definition sqrt : float -> float := SFsqrt prec emax.
Definition opp : float -> float := SFopp.

(** [a < b], [a <= b] of C++; [a > b] is [ltb b a], [a >= b] is [leb b a].
    Every comparison with a NaN is false.  Rounding is to nearest, ties to
    even; floating-point exception flags are not part of the model. *)
Definition ltb : float -> float -> bool := SFltb.
Definition leb : float -> float -> bool := SFleb.

(** The float of an integer, and the float a decimal literal [n/d]
    denotes: the quotient of two exactly representable integers, rounded
    once. *)
Definition of_Z (n : Z) : float := binary_normalize prec emax n 0 false.
Definition lit (n d : Z) : float := div (of_Z n) (of_Z d).

Definition zero : float := S754_zero false.
Definition one : float := of_Z 1.

(** [std::max(a, b)] is [(a < b) ? b : a]; [std::min(a, b)] is
    [(b < a) ? b : a]. *)
Definition max (a b : float) : float := if ltb a b then b else a.
Definition min (a b : float) : float := if ltb b a then b else a.

Definition is_nan (a : float) : bool :=
  match a with S754_nan => true | _ => false end.

End F32.

Abbreviation float := F32.float.

(** ** Collision filter (SimulationFilter.h) *)

Definition PxU32 : Type := Z.

(** [enum FilterGroup] *)
Definition eGROUND : PxU32 := Z.shiftl 1 0.
Definition eCHASSIS : PxU32 := Z.shiftl 1 1.
Definition eWHEEL : PxU32 := Z.shiftl 1 2.
Definition eOBSTACLE : PxU32 := Z.shiftl 1 3.
Definition eBLOCK : PxU32 := Z.shiftl 1 4.

(** [PxFilterData]: the default constructor zeroes the four words. *)
Record PxFilterData : Type := mkFilterData {
  word0 : PxU32;
  word1 : PxU32;
  word2 : PxU32;
  word3 : PxU32
}.

Definition PxFilterData_default : PxFilterData := mkFilterData 0%Z 0%Z 0%Z 0%Z.

Definition set_word0 (v : PxU32) (fd : PxFilterData) : PxFilterData :=
  mkFilterData v (word1 fd) (word2 fd) (word3 fd).
Definition set_word1 (v : PxU32) (fd : PxFilterData) : PxFilterData :=
  mkFilterData (word0 fd) v (word2 fd) (word3 fd).

(** The values of [PxFilterFlag] the shader returns. *)
Inductive PxFilterFlag : Type :=
  | eKILL | eSUPPRESS | eCALLBACK | eNOTIFY | eDEFAULT.

(** A C++ integer used as a condition. *)
Definition truthy (v : PxU32) : bool := negb (Z.eqb v 0%Z).

Section FilterShader.

(** The engine's attribute word, its trigger test and the pair flag
    constants of PxFiltering.h. *)
Variable PxFilterObjectAttributes : Type.
Variable PxFilterObjectIsTrigger : PxFilterObjectAttributes -> bool.
Variables eTRIGGER_DEFAULT eCONTACT_DEFAULT eNOTIFY_TOUCH_FOUND : Z.

(** [VehicleFilterShader]: the result is the returned flag and the value
    of the [pairFlags] reference on return. *)
Definition VehicleFilterShader
    (attributes0 : PxFilterObjectAttributes) (filterData0 : PxFilterData)
    (attributes1 : PxFilterObjectAttributes) (filterData1 : PxFilterData)
    (pairFlags : Z) : PxFilterFlag * Z :=
  if PxFilterObjectIsTrigger attributes0 || PxFilterObjectIsTrigger attributes1
  then (eDEFAULT, eTRIGGER_DEFAULT)
  else if truthy (Z.land (word0 filterData0) (word1 filterData1))
          && truthy (Z.land (word0 filterData1) (word1 filterData0))
  then (eDEFAULT, Z.lor eCONTACT_DEFAULT eNOTIFY_TOUCH_FOUND)
  else (eSUPPRESS, pairFlags).

End FilterShader.

(** [SetActorFilter] on the shapes of one actor: every shape receives
    (group, mask, 0, 0).  An actor is represented by the filter data of its
    shapes, in attachment order. *)
Definition SetActorFilter_shapes (filterGroup filterMask : PxU32)
    (shapes : list PxFilterData) : list PxFilterData :=
  let filterData :=
    set_word1 filterMask (set_word0 filterGroup PxFilterData_default) in
  (fun _ => filterData) <$> shapes.

(** ** PhysX foundation math

    [PxVec3], [PxQuat] and [PxTransform] are inline header code of the
    PhysX SDK, not of this repository; the operations the robot calls are
    written out here on binary32 so that the model runs. *)

Record PxVec3 : Type := mkVec3 { vx : float; vy : float; vz : float }.

(** [PxVec3(a)] *)
Definition PxVec3_all (a : float) : PxVec3 := mkVec3 a a a.

Definition vadd (a b : PxVec3) : PxVec3 :=
  mkVec3 (F32.add (vx a) (vx b)) (F32.add (vy a) (vy b)) (F32.add (vz a) (vz b)).
Definition vsub (a b : PxVec3) : PxVec3 :=
  mkVec3 (F32.sub (vx a) (vx b)) (F32.sub (vy a) (vy b)) (F32.sub (vz a) (vz b)).
Definition vscale (a : PxVec3) (f : float) : PxVec3 :=
  mkVec3 (F32.mul (vx a) f) (F32.mul (vy a) f) (F32.mul (vz a) f).
Definition set_vy (v : float) (a : PxVec3) : PxVec3 := mkVec3 (vx a) v (vz a).

Definition magnitudeSquared (a : PxVec3) : float :=
  F32.add (F32.add (F32.mul (vx a) (vx a)) (F32.mul (vy a) (vy a)))
          (F32.mul (vz a) (vz a)).
Definition magnitude (a : PxVec3) : float := F32.sqrt (magnitudeSquared a).

Record PxQuat : Type := mkQuat { qx : float; qy : float; qz : float; qw : float }.

Definition PxQuat_identity : PxQuat := mkQuat F32.zero F32.zero F32.zero F32.one.

(** [PxQuat::rotate] *)
Definition rotate (q : PxQuat) (v : PxVec3) : PxVec3 :=
  let two := F32.of_Z 2 in
  let ax := F32.mul two (vx v) in
  let ay := F32.mul two (vy v) in
  let az := F32.mul two (vz v) in
  let w2 := F32.sub (F32.mul (qw q) (qw q)) (F32.lit 5 10) in
  let dot2 :=
    F32.add (F32.add (F32.mul (qx q) ax) (F32.mul (qy q) ay)) (F32.mul (qz q) az) in
  let comp a b c d e f :=
    (* a * w2 + (b * c - d * e) * w + f * dot2 *)
    F32.add (F32.add (F32.mul a w2)
                     (F32.mul (F32.sub (F32.mul b c) (F32.mul d e)) (qw q)))
            (F32.mul f dot2) in
  mkVec3 (comp ax (qy q) az (qz q) ay (qx q))
         (comp ay (qz q) ax (qx q) az (qy q))
         (comp az (qx q) ay (qy q) ax (qz q)).

(** [PxQuat::operator*] *)
Definition qmul (a b : PxQuat) : PxQuat :=
  let m := F32.mul in
  mkQuat
    (F32.sub (F32.add (F32.add (m (qw a) (qx b)) (m (qw b) (qx a))) (m (qy a) (qz b)))
             (m (qy b) (qz a)))
    (F32.sub (F32.add (F32.add (m (qw a) (qy b)) (m (qw b) (qy a))) (m (qz a) (qx b)))
             (m (qz b) (qx a)))
    (F32.sub (F32.add (F32.add (m (qw a) (qz b)) (m (qw b) (qz a))) (m (qx a) (qy b)))
             (m (qx b) (qy a)))
    (F32.sub (F32.sub (F32.sub (m (qw a) (qw b)) (m (qx a) (qx b))) (m (qy a) (qy b)))
             (m (qz a) (qz b))).

Record PxTransform : Type := mkTransform { t_q : PxQuat; t_p : PxVec3 }.

(** [PxTransform(position)], [PxTransform(PxIdentity)] *)
Definition PxTransform_at (position : PxVec3) : PxTransform :=
  mkTransform PxQuat_identity position.
Definition PxTransform_identity : PxTransform :=
  PxTransform_at (PxVec3_all F32.zero).

(** [PxTransform::transform] of a point and of a transform. *)
Definition transform (t : PxTransform) (input : PxVec3) : PxVec3 :=
  vadd (rotate (t_q t) input) (t_p t).
Definition transformT (t src : PxTransform) : PxTransform :=
  mkTransform (qmul (t_q t) (t_q src)) (vadd (rotate (t_q t) (t_p src)) (t_p t)).

(** ** Engine objects

    Of a rigid body the model keeps what the robot code reads or writes
    after creation: pose, velocities and the simulation filter data of
    its shapes.  Geometry, mass and damping are set once and never read
    back; they are left out. *)

Record PxRigidDynamic : Type := mkBody {
  globalPose : PxTransform;
  linearVelocity : PxVec3;
  angularVelocity : PxVec3;
  shapes : list PxFilterData
}.

(** [createRigidDynamic(pose)]: at rest, no shape attached. *)
Definition createRigidDynamic (pose : PxTransform) : PxRigidDynamic :=
  mkBody pose (PxVec3_all F32.zero) (PxVec3_all F32.zero) [].

Definition setGlobalPose (pose : PxTransform) (b : PxRigidDynamic) : PxRigidDynamic :=
  mkBody pose (linearVelocity b) (angularVelocity b) (shapes b).
Definition setLinearVelocity (v : PxVec3) (b : PxRigidDynamic) : PxRigidDynamic :=
  mkBody (globalPose b) v (angularVelocity b) (shapes b).
Definition setAngularVelocity (v : PxVec3) (b : PxRigidDynamic) : PxRigidDynamic :=
  mkBody (globalPose b) (linearVelocity b) v (shapes b).
Definition set_shapes (s : list PxFilterData) (b : PxRigidDynamic) : PxRigidDynamic :=
  mkBody (globalPose b) (linearVelocity b) (angularVelocity b) s.

(** [attachShape] of a fresh shape, whose filter data is still zero. *)
Definition attachShape (b : PxRigidDynamic) : PxRigidDynamic :=
  set_shapes (shapes b ++ [PxFilterData_default]) b.

Definition SetActorFilter (filterGroup filterMask : PxU32)
    (actor : PxRigidDynamic) : PxRigidDynamic :=
  set_shapes (SetActorFilter_shapes filterGroup filterMask (shapes actor)) actor.

(** The idiom of [TryIntake] and [Outtake]:
    [if (getNbShapes() > 0) { getShapes(&shape, 1); if (shape) shape->setSimulationFilterData(fd); }]
    writes the first shape only. *)
Definition setFirstShapeFilter (fd : PxFilterData) (b : PxRigidDynamic) : PxRigidDynamic :=
  match shapes b with
  | [] => b
  | _ :: rest => set_shapes (fd :: rest) b
  end.

Record PxRevoluteJoint : Type := mkRevolute {
  localFrame0 : PxTransform;
  localFrame1 : PxTransform;
  driveVelocity : float;
  driveEnabled : bool;
  driveForceLimit : float
}.

Definition setDriveVelocity (v : float) (j : PxRevoluteJoint) : PxRevoluteJoint :=
  mkRevolute (localFrame0 j) (localFrame1 j) v (driveEnabled j) (driveForceLimit j).
Definition setDriveEnabled (e : bool) (j : PxRevoluteJoint) : PxRevoluteJoint :=
  mkRevolute (localFrame0 j) (localFrame1 j) (driveVelocity j) e (driveForceLimit j).
Definition setDriveForceLimit (l : float) (j : PxRevoluteJoint) : PxRevoluteJoint :=
  mkRevolute (localFrame0 j) (localFrame1 j) (driveVelocity j) (driveEnabled j) l.

(** A fixed joint between the chassis and the body of a block. *)
Record PxFixedJoint : Type := mkFixed {
  fj_block : nat;
  fj_frame0 : PxTransform;
  fj_frame1 : PxTransform
}.

(** ** GameBlock.h *)

Inductive BlockColor : Type := RED | BLUE.

Record GameBlock : Type := mkBlock {
  body : option PxRigidDynamic;
  color : BlockColor;
  held : bool
}.

Definition set_body (b : PxRigidDynamic) (g : GameBlock) : GameBlock :=
  mkBlock (Some b) (color g) (held g).
Definition set_held (h : bool) (g : GameBlock) : GameBlock :=
  mkBlock (body g) (color g) h.

(** ** Robot.h

    A [GameBlock*] is the position of the block in main's [std::list],
    which only grows, so positions are stable; a position past the end
    plays the null pointer. *)

Record HeldBlock : Type := mkHeld {
  block : nat;
  joint : option nat
}.

Record Robot : Type := mkRobot {
  mChassis : option PxRigidDynamic;
  mWheels : list PxRigidDynamic;
  mWheelJoints : list PxRevoluteJoint;
  mHeldBlocks : list HeldBlock;
  mThrottleInput : float;
  mTurnInput : float
}.

Definition MAX_HELD_BLOCKS : nat := 8.

Definition ROBOT_WIDTH : float := F32.lit 35 100.
Definition ROBOT_LENGTH : float := F32.lit 35 100.
Definition DRIVE_TORQUE : float := F32.of_Z 500.
Definition INTAKE_RANGE : float := F32.lit 35 100.

Definition set_mWheelJoints (js : list PxRevoluteJoint) (r : Robot) : Robot :=
  mkRobot (mChassis r) (mWheels r) js (mHeldBlocks r) (mThrottleInput r) (mTurnInput r).
Definition set_mHeldBlocks (hs : list HeldBlock) (r : Robot) : Robot :=
  mkRobot (mChassis r) (mWheels r) (mWheelJoints r) hs (mThrottleInput r) (mTurnInput r).

(** [Robot::Robot()] *)
Definition Robot_new : Robot := mkRobot None [] [] [] F32.zero F32.zero.

Definition SetDriveInput (left right : float) (r : Robot) : Robot :=
  mkRobot (mChassis r) (mWheels r) (mWheelJoints r) (mHeldBlocks r) left right.

Definition HasBlock (r : Robot) : bool :=
  match mHeldBlocks r with [] => false | _ :: _ => true end.
Definition GetHeldCount (r : Robot) : nat := length (mHeldBlocks r).
Definition IsIntakeFull (r : Robot) : bool :=
  MAX_HELD_BLOCKS <=? length (mHeldBlocks r).

(** ** Robot.cpp: construction and drive *)

(** One pass of the inner loop of [CreateWheels]: wheel [i] of side [side]
    and its motorised joint.  The three drive settings a new joint starts
    with are overwritten at once by the three setters. *)
Definition createWheel (chassis : PxRigidDynamic) (side i : Z)
    : PxRigidDynamic * PxRevoluteJoint :=
  let xOffset := F32.div ROBOT_WIDTH (F32.of_Z 2) in
  let zSpacing := F32.div ROBOT_LENGTH (F32.of_Z 3) in
  let zStart := F32.div (F32.opp ROBOT_LENGTH) (F32.of_Z 2) in
  let zPos := F32.add zStart (F32.mul (F32.of_Z i) zSpacing) in
  let wheelLocalPose :=
    PxTransform_at (mkVec3 (F32.mul (F32.of_Z side) xOffset)
                           (F32.opp (F32.lit 20 100)) zPos) in
  let chassisPose := globalPose chassis in
  let wheelGlobalPose := transformT chassisPose wheelLocalPose in
  let wheelActor :=
    SetActorFilter eWHEEL (Z.lor (Z.lor eGROUND eOBSTACLE) eBLOCK)
      (attachShape (createRigidDynamic wheelGlobalPose)) in
  let jointFrameChassis := PxTransform_at (t_p wheelLocalPose) in
  let jointFrameWheel := PxTransform_at (mkVec3 F32.zero F32.zero F32.zero) in
  let joint :=
    setDriveForceLimit DRIVE_TORQUE
      (setDriveEnabled true
        (setDriveVelocity F32.zero
          (mkRevolute jointFrameChassis jointFrameWheel
                      F32.zero false F32.zero))) in
  (wheelActor, joint).

(** [Robot::CreateWheels]: side -1 first, then side +1, four wheels each.
    It is private and [Initialize] calls it once [mChassis] is set. *)
Definition CreateWheels (r : Robot) : Robot :=
  match mChassis r with
  | None => r
  | Some chassis =>
    let made :=
      flat_map (fun side => map (createWheel chassis side) [0; 1; 2; 3]%Z)
               [-1; 1]%Z in
    mkRobot (mChassis r) (mWheels r ++ map fst made)
            (mWheelJoints r ++ map snd made) (mHeldBlocks r)
            (mThrottleInput r) (mTurnInput r)
  end.

(** [Robot::Initialize].  [chassisCreated] tells whether
    [createRigidDynamic] returned a chassis or null. *)
Definition Initialize (chassisCreated : bool) (startPos : PxVec3) (r : Robot) : Robot :=
  if chassisCreated then
    let chassis :=
      SetActorFilter eCHASSIS
        (Z.lor (Z.lor (Z.lor eGROUND eOBSTACLE) eCHASSIS) eBLOCK)
        (attachShape (createRigidDynamic (PxTransform_at startPos))) in
    CreateWheels
      (mkRobot (Some chassis) (mWheels r) (mWheelJoints r) (mHeldBlocks r)
               (mThrottleInput r) (mTurnInput r))
  else
    mkRobot None (mWheels r) (mWheelJoints r) (mHeldBlocks r)
            (mThrottleInput r) (mTurnInput r).

(** The clamp of [Update]: [std::max(-1.0f, std::min(1.0f, input))]. *)
Definition clampInput (input : float) : float :=
  F32.max (F32.opp F32.one) (F32.min F32.one input).

Definition maxVelocity : float := F32.of_Z 20.

(** [Robot::Update] *)
Definition Update (dt : float) (r : Robot) : Robot :=
  match mChassis r with
  | None => r
  | Some _ =>
    let leftInput := clampInput (mThrottleInput r) in
    let rightInput := clampInput (mTurnInput r) in
    set_mWheelJoints
      (imap (fun i joint =>
               let input := if i <? 4 then leftInput else rightInput in
               setDriveForceLimit DRIVE_TORQUE
                 (setDriveVelocity (F32.mul input maxVelocity) joint))
            (mWheelJoints r))
      r
  end.

(** [glm::mat4]: four columns of four floats; [glm::mat4(1.0f)] is the
    identity. *)
Definition mat4 : Type := list (list float).

Definition mat4_diag (d : float) : mat4 :=
  let o := F32.zero in
  [[d; o; o; o]; [o; d; o; o]; [o; o; d; o]; [o; o; o; d]].

Section Glm.

(** glm's [mat4_cast], [translate], [scale] and matrix product. *)
Variable mat4_cast : PxQuat -> mat4.
Variable glm_translate : mat4 -> PxVec3 -> mat4.
Variable glm_scale : mat4 -> PxVec3 -> mat4.
Variable mat4_mul : mat4 -> mat4 -> mat4.

(** [Robot::GetTransformMatrix] *)
Definition GetTransformMatrix (visualScale : float) (r : Robot) : mat4 :=
  match mChassis r with
  | None => mat4_diag F32.one
  | Some chassis =>
    let pose := globalPose chassis in
    let rotation := mat4_cast (t_q pose) in
    let translation := glm_translate (mat4_diag F32.one) (t_p pose) in
    let scale := glm_scale (mat4_diag F32.one) (PxVec3_all visualScale) in
    mat4_mul (mat4_mul translation rotation) scale
  end.

End Glm.

(** [Robot::GetFrontPosition] *)
Definition GetFrontPosition (r : Robot) : PxVec3 :=
  match mChassis r with
  | None => PxVec3_all F32.zero
  | Some chassis =>
    let pose := globalPose chassis in
    let localFront :=
      mkVec3 F32.zero F32.zero
             (F32.add (F32.div ROBOT_LENGTH (F32.of_Z 2)) (F32.lit 5 100)) in
    transform pose localFront
  end.

(** ** The simulation state

    The robot, main's block list, and the fixed joints alive in the
    engine, keyed by handle.  [nextJoint] is the handle the next created
    joint receives. *)

Record World : Type := mkWorld {
  robot : Robot;
  blocks : list GameBlock;
  fixedJoints : gmap nat PxFixedJoint;
  nextJoint : nat
}.

Definition set_robot (r : Robot) (w : World) : World :=
  mkWorld r (blocks w) (fixedJoints w) (nextJoint w).
Definition set_block (i : nat) (g : GameBlock) (w : World) : World :=
  mkWorld (robot w) (<[i := g]> (blocks w)) (fixedJoints w) (nextJoint w).

(** [PxFixedJointCreate]: null when the engine cannot create the joint
    ([created = false]), otherwise a fresh handle. *)
Definition PxFixedJointCreate (created : bool) (j : PxFixedJoint) (w : World)
    : option nat * World :=
  if created then
    (Some (nextJoint w),
     mkWorld (robot w) (blocks w) (<[nextJoint w := j]> (fixedJoints w))
             (S (nextJoint w)))
  else (None, w).

(** [joint->release()] *)
Definition releaseJoint (h : nat) (w : World) : World :=
  mkWorld (robot w) (blocks w) (delete h (fixedJoints w)) (nextJoint w).

(** The block data of a collision-enabled game block: category [eBLOCK],
    accepting ground, chassis, wheels, obstacles and blocks. *)
Definition blockFilterData : PxFilterData :=
  set_word1
    (Z.lor (Z.lor (Z.lor (Z.lor eGROUND eCHASSIS) eOBSTACLE) eBLOCK) eWHEEL)
    (set_word0 eBLOCK PxFilterData_default).

(** The distance [TryIntake] and the intake handler measure. *)
Definition frontDistance (r : Robot) (b : PxRigidDynamic) : float :=
  magnitude (vsub (GetFrontPosition r) (t_p (globalPose b))).

(** [Robot::TryIntake] on block [i]; [jointCreated] is the engine's answer
    to [PxFixedJointCreate].  Returns the result and the state left. *)
Definition TryIntake (jointCreated : bool) (i : nat) (w : World) : bool * World :=
  match blocks w !! i with
  | None => (false, w)
  | Some blk =>
    match mChassis (robot w), held blk, body blk with
    | Some chassis, false, Some blockBody =>
      if IsIntakeFull (robot w) then (false, w)
      else
        let dist := frontDistance (robot w) blockBody in
        if F32.ltb INTAKE_RANGE dist then (false, w)
        else
          (* Teleport block to inside the robot *)
          let chassisPose := globalPose chassis in
          let holdPos := transform chassisPose (mkVec3 F32.zero F32.zero F32.zero) in
          let b1 := setGlobalPose (mkTransform (t_q chassisPose) holdPos) blockBody in
          let b2 := setLinearVelocity (PxVec3_all F32.zero) b1 in
          let b3 := setAngularVelocity (PxVec3_all F32.zero) b2 in
          (* Disable collision while held *)
          let fd := set_word1 0%Z (set_word0 0%Z PxFilterData_default) in
          let b4 := setFirstShapeFilter fd b3 in
          let w1 := set_block i (set_body b4 blk) w in
          (* Attach at robot center via fixed joint *)
          let localFrame := PxTransform_at (mkVec3 F32.zero F32.zero F32.zero) in
          match PxFixedJointCreate jointCreated
                  (mkFixed i localFrame PxTransform_identity) w1 with
          | (Some j, w2) =>
            let hb := mkHeld i (Some j) in
            let w3 := set_robot
                        (set_mHeldBlocks (mHeldBlocks (robot w2) ++ [hb]) (robot w2))
                        w2 in
            (true, set_block i (set_held true (set_body b4 blk)) w3)
          | (None, w2) => (false, w2)
          end
    | _, _, _ => (false, w)
    end
  end.

(** [Robot::Outtake].  [None] is the fault of calling through a null
    [mChassis]. *)
Definition Outtake (w : World) : option World :=
  match last (mHeldBlocks (robot w)) with
  | None => Some w
  | Some hb =>
    (* back(); pop_back() *)
    let w1 := set_robot (set_mHeldBlocks (removelast (mHeldBlocks (robot w))) (robot w)) w in
    match blocks w1 !! block hb with
    | None => Some w1
    | Some blk =>
      match body blk with
      | None => Some w1
      | Some blockBody =>
        (* Release joint *)
        let w2 := match joint hb with
                  | Some j => releaseJoint j w1
                  | None => w1
                  end in
        (* Teleport block to front of robot *)
        match mChassis (robot w2) with
        | None => None
        | Some chassis =>
          let pose := globalPose chassis in
          let forward := rotate (t_q pose) (mkVec3 F32.zero F32.zero F32.one) in
          let ejectPos :=
            vadd (t_p pose)
                 (vscale forward
                    (F32.add (F32.div ROBOT_LENGTH (F32.of_Z 2)) (F32.lit 15 100))) in
          let ejectPos := set_vy (vy (t_p pose)) ejectPos in
          let b1 := setGlobalPose (mkTransform (t_q pose) ejectPos) blockBody in
          let b2 := setLinearVelocity (PxVec3_all F32.zero) b1 in
          let b3 := setAngularVelocity (PxVec3_all F32.zero) b2 in
          (* Re-enable collision *)
          let fd :=
            set_word1
              (Z.lor (Z.lor (Z.lor (Z.lor eGROUND eCHASSIS) eOBSTACLE) eBLOCK) eWHEEL)
              (set_word0 eBLOCK PxFilterData_default) in
          let b4 := setFirstShapeFilter fd b3 in
          (* Give a gentle forward velocity *)
          let b5 := setLinearVelocity (vscale forward F32.one) b4 in
          Some (set_block (block hb) (set_held false (set_body b5 blk)) w2)
        end
      end
    end
  end.

(** ** main.cpp *)

(** What a call of [SpawnBlock] finds: whether the three pointers it is
    handed are not null, and whether the engine returns the body and the
    sphere shape it is asked for.  main hands over the pointers of its
    [PhysicsWorld], whose [Initialize] reports no failure.  Once the loop
    is reached the first two are not null, [Robot::Initialize] and
    [PhysicsWorld::Initialize] having called through them; nothing here
    relies on that, and the three are left open at every call. *)
Record SpawnAnswers : Type := mkSpawnAnswers {
  physicsGiven : bool;
  sceneGiven : bool;
  materialGiven : bool;
  bodyCreated : bool;
  sphereCreated : bool
}.

(** An engine that is there and creates what it is asked for. *)
Definition spawnOk : SpawnAnswers := mkSpawnAnswers true true true true true.

(** Whether every answer is the good one. *)
Definition spawns (a : SpawnAnswers) : bool :=
  physicsGiven a && materialGiven a && bodyCreated a && sphereCreated a
  && sceneGiven a.

(** [SpawnBlock].  None of the pointers and none of the two results is
    checked: [physics->createRigidDynamic], [*material],
    [block.body->attachShape( *shape)] and [scene->addActor] fault on a
    null pointer. *)
Definition SpawnBlock (a : SpawnAnswers) (c : BlockColor) (position : PxVec3)
    : option GameBlock :=
  if negb (physicsGiven a) then None
  else if negb (materialGiven a) then None
  else if negb (bodyCreated a) || negb (sphereCreated a) then None
  else
    let b := attachShape (createRigidDynamic (PxTransform_at position)) in
    let b :=
      SetActorFilter eBLOCK
        (Z.lor (Z.lor (Z.lor (Z.lor eGROUND eCHASSIS) eWHEEL) eOBSTACLE) eBLOCK) b in
    if negb (sceneGiven a) then None
    else Some (mkBlock (Some b) c false).

(** The spawn handler: a block above the front of the robot, appended to
    the list. *)
Definition spawnAtFront (a : SpawnAnswers) (c : BlockColor) (w : World)
    : option World :=
  let spawnPos := GetFrontPosition (robot w) in
  let spawnPos := set_vy (F32.add (vy spawnPos) (F32.lit 3 10)) spawnPos in
  g ← SpawnBlock a c spawnPos;
  Some (mkWorld (robot w) (blocks w ++ [g]) (fixedJoints w) (nextJoint w)).

(** The scan of the intake handler over the block list: [bestDist] and
    [bestBlock] after the blocks from position [i] on have been visited. *)
Fixpoint scanBlocks (r : Robot) (bs : list GameBlock) (i : nat)
    (bestDist : float) (bestBlock : option nat) : float * option nat :=
  match bs with
  | [] => (bestDist, bestBlock)
  | blk :: rest =>
    match held blk, body blk with
    | false, Some b =>
      let dist := frontDistance r b in
      if F32.ltb dist bestDist
      then scanBlocks r rest (S i) dist (Some i)
      else scanBlocks r rest (S i) bestDist bestBlock
    | _, _ => scanBlocks r rest (S i) bestDist bestBlock
    end
  end.

Definition nearestBlock (w : World) : option nat :=
  snd (scanBlocks (robot w) (blocks w) 0 (F32.of_Z 999) None).

(** The intake handler (key F).  The result is the argument passed to
    [TryIntake], if it was called, and the state left. *)
Definition intakeHandler (fPressed fWasPressed jointCreated : bool) (w : World)
    : option nat * World :=
  if fPressed && negb fWasPressed && negb (IsIntakeFull (robot w)) then
    match nearestBlock w with
    | Some bestBlock => (Some bestBlock, snd (TryIntake jointCreated bestBlock w))
    | None => (None, w)
    end
  else (None, w).

(** The outtake handler (key G). *)
Definition outtakeHandler (gPressed gWasPressed : bool) (w : World) : option World :=
  if gPressed && negb gWasPressed then Outtake w else Some w.

(** ** PhysicsWorld::Update

    [simulate] and [fetchResults] belong to the engine.  A [Simulation]
    gives the pose and velocities every body has after a step of the given
    length from the given state; filter data is not touched by a step.
    The scene exists in every session: [Initialize] has already called
    through it. *)

Inductive BodyRef : Type :=
  | ChassisBody
  | WheelBody (i : nat)
  | BlockBody (i : nat).

Record Motion : Type := mkMotion {
  m_pose : PxTransform;
  m_linear : PxVec3;
  m_angular : PxVec3
}.

Definition Simulation : Type := float -> World -> BodyRef -> Motion.

Definition moveBody (m : Motion) (b : PxRigidDynamic) : PxRigidDynamic :=
  mkBody (m_pose m) (m_linear m) (m_angular m) (shapes b).

Definition PhysicsWorld_Update (sim : Simulation) (deltaTime : float) (w : World) : World :=
  let move ref := moveBody (sim deltaTime w ref) in
  let r := robot w in
  mkWorld
    (mkRobot (move ChassisBody <$> mChassis r)
             (imap (fun i => move (WheelBody i)) (mWheels r))
             (mWheelJoints r) (mHeldBlocks r) (mThrottleInput r) (mTurnInput r))
    (imap (fun i g => mkBlock (move (BlockBody i) <$> body g) (color g) (held g))
          (blocks w))
    (fixedJoints w) (nextJoint w).

(** A simulation in which nothing moves. *)
Definition still : Simulation :=
  fun _ w ref =>
    let of_body b := mkMotion (globalPose b) (linearVelocity b) (angularVelocity b) in
    let rest := mkMotion PxTransform_identity (PxVec3_all F32.zero) (PxVec3_all F32.zero) in
    match ref with
    | ChassisBody => from_option of_body rest (mChassis (robot w))
    | WheelBody i => from_option of_body rest (mWheels (robot w) !! i)
    | BlockBody i => from_option of_body rest (blocks w !! i ≫= body)
    end.

(** ** The fixed-step drain of the frame loop *)

Definition physicsTimestep : float := F32.div F32.one (F32.of_Z 60).

(** [if (dt > 0.1f) dt = 0.1f;] *)
Definition clampFrameTime (dt : float) : float :=
  if F32.ltb (F32.lit 1 10) dt then F32.lit 1 10 else dt.

Section Drain.

(** The loop is stated over any state and any pair of update functions;
    [fuel] bounds the number of iterations and [None] means it ran out. *)
Context {St : Type}.
Variable robotUpdate : float -> St -> St.
Variable physicsUpdate : float -> St -> St.

Fixpoint drain (fuel : nat) (physicsAccumulator : float) (s : St)
    : option (float * St) :=
  if F32.leb physicsTimestep physicsAccumulator then
    match fuel with
    | O => None
    | S fuel' =>
      let s := robotUpdate physicsTimestep s in
      let s := physicsUpdate physicsTimestep s in
      drain fuel' (F32.sub physicsAccumulator physicsTimestep) s
    end
  else Some (physicsAccumulator, s).

End Drain.

Definition Robot_Update (dt : float) (w : World) : World :=
  set_robot (Update dt (robot w)) w.

(** The drain of main: [robot.Update] then [physics.Update]. *)
Definition physicsDrain (sim : Simulation) (fuel : nat) (acc : float) (w : World)
    : option (float * World) :=
  drain Robot_Update (PhysicsWorld_Update sim) fuel acc w.

(** The physics part of one frame: [physicsAccumulator += dt] with the
    clamped frame time, then the loop. *)
Definition frameDrain (sim : Simulation) (fuel : nat) (dt acc : float) (w : World)
    : option (float * World) :=
  physicsDrain sim fuel (F32.add acc (clampFrameTime dt)) w.

(** The same loop with every call recorded. *)
Inductive Call : Type :=
  | CallRobotUpdate (dt : float)
  | CallPhysicsUpdate (dt : float).

Definition loggedDrain (sim : Simulation) (fuel : nat) (acc : float)
    (w : World) : option (float * (World * list Call)) :=
  drain (fun dt s => (Robot_Update dt (fst s), snd s ++ [CallRobotUpdate dt]))
        (fun dt s => (PhysicsWorld_Update sim dt (fst s), snd s ++ [CallPhysicsUpdate dt]))
        fuel acc (w, []).

(** ** Sessions

    A session starts with [Initialize] on a new robot and an empty block
    list; afterwards the frame loop spawns blocks, calls the robot and
    steps the engine in any order. *)

Inductive Event : Type :=
  | EvSetDriveInput (left right : float)
  | EvSpawn (a : SpawnAnswers) (c : BlockColor) (position : PxVec3)
  | EvTryIntake (jointCreated : bool) (i : nat)
  | EvOuttake
  | EvUpdate (dt : float)
  | EvPhysicsUpdate (sim : Simulation) (dt : float).

Definition exec (e : Event) (w : World) : option World :=
  match e with
  | EvSetDriveInput l r => Some (set_robot (SetDriveInput l r (robot w)) w)
  | EvSpawn a c pos =>
    g ← SpawnBlock a c pos;
    Some (mkWorld (robot w) (blocks w ++ [g]) (fixedJoints w) (nextJoint w))
  | EvTryIntake created i => Some (snd (TryIntake created i w))
  | EvOuttake => Outtake w
  | EvUpdate dt => Some (Robot_Update dt w)
  | EvPhysicsUpdate sim dt => Some (PhysicsWorld_Update sim dt w)
  end.

Fixpoint run (es : list Event) (w : World) : option World :=
  match es with
  | [] => Some w
  | e :: es' => w' ← exec e w; run es' w'
  end.

Definition startWorld (chassisCreated : bool) (startPos : PxVec3) : World :=
  mkWorld (Initialize chassisCreated startPos Robot_new) [] ∅ 0.

Definition Reachable (w : World) : Prop :=
  exists chassisCreated startPos es,
    run es (startWorld chassisCreated startPos) = Some w.

(** ** Vocabulary of the properties *)

(** The number of [HeldBlock] records that point at block [i]. *)
Definition refs (i : nat) (l : list HeldBlock) : nat :=
  length (filter (fun hb => block hb = i) l).
Definition references (i : nat) (w : World) : nat :=
  refs i (mHeldBlocks (robot w)).

(** Filter data that opts out of every contact. *)
Definition zeroFilterData : PxFilterData :=
  set_word1 0%Z (set_word0 0%Z PxFilterData_default).

(** The filter data [Initialize] and [CreateWheels] give the chassis and
    the wheels. *)
Definition chassisFilterData : PxFilterData :=
  set_word1 (Z.lor (Z.lor (Z.lor eGROUND eOBSTACLE) eCHASSIS) eBLOCK)
            (set_word0 eCHASSIS PxFilterData_default).
Definition wheelFilterData : PxFilterData :=
  set_word1 (Z.lor (Z.lor eGROUND eOBSTACLE) eBLOCK)
            (set_word0 eWHEEL PxFilterData_default).

(** The body of a block as [TryIntake] leaves it once the range check has
    passed. *)
Definition heldBody (chassis blockBody : PxRigidDynamic) : PxRigidDynamic :=
  let chassisPose := globalPose chassis in
  let holdPos := transform chassisPose (mkVec3 F32.zero F32.zero F32.zero) in
  setFirstShapeFilter zeroFilterData
    (setAngularVelocity (PxVec3_all F32.zero)
      (setLinearVelocity (PxVec3_all F32.zero)
        (setGlobalPose (mkTransform (t_q chassisPose) holdPos) blockBody))).

(** The body of a block as [Outtake] leaves it. *)
Definition ejectedBody (chassis blockBody : PxRigidDynamic) : PxRigidDynamic :=
  let pose := globalPose chassis in
  let forward := rotate (t_q pose) (mkVec3 F32.zero F32.zero F32.one) in
  let ejectPos :=
    set_vy (vy (t_p pose))
      (vadd (t_p pose)
            (vscale forward
               (F32.add (F32.div ROBOT_LENGTH (F32.of_Z 2)) (F32.lit 15 100)))) in
  setLinearVelocity (vscale forward F32.one)
    (setFirstShapeFilter blockFilterData
      (setAngularVelocity (PxVec3_all F32.zero)
        (setLinearVelocity (PxVec3_all F32.zero)
          (setGlobalPose (mkTransform (t_q pose) ejectPos) blockBody)))).

(** The block passes every check of [TryIntake] up to the joint creation. *)
Definition intakeReady (i : nat) (blk : GameBlock)
    (chassis b : PxRigidDynamic) (w : World) : Prop :=
  blocks w !! i = Some blk /\ mChassis (robot w) = Some chassis
  /\ held blk = false /\ body blk = Some b
  /\ IsIntakeFull (robot w) = false
  /\ F32.ltb INTAKE_RANGE (frontDistance (robot w) b) = false.

(** The state after a successful [TryIntake] of a ready block. *)
Definition attachedWorld (i : nat) (blk : GameBlock)
    (chassis b : PxRigidDynamic) (w : World) : World :=
  mkWorld
    (set_mHeldBlocks (mHeldBlocks (robot w) ++ [mkHeld i (Some (nextJoint w))])
                     (robot w))
    (<[i := mkBlock (Some (heldBody chassis b)) (color blk) true]> (blocks w))
    (<[nextJoint w :=
         mkFixed i (PxTransform_at (mkVec3 F32.zero F32.zero F32.zero))
                 PxTransform_identity]> (fixedJoints w))
    (S (nextJoint w)).

(** The state [TryIntake] leaves when the joint cannot be created. *)
Definition abortedWorld (i : nat) (blk : GameBlock)
    (chassis b : PxRigidDynamic) (w : World) : World :=
  mkWorld (robot w)
    (<[i := mkBlock (Some (heldBody chassis b)) (color blk) false]> (blocks w))
    (fixedJoints w) (nextJoint w).

(** The state after [Outtake] has ejected the block of record [hb]. *)
Definition ejectedWorld (hb : HeldBlock) (blk : GameBlock)
    (chassis b : PxRigidDynamic) (w : World) : World :=
  mkWorld
    (set_mHeldBlocks (removelast (mHeldBlocks (robot w))) (robot w))
    (<[block hb := mkBlock (Some (ejectedBody chassis b)) (color blk) false]>
       (blocks w))
    (match joint hb with
     | Some j => delete j (fixedJoints w)
     | None => fixedJoints w
     end)
    (nextJoint w).

(** What every state of a session satisfies. *)
Record WorldInv (w : World) : Prop := mkWorldInv {
  inv_refs : forall i g, blocks w !! i = Some g ->
             references i w = if held g then 1 else 0;
  inv_bound : forall hb, hb ∈ mHeldBlocks (robot w) ->
              block hb < length (blocks w);
  inv_body : forall i g, blocks w !! i = Some g ->
             exists b, body g = Some b
               /\ (shapes b = [zeroFilterData]
                   \/ held g = false /\ shapes b = [blockFilterData]);
  inv_chassis : mChassis (robot w) = None -> mHeldBlocks (robot w) = [];
  inv_cap : length (mHeldBlocks (robot w)) <= MAX_HELD_BLOCKS
}.

(** A robot without chassis, wheels, held blocks or joints. *)
Definition Inert (w : World) : Prop :=
  mChassis (robot w) = None /\ mHeldBlocks (robot w) = []
  /\ mWheelJoints (robot w) = [] /\ fixedJoints w = ∅.

(** [a] is [b] or below it. *)
Definition notAbove (a b : float) : Prop := a = b \/ F32.ltb a b = true.

(** What a scan of [bs], whose first block has position [i0], guarantees
    when it starts from [bd], [bb] and ends with [bd'], [bb']. *)
Definition ScanPost (r : Robot) (bs : list GameBlock) (i0 : nat)
    (bd : float) (bb : option nat) (bd' : float) (bb' : option nat) : Prop :=
  notAbove bd' bd
  /\ (forall j g b, bs !! j = Some g -> held g = false -> body g = Some b ->
        F32.ltb (frontDistance r b) bd' = false)
  /\ ((bd' = bd /\ bb' = bb)
      \/ exists j g b, bb' = Some (i0 + j) /\ bs !! j = Some g
                       /\ held g = false /\ body g = Some b
                       /\ frontDistance r b = bd' /\ F32.ltb bd' bd = true).

(** [x] is exactly [num * 2^k]: a finite positive float [m * 2^e] with, once
    both are scaled to the smaller exponent, the same integer. *)
Definition exactly (x : float) (num k : Z) : Prop :=
  match x with
  | S754_finite false m e =>
    (Zpos m * 2 ^ (e - Z.min e k) = num * 2 ^ (k - Z.min e k))%Z
  | _ => False
  end.

(** ** Sample sessions *)

(** The start of main: the robot at (0, 0.5, 0), no block yet. *)
Definition mainStart : World :=
  startWorld true (mkVec3 F32.zero (F32.lit 5 10) F32.zero).

(** Where the spawn handler puts a block while the robot has not moved. *)
Definition spawnPosition : PxVec3 :=
  let front := GetFrontPosition (robot mainStart) in
  set_vy (F32.add (vy front) (F32.lit 3 10)) front.

(** The state the events lead to from the start of main. *)
Definition after (es : list Event) : World :=
  default mainStart (run es mainStart).

Definition spawnAndIntake (i : nat) : list Event :=
  [EvSpawn spawnOk RED spawnPosition; EvTryIntake true i].

Definition oneHeld : World := after (spawnAndIntake 0 ++ [EvSpawn spawnOk BLUE spawnPosition]).

Definition fillEvents : list Event :=
  flat_map spawnAndIntake (seq 0 8) ++ [EvSpawn spawnOk BLUE spawnPosition].

Definition fullIntake : World := after fillEvents.

Definition threeSpawned : World :=
  after [EvSpawn spawnOk RED spawnPosition; EvSpawn spawnOk BLUE spawnPosition;
         EvSpawn spawnOk RED spawnPosition].

Definition oneSpawned : World := after [EvSpawn spawnOk RED spawnPosition].

(** A session whose chassis could not be created. *)
Definition failedStart : World :=
  startWorld false (mkVec3 F32.zero (F32.lit 5 10) F32.zero).

Definition failedSession : list Event :=
  [EvSetDriveInput F32.one F32.one;
   EvSpawn spawnOk RED (mkVec3 F32.zero (F32.lit 3 10) F32.zero);
   EvTryIntake true 0; EvOuttake; EvUpdate physicsTimestep;
   EvPhysicsUpdate still physicsTimestep].

Definition failedWorld : World := default failedStart (run failedSession failedStart).


(** A simulation step that leaves block [i] at [pose], at rest, and moves
    nothing else. *)
Definition carryBlock (i : nat) (pose : PxTransform) : Simulation :=
  fun dt w ref =>
    match ref with
    | BlockBody j =>
      if bool_decide (j = i)
      then mkMotion pose (PxVec3_all F32.zero) (PxVec3_all F32.zero)
      else still dt w ref
    | _ => still dt w ref
    end.




(** The same with a second block, which stays where it was spawned. *)
Definition lostAndNear : World :=
  after [EvSpawn spawnOk RED spawnPosition;
         EvSpawn spawnOk BLUE spawnPosition;
         EvPhysicsUpdate
           (carryBlock 0 (PxTransform_at (mkVec3 S754_nan (F32.lit 5 10) F32.zero)))
           physicsTimestep].

(** The accumulator of the drain property: 2.5f times the timestep, the
    float nearest to two and a half timesteps, and what the loop leaves
    of it. *)
Definition twoAndAHalfSteps : float := F32.mul (F32.lit 25 10) physicsTimestep.
Definition halfStep : float := F32.mul (F32.lit 5 10) physicsTimestep.
Definition drainRemainder : float :=
  F32.sub (F32.sub twoAndAHalfSteps physicsTimestep) physicsTimestep.

(** ** Further vocabulary *)

(** The fixed joint [TryIntake] creates for block [i]. *)
Definition intakeJoint (i : nat) : PxFixedJoint :=
  mkFixed i (PxTransform_at (mkVec3 F32.zero F32.zero F32.zero))
          PxTransform_identity.

(** The joints alive in the engine are those of the records, one each. *)
Record JointInv (w : World) : Prop := mkJointInv {
  jinv_live : forall hb, hb ∈ mHeldBlocks (robot w) ->
              exists j, joint hb = Some j
                        /\ fixedJoints w !! j = Some (intakeJoint (block hb));
  jinv_owned : forall j fj, fixedJoints w !! j = Some fj ->
               exists hb, hb ∈ mHeldBlocks (robot w) /\ joint hb = Some j;
  jinv_fresh : forall j, nextJoint w <= j -> fixedJoints w !! j = None;
  jinv_size : size (fixedJoints w) = length (mHeldBlocks (robot w));
  jinv_nodup : NoDup (joint <$> mHeldBlocks (robot w))
}.

(** The filter data main gives the field. *)
Definition groundFilterData : PxFilterData :=
  set_word1 (Z.lor (Z.lor (Z.lor eCHASSIS eWHEEL) eOBSTACLE) eBLOCK)
            (set_word0 eGROUND PxFilterData_default).

(** The verdict of the shader on two shapes that are not triggers. *)
Definition collide (fd0 fd1 : PxFilterData) : bool :=
  match fst (VehicleFilterShader unit (fun _ => false) 0%Z 0%Z 0%Z
               tt fd0 tt fd1 0%Z) with
  | eDEFAULT => true
  | _ => false
  end.

(** ** main.cpp: one pass of the frame loop *)

(** The keys a frame of main reads with [glfwGetKey]: [true] is
    [GLFW_PRESS]. *)
Record Keys : Type := mkKeys {
  keyA : bool; keyD : bool; keyZ : bool; keyC : bool;
  keyR : bool; keyB : bool; keyF : bool; keyG : bool
}.

(** What one pass of the loop takes from outside: the frame time as the
    float the cast gives, the keys, [framebufferResized] as the test finds
    it, the size [glfwGetFramebufferSize] reports, whether
    [RecreateSwapchain] and [pipeline.Create] return (they throw on a
    Vulkan error or a shader file that cannot be read), what [SpawnBlock]
    finds for a red and for a blue block, whether the engine creates the
    joint of an intake, the engine's simulation, and whether the camera
    and drawing part returns ([BeginFrame] and [EndFrame] throw on a
    Vulkan error). *)
Record FrameInput : Type := mkFrameInput {
  frameTime : float;
  keys : Keys;
  resized : bool;
  framebufferSize : Z * Z;
  swapchainRecreated : bool;
  pipelineCreated : bool;
  redSpawn : SpawnAnswers;
  blueSpawn : SpawnAnswers;
  intakeJointCreated : bool;
  simulation : Simulation;
  drawn : bool
}.

(** The variables of main that live across passes and that the handling
    of the robot and the blocks reads or writes.  [lastTime] enters
    through the frame time; the camera, the info panel and its key flag
    belong to the drawing part. *)
Record MainLoop : Type := mkLoop {
  world : World;
  accumulator : float;
  rWas : bool;
  bWas : bool;
  fWas : bool;
  gWas : bool
}.

(** The robot input block of the loop. *)
Definition driveInput (k : Keys) : float * float :=
  let leftInput := F32.zero in
  let rightInput := F32.zero in
  let rightInput := if keyA k then F32.add rightInput F32.one else rightInput in
  let leftInput := if keyD k then F32.add leftInput F32.one else leftInput in
  let rightInput := if keyZ k then F32.sub rightInput F32.one else rightInput in
  let leftInput := if keyC k then F32.sub leftInput F32.one else leftInput in
  (leftInput, rightInput).

(** The spawn handlers (keys R and B). *)
Definition spawnHandler (pressed wasPressed : bool) (a : SpawnAnswers)
    (c : BlockColor) (w : World) : option World :=
  if pressed && negb wasPressed then spawnAtFront a c w else Some w.

(** The resize branch: with a size that is positive both ways the
    swapchain and the pipeline are made anew, and an exception of either
    leaves main, which has no handler around the loop. *)
Definition resizeHandler (fi : FrameInput) : option unit :=
  let w := fst (framebufferSize fi) in
  let h := snd (framebufferSize fi) in
  if (0 <? w)%Z && (0 <? h)%Z then
    if negb (swapchainRecreated fi) then None
    else if negb (pipelineCreated fi) then None
    else Some tt
  else Some tt.

(** One pass of the loop.  A pass that finds the framebuffer resized ends
    at [continue].  Camera and drawing, which end the pass, read the robot
    and the blocks and write none of these variables; all that is kept of
    them is whether they return.  [TryIntake] calls through the physics
    pointer only to create the joint, so only for a robot with a chassis,
    which [Initialize] has created through the same pointer.  [None] is a
    pass main does not complete. *)
Definition frame (fuel : nat) (fi : FrameInput) (l : MainLoop) : option MainLoop :=
  if resized fi then
    _ ← resizeHandler fi; Some l
  else
    let k := keys fi in
    let w := world l in
    let w := set_robot (SetDriveInput (fst (driveInput k)) (snd (driveInput k))
                                      (robot w)) w in
    w ← spawnHandler (keyR k) (rWas l) (redSpawn fi) RED w;
    w ← spawnHandler (keyB k) (bWas l) (blueSpawn fi) BLUE w;
    let w := snd (intakeHandler (keyF k) (fWas l) (intakeJointCreated fi) w) in
    w ← outtakeHandler (keyG k) (gWas l) w;
    r ← frameDrain (simulation fi) fuel (frameTime fi) (accumulator l) w;
    if negb (drawn fi) then None
    else Some (mkLoop (snd r) (fst r) (keyR k) (keyB k) (keyF k) (keyG k)).

Fixpoint frames (fuel : nat) (fis : list FrameInput) (l : MainLoop)
    : option MainLoop :=
  match fis with
  | [] => Some l
  | fi :: rest => l' ← frame fuel fi l; frames fuel rest l'
  end.

(** The loop variables as main initialises them. *)
Definition loopStart (chassisCreated : bool) : MainLoop :=
  mkLoop (startWorld chassisCreated (mkVec3 F32.zero (F32.lit 5 10) F32.zero))
         F32.zero false false false false.

(** The number of rounds the drain makes from an accumulator, if [fuel]
    rounds are enough. *)
Definition rounds (fuel : nat) (acc : float) : option nat :=
  snd <$> drain (fun _ n => S n) (fun _ n => n) fuel acc 0.

(** [w'] is reached from [w] by some events of a session. *)
Definition Steps (w w' : World) : Prop := exists es, run es w = Some w'.

(** A key that acts on this pass: down now, not down at the pass before. *)
Definition newlyPressed (pressed wasPressed : bool) : bool :=
  pressed && negb wasPressed.

(** A pass of one timestep with the given keys, an engine that creates
    what it is asked for and a simulation in which nothing moves. *)
Definition pass (k : Keys) : FrameInput :=
  mkFrameInput physicsTimestep k false (800, 600)%Z true true spawnOk spawnOk
               true still true.


Definition keysR : Keys := mkKeys false false false false true false false false.
Definition keysRF : Keys := mkKeys false false false false true false true false.
Definition keysFG : Keys := mkKeys true true false false false false true true.
Definition keysG : Keys := mkKeys false false false true false false false true.

(** R; R held and F; F held and G with A and D; G held with C. *)
Definition samplePasses : list FrameInput :=
  [pass keysR; pass keysRF; pass keysFG; pass keysG].

(** The loop variables after the first [n] sample passes. *)
Definition afterPasses (n : nat) : MainLoop :=
  default (loopStart true) (frames 7 (take n samplePasses) (loopStart true)).

(** What the robot holds and the joints that hold it. *)
Definition holding (w : World) : list HeldBlock * gmap nat PxFixedJoint :=
  (mHeldBlocks (robot w), fixedJoints w).

(** The drive side of the robot: the stored inputs and whether there is
    a chassis. *)
Definition driveSide (w : World) : float * float * bool :=
  (mThrottleInput (robot w), mTurnInput (robot w),
   match mChassis (robot w) with Some _ => true | None => false end).

(** One round of the physics loop of main. *)
Definition round (sim : Simulation) (w : World) : World :=
  PhysicsWorld_Update sim physicsTimestep (Robot_Update physicsTimestep w).

(** The filter data of the shapes of the chassis and of each wheel. *)
Definition robotShapes (w : World)
    : option (list PxFilterData) * list (list PxFilterData) :=
  (shapes <$> mChassis (robot w), shapes <$> mWheels (robot w)).

(** ** PhysicsWorld.cpp: start and shutdown *)

(** The engine objects a [PhysicsWorld] creates. *)
Inductive PxObject : Type :=
  | Foundation | Pvd | Transport | Physics | Dispatcher | Scene | Material.

Definition PxObject_eqb (a b : PxObject) : bool :=
  match a, b with
  | Foundation, Foundation | Pvd, Pvd | Transport, Transport
  | Physics, Physics | Dispatcher, Dispatcher | Scene, Scene
  | Material, Material => true
  | _, _ => false
  end.

(** The pointer members of [PhysicsWorld]: [true] is a pointer that is not
    null.  All start null. *)
Record PhysicsWorld : Type := mkPhysicsWorld {
  mFoundation : bool;
  mPhysics : bool;
  mDispatcher : bool;
  mScene : bool;
  mMaterial : bool;
  mPvd : bool
}.

(** The members together with the engine side: the objects that exist and
    the [release] calls made so far, oldest first. *)
Record PhysicsState : Type := mkPhysicsState {
  members : PhysicsWorld;
  alive : list PxObject;
  released : list PxObject
}.

Definition PhysicsState_new : PhysicsState :=
  mkPhysicsState (mkPhysicsWorld false false false false false false) [] [].

Definition isAlive (o : PxObject) (s : PhysicsState) : bool :=
  existsb (PxObject_eqb o) (alive s).

(** A creation call of the engine: [created] tells whether it returned an
    object or null. *)
Definition create (o : PxObject) (created : bool) (s : PhysicsState) : PhysicsState :=
  if created then mkPhysicsState (members s) (o :: alive s) (released s) else s.

(** [p->release()] through a pointer that is not null.  The object must
    still exist: a call through a pointer to a released object is a
    fault. *)
Definition release (o : PxObject) (s : PhysicsState) : option PhysicsState :=
  if isAlive o s then
    Some (mkPhysicsState (members s)
            (List.filter (fun x => negb (PxObject_eqb o x)) (alive s))
            (released s ++ [o]))
  else None.

(** [if (p) p->release();] *)
Definition releaseIf (p : bool) (o : PxObject) (s : PhysicsState)
    : option PhysicsState :=
  if p then release o s else Some s.

Definition set_members (m : PhysicsWorld) (s : PhysicsState) : PhysicsState :=
  mkPhysicsState m (alive s) (released s).

(** What the engine answers to the creation calls of [Initialize]. *)
Record EngineAnswers : Type := mkAnswers {
  foundationCreated : bool;
  pvdCreated : bool;
  transportCreated : bool;
  physicsCreated : bool;
  dispatcherCreated : bool;
  sceneCreated : bool;
  materialCreated : bool
}.

(** [PhysicsWorld::Initialize].  [None] is the fault of a call through a
    null pointer: the call [mPvd->connect] on the transport and
    [mScene->getScenePvdClient()] come without a check. *)
Definition PhysicsWorld_Initialize (a : EngineAnswers) (s : PhysicsState)
    : option PhysicsState :=
  let m := members s in
  (* 1. Foundation *)
  let m := mkPhysicsWorld (foundationCreated a) (mPhysics m) (mDispatcher m)
                          (mScene m) (mMaterial m) (mPvd m) in
  let s := set_members m (create Foundation (foundationCreated a) s) in
  if negb (mFoundation m) then Some s
  else
    (* 2. PVD *)
    let m := mkPhysicsWorld (mFoundation m) (mPhysics m) (mDispatcher m)
                            (mScene m) (mMaterial m) (pvdCreated a) in
    let s := set_members m (create Pvd (pvdCreated a) s) in
    let transport := transportCreated a in
    let s := create Transport transport s in
    if negb (mPvd m) || negb transport then None
    else
      (* 3. Physics *)
      let m := mkPhysicsWorld (mFoundation m) (physicsCreated a) (mDispatcher m)
                              (mScene m) (mMaterial m) (mPvd m) in
      let s := set_members m (create Physics (physicsCreated a) s) in
      if negb (mPhysics m) then Some s
      else
        (* 4. Dispatcher *)
        let m := mkPhysicsWorld (mFoundation m) (mPhysics m) (dispatcherCreated a)
                                (mScene m) (mMaterial m) (mPvd m) in
        let s := set_members m (create Dispatcher (dispatcherCreated a) s) in
        (* 5. Scene *)
        let m := mkPhysicsWorld (mFoundation m) (mPhysics m) (mDispatcher m)
                                (sceneCreated a) (mMaterial m) (mPvd m) in
        let s := set_members m (create Scene (sceneCreated a) s) in
        if negb (mScene m) then None
        else
          (* 6. Default Material *)
          let m := mkPhysicsWorld (mFoundation m) (mPhysics m) (mDispatcher m)
                                  (mScene m) (materialCreated a) (mPvd m) in
          Some (set_members m (create Material (materialCreated a) s)).

(** The guard of [PhysicsWorld::Update]: whether the scene is stepped. *)
Definition PhysicsWorld_steps (s : PhysicsState) : option bool :=
  if mScene (members s) then
    if isAlive Scene s then Some true else None
  else Some false.

(** [PhysicsWorld::Cleanup].  [transportReturned] tells whether
    [mPvd->getTransport()] gives a transport or null.  No member is
    reset. *)
Definition PhysicsWorld_Cleanup (transportReturned : bool) (s : PhysicsState)
    : option PhysicsState :=
  let m := members s in
  s ← releaseIf (mScene m) Scene s;
  s ← releaseIf (mDispatcher m) Dispatcher s;
  s ← releaseIf (mPhysics m) Physics s;
  s ← (if mPvd m then
         s ← release Pvd s;
         releaseIf transportReturned Transport s
       else Some s);
  releaseIf (mFoundation m) Foundation s.

(** The way main ends: [physics.Cleanup()], and on leaving main the
    destructor [~PhysicsWorld], which calls [Cleanup] again. *)
Definition PhysicsWorld_shutdown (transportReturned transportReturned' : bool)
    (s : PhysicsState) : option PhysicsState :=
  s ← PhysicsWorld_Cleanup transportReturned s;
  PhysicsWorld_Cleanup transportReturned' s.

Definition allCreated : EngineAnswers := mkAnswers true true true true true true true.

(** ** tinygltf: what the loader reads of a model

    A [size_t] or [int] member is a [Z]; a [std::vector] is a list and
    [v[i]] or [v.at(i)] with [i] outside it is a fault (an [int] below
    zero, converted to [size_t], is outside every vector). *)

(** A C++ [double]: an IEEE 754 binary64 value. *)
Definition double : Type := spec_float.

Module tinygltf.

Record Accessor : Type := mkAccessor {
  bufferView : Z;
  byteOffset : Z;
  componentType : Z;
  count : Z;
  type : Z
}.

Record BufferView : Type := mkBufferView {
  buffer : Z;
  viewOffset : Z;
  byteStride : Z
}.

Record Buffer : Type := mkBuffer {
  data : list Byte.byte
}.

Record Primitive : Type := mkPrimitive {
  attributes : gmap string Z;
  indices : Z;
  material : Z
}.

Record Mesh : Type := mkMesh {
  primitives : list Primitive
}.

(** [Material]: only [pbrMetallicRoughness.baseColorFactor] is read. *)
Record Material : Type := mkMaterial {
  baseColorFactor : list double
}.

Record Model : Type := mkModel {
  accessors : list Accessor;
  bufferViews : list BufferView;
  buffers : list Buffer;
  meshes : list Mesh;
  materials : list Material
}.

Definition COMPONENT_TYPE_UNSIGNED_BYTE : Z := 5121.
Definition COMPONENT_TYPE_UNSIGNED_SHORT : Z := 5123.
Definition COMPONENT_TYPE_UNSIGNED_INT : Z := 5125.
Definition COMPONENT_TYPE_FLOAT : Z := 5126.
Definition TYPE_VEC3 : Z := 3.
Definition TYPE_VEC4 : Z := 4.
Definition TYPE_SCALAR : Z := 65.

End tinygltf.

(** ** AssetLoader.cpp *)

Definition wrap32 (x : Z) : Z := x mod 2 ^ 32.
Definition wrap64 (x : Z) : Z := x mod 2 ^ 64.

(** [v[i]] *)
Definition index {A : Type} (v : list A) (i : Z) : option A :=
  if (0 <=? i)%Z then v !! Z.to_nat i else None.

(** The [n] bytes at [addr] as an unsigned integer, least significant
    byte first. *)
Fixpoint loadLE (n : nat) (d : list Byte.byte) (addr : Z) : option Z :=
  match n with
  | O => Some 0%Z
  | S n' =>
    b ← index d addr;
    rest ← loadLE n' d (addr + 1);
    Some (Z.lor (Z.of_N (Byte.to_N b)) (Z.shiftl rest 8))
  end.

(** The binary32 value of a 32 bit pattern. *)
Definition f32_of_bits (bits : Z) : float :=
  let sign := Z.testbit bits 31 in
  let e := Z.land (Z.shiftr bits 23) 255 in
  let m := Z.land bits (2 ^ 23 - 1) in
  if (e =? 0)%Z then
    if (m =? 0)%Z then S754_zero sign else S754_finite sign (Z.to_pos m) (-149)
  else if (e =? 255)%Z then
    if (m =? 0)%Z then S754_infinity sign else S754_nan
  else S754_finite sign (Z.to_pos (Z.lor m (2 ^ 23))) (e - 150).

(** [posData[j]] for the [float] pointer [posData] into the bytes [d]. *)
Definition loadFloat (d : list Byte.byte) (posData j : Z) : option float :=
  f32_of_bits <$> loadLE 4 d (posData + 4 * j).

(** One round of the position loop. *)
Definition readVertex (d : list Byte.byte) (posData posStride : Z) (scale : PxVec3)
    (i : Z) : option PxVec3 :=
  x ← loadFloat d posData (wrap64 (wrap64 (i * posStride) + 0));
  y ← loadFloat d posData (wrap64 (wrap64 (i * posStride) + 1));
  z ← loadFloat d posData (wrap64 (wrap64 (i * posStride) + 2));
  Some (mkVec3 (F32.mul x (vx scale)) (F32.mul y (vy scale))
               (F32.mul z (vz scale))).

(** The [switch] of the index loop: the index read for round [i]. *)
Definition readIndex (d : list Byte.byte) (idxData componentType i : Z) : option Z :=
  if (componentType =? tinygltf.COMPONENT_TYPE_UNSIGNED_SHORT)%Z then
    loadLE 2 d (idxData + 2 * i)
  else if (componentType =? tinygltf.COMPONENT_TYPE_UNSIGNED_INT)%Z then
    loadLE 4 d (idxData + 4 * i)
  else if (componentType =? tinygltf.COMPONENT_TYPE_UNSIGNED_BYTE)%Z then
    loadLE 1 d (idxData + i)
  else Some 0%Z.

(** [AssetLoader::ExtractMeshData]: the two vectors on return, or [None]
    for a fault (an element outside its vector, a read outside the
    buffer).  Multi-byte reads take the least significant byte first. *)
Definition ExtractMeshData (model : tinygltf.Model) (prim : tinygltf.Primitive)
    (scale : PxVec3) (vertices : list PxVec3) (indices : list PxU32)
    : option (list PxVec3 * list PxU32) :=
  (* Extract Positions *)
  match tinygltf.attributes prim !! "POSITION" with
  | None => Some (vertices, indices)
  | Some position =>
    posAccessor ← index (tinygltf.accessors model) position;
    posView ← index (tinygltf.bufferViews model) (tinygltf.bufferView posAccessor);
    posBuffer ← index (tinygltf.buffers model) (tinygltf.buffer posView);
    let posData :=
      wrap64 (tinygltf.viewOffset posView + tinygltf.byteOffset posAccessor) in
    _ ← index (tinygltf.data posBuffer) posData;
    let posStride :=
      if (tinygltf.byteStride posView =? 0)%Z then 3%Z
      else (tinygltf.byteStride posView / 4)%Z in
    newVertices ← mapM (readVertex (tinygltf.data posBuffer) posData posStride scale)
                       (seqZ 0 (tinygltf.count posAccessor));
    let vertices := vertices ++ newVertices in
    let baseVertex :=
      wrap64 (Z.of_nat (length vertices) - tinygltf.count posAccessor) in
    (* Extract Indices *)
    if (0 <=? tinygltf.indices prim)%Z then
      idxAccessor ← index (tinygltf.accessors model) (tinygltf.indices prim);
      idxView ← index (tinygltf.bufferViews model) (tinygltf.bufferView idxAccessor);
      idxBuffer ← index (tinygltf.buffers model) (tinygltf.buffer idxView);
      let idxData :=
        wrap64 (tinygltf.viewOffset idxView + tinygltf.byteOffset idxAccessor) in
      _ ← index (tinygltf.data idxBuffer) idxData;
      newIndices ←
        mapM (fun i =>
                idx ← readIndex (tinygltf.data idxBuffer) idxData
                                (tinygltf.componentType idxAccessor) i;
                Some (wrap32 (wrap64 (baseVertex + idx))))
             (seqZ 0 (tinygltf.count idxAccessor));
      Some (vertices, indices ++ newIndices)
    else
      Some (vertices,
            indices ++ ((fun i => wrap32 (wrap64 (baseVertex + i)))
                          <$> seqZ 0 (tinygltf.count posAccessor)))
  end.

(** What the engine answers inside the two body builders: whether the
    rigid body, a shape and the mesh of primitive [p] of mesh [m] are
    created, and whether cooking that primitive (or, for the convex body,
    the whole point set, asked as [0 0]) succeeds. *)
Record BuilderAnswers : Type := mkBuilderAnswers {
  rigidCreated : bool;
  shapeCreated : nat -> nat -> bool;
  cookSucceeds : nat -> nat -> bool;
  meshCreated : nat -> nat -> bool
}.

(** The triangle mesh description handed to the cooking. *)
Record PxTriangleMeshDesc : Type := mkTriangleMeshDesc {
  points_count : PxU32;
  points_data : list PxVec3;
  triangles_count : PxU32;
  triangles_data : list PxU32
}.

(** A static body: the mesh descriptions of its shapes, in attachment
    order. *)
Definition PxRigidStatic : Type := list PxTriangleMeshDesc.

(** The body of the inner loop of [CreateStaticBody] for primitive [p] of
    mesh [m]: the shapes attached so far are [body]. *)
Definition staticPrimitive (material : bool) (a : BuilderAnswers)
    (model : tinygltf.Model) (scale : PxVec3) (m p : nat)
    (prim : tinygltf.Primitive) (body : PxRigidStatic) : option PxRigidStatic :=
  r ← ExtractMeshData model prim scale [] [];
  let vertices := fst r in
  let indices := snd r in
  if bool_decide (vertices = []) || (length indices <? 3) then Some body
  else
    (* Cook triangle mesh *)
    let meshDesc :=
      mkTriangleMeshDesc (wrap32 (Z.of_nat (length vertices))) vertices
                         (wrap32 (Z.of_nat (length indices) / 3)) indices in
    if negb (cookSucceeds a m p) then Some body
    else if negb (meshCreated a m p) then Some body
    else if negb material || negb (shapeCreated a m p) || negb (rigidCreated a)
    then None
    else Some (body ++ [meshDesc]).

Definition foldM {A S : Type} (f : nat -> A -> S -> option S) (l : list A) (s : S)
    : option S :=
  foldl (fun acc ix => s ← acc; f (fst ix) (snd ix) s) (Some s)
        (imap (fun i x => (i, x)) l).

(** [AssetLoader::CreateStaticBody].  [physics], [scene] and [material]
    tell whether the pointers passed are not null.  [None] is a fault,
    [Some None] the null result. *)
Definition CreateStaticBody (physics scene material : bool) (a : BuilderAnswers)
    (model : tinygltf.Model) (scale : PxVec3) : option (option PxRigidStatic) :=
  if negb physics then None
  else
    body ← foldM (fun m mesh =>
                    foldM (staticPrimitive material a model scale m)
                          (tinygltf.primitives mesh))
                 (tinygltf.meshes model) [];
    if 0 <? length body then
      if negb scene then None else Some (Some body)
    else
      if negb (rigidCreated a) then None else Some None.

(** A dynamic body with one convex shape: the points handed to the
    cooking. *)
Record PxConvexMeshDesc : Type := mkConvexMeshDesc {
  convex_count : PxU32;
  convex_data : list PxVec3
}.

(** [AssetLoader::CreateDynamicConvexBody]. *)
Definition CreateDynamicConvexBody (physics scene material : bool)
    (a : BuilderAnswers) (model : tinygltf.Model) (scale : PxVec3)
    : option (option PxConvexMeshDesc) :=
  (* Collect all vertices from all primitives *)
  r ← foldM (fun m mesh =>
               foldM (fun p prim (r : list PxVec3 * list PxU32) =>
                        ExtractMeshData model prim scale (fst r) (snd r))
                     (tinygltf.primitives mesh))
            (tinygltf.meshes model) ([], []);
  let allVertices := fst r in
  if bool_decide (allVertices = []) then Some None
  else
    (* Cook convex hull *)
    let convexDesc :=
      mkConvexMeshDesc (wrap32 (Z.of_nat (length allVertices))) allVertices in
    if negb physics then None
    else if negb (cookSucceeds a 0 0) then Some None
    else if negb (meshCreated a 0 0) then Some None
    else if negb material || negb (shapeCreated a 0 0) || negb (rigidCreated a)
            || negb scene
    then None
    else Some (Some convexDesc).

(** ** ModelLoader.cpp *)

(** [float x[3]] *)
Definition float3 : Type := float * float * float.

(** [struct Vertex] of Pipeline.h. *)
Module Pipeline.

Record Vertex : Type := mkVertex {
  position : float3;
  normal : float3;
  color : float3
}.

End Pipeline.

(** [static_cast<float>] of a [double]: rounded to nearest, ties to
    even. *)
Definition float_of_double (d : double) : float :=
  match d with
  | S754_finite s m e =>
    binary_normalize F32.prec F32.emax (cond_Zopp s (Z.pos m)) e s
  | _ => d
  end.

(** [static_cast<int>] of a [size_t]. *)
Definition toInt (x : Z) : Z := (x + 2 ^ 31) mod 2 ^ 32 - 2 ^ 31.

(** Three floats from a [float] pointer at stride [stride], for round
    [i]. *)
Definition loadFloat3 (d : list Byte.byte) (p stride i : Z) : option float3 :=
  x ← loadFloat d p (wrap64 (wrap64 (i * stride) + 0));
  y ← loadFloat d p (wrap64 (wrap64 (i * stride) + 1));
  z ← loadFloat d p (wrap64 (wrap64 (i * stride) + 2));
  Some (x, y, z).

(** Where the colours of a primitive come from: [colorData],
    [colorDataU8] with their buffer and stride, or neither. *)
Inductive ColorSource : Type :=
  | ColorFloat (d : list Byte.byte) (colorData colorStride : Z)
  | ColorU8 (d : list Byte.byte) (colorDataU8 colorStride : Z)
  | ColorFallback.

(** The fallback colour: the base colour factor of the material, 0.7
    grey without one. *)
Definition materialColor (model : tinygltf.Model) (prim : tinygltf.Primitive)
    : float3 :=
  let grey := (F32.lit 7 10, F32.lit 7 10, F32.lit 7 10) in
  if (0 <=? tinygltf.material prim)%Z
     && (tinygltf.material prim
         <? toInt (Z.of_nat (length (tinygltf.materials model))))%Z
  then
    match tinygltf.materials model !! Z.to_nat (tinygltf.material prim) with
    | Some mat =>
      match tinygltf.baseColorFactor mat with
      | r :: g :: b :: _ =>
        (float_of_double r, float_of_double g, float_of_double b)
      | _ => grey
      end
    | None => grey
    end
  else grey.

(** One round of the vertex loop. *)
Definition buildVertex (model : tinygltf.Model) (prim : tinygltf.Primitive)
    (d : list Byte.byte) (posData posStride : Z)
    (normals : option (list Byte.byte * Z * Z)) (colors : ColorSource)
    (i : Z) : option Pipeline.Vertex :=
  position ← loadFloat3 d posData posStride i;
  normal ← match normals with
           | Some (nd, normalData, normalStride) =>
             loadFloat3 nd normalData normalStride i
           | None => Some (F32.zero, F32.one, F32.zero)
           end;
  color ← match colors with
          | ColorFloat cd colorData colorStride =>
            loadFloat3 cd colorData colorStride i
          | ColorU8 cd colorDataU8 colorStride =>
            let channel k :=
              b ← loadLE 1 cd (colorDataU8
                               + wrap64 (wrap64 (i * colorStride) + k));
              Some (F32.div (F32.of_Z b) (F32.of_Z 255)) in
            r ← channel 0%Z; g ← channel 1%Z; b ← channel 2%Z; Some (r, g, b)
          | ColorFallback => Some (materialColor model prim)
          end;
  Some (Pipeline.mkVertex position normal color).

(** [ExtractPrimitive] *)
Definition ExtractPrimitive (model : tinygltf.Model) (prim : tinygltf.Primitive)
    (outVertices : list Pipeline.Vertex) (outIndices : list Z)
    : option (list Pipeline.Vertex * list Z) :=
  (* Positions (required) *)
  match tinygltf.attributes prim !! "POSITION" with
  | None => Some (outVertices, outIndices)
  | Some position =>
    posAccessor ← index (tinygltf.accessors model) position;
    posView ← index (tinygltf.bufferViews model) (tinygltf.bufferView posAccessor);
    posBuffer ← index (tinygltf.buffers model) (tinygltf.buffer posView);
    let posData :=
      wrap64 (tinygltf.viewOffset posView + tinygltf.byteOffset posAccessor) in
    _ ← index (tinygltf.data posBuffer) posData;
    let posStride :=
      if (tinygltf.byteStride posView =? 0)%Z then 3%Z
      else (tinygltf.byteStride posView / 4)%Z in
    let vertexCount := tinygltf.count posAccessor in
    (* Normals (optional) *)
    normals ←
      match tinygltf.attributes prim !! "NORMAL" with
      | None => Some None
      | Some n =>
        normAccessor ← index (tinygltf.accessors model) n;
        normView ← index (tinygltf.bufferViews model)
                         (tinygltf.bufferView normAccessor);
        normBuffer ← index (tinygltf.buffers model) (tinygltf.buffer normView);
        let normalData :=
          wrap64 (tinygltf.viewOffset normView
                  + tinygltf.byteOffset normAccessor) in
        _ ← index (tinygltf.data normBuffer) normalData;
        Some (Some (tinygltf.data normBuffer, normalData,
                    if (tinygltf.byteStride normView =? 0)%Z then 3%Z
                    else (tinygltf.byteStride normView / 4)%Z))
      end;
    (* Colors (optional, COLOR_0) *)
    colors ←
      match tinygltf.attributes prim !! "COLOR_0" with
      | None => Some ColorFallback
      | Some c =>
        colAccessor ← index (tinygltf.accessors model) c;
        colView ← index (tinygltf.bufferViews model)
                        (tinygltf.bufferView colAccessor);
        colBuffer ← index (tinygltf.buffers model) (tinygltf.buffer colView);
        let colorComponents :=
          if (tinygltf.type colAccessor =? tinygltf.TYPE_VEC4)%Z
          then 4%Z else 3%Z in
        let start :=
          wrap64 (tinygltf.viewOffset colView
                  + tinygltf.byteOffset colAccessor) in
        if (tinygltf.componentType colAccessor
            =? tinygltf.COMPONENT_TYPE_FLOAT)%Z then
          _ ← index (tinygltf.data colBuffer) start;
          Some (ColorFloat (tinygltf.data colBuffer) start
                  (if (tinygltf.byteStride colView =? 0)%Z then colorComponents
                   else (tinygltf.byteStride colView / 4)%Z))
        else if (tinygltf.componentType colAccessor
                 =? tinygltf.COMPONENT_TYPE_UNSIGNED_BYTE)%Z then
          _ ← index (tinygltf.data colBuffer) start;
          Some (ColorU8 (tinygltf.data colBuffer) start
                  (if (tinygltf.byteStride colView =? 0)%Z then colorComponents
                   else tinygltf.byteStride colView))
        else Some ColorFallback
      end;
    (* Build vertices *)
    newVertices ←
      mapM (buildVertex model prim (tinygltf.data posBuffer) posData posStride
                        normals colors)
           (seqZ 0 vertexCount);
    let outVertices := outVertices ++ newVertices in
    let baseVertex := wrap64 (Z.of_nat (length outVertices) - vertexCount) in
    (* Indices *)
    if (0 <=? tinygltf.indices prim)%Z then
      idxAccessor ← index (tinygltf.accessors model) (tinygltf.indices prim);
      idxView ← index (tinygltf.bufferViews model) (tinygltf.bufferView idxAccessor);
      idxBuffer ← index (tinygltf.buffers model) (tinygltf.buffer idxView);
      let idxData :=
        wrap64 (tinygltf.viewOffset idxView + tinygltf.byteOffset idxAccessor) in
      _ ← index (tinygltf.data idxBuffer) idxData;
      newIndices ←
        mapM (fun i =>
                idx ← readIndex (tinygltf.data idxBuffer) idxData
                                (tinygltf.componentType idxAccessor) i;
                Some (wrap32 (wrap64 (baseVertex + idx))))
             (seqZ 0 (tinygltf.count idxAccessor));
      Some (outVertices, outIndices ++ newIndices)
    else
      (* No indices: generate sequential *)
      Some (outVertices,
            outIndices ++ ((fun i => wrap32 (wrap64 (baseVertex + i)))
                             <$> seqZ 0 vertexCount))
  end.

(** The loop of [LoadModel] over the model read from the file: the vertex
    and index vectors it hands to [CreateMesh], one pair for each
    primitive that yields a vertex and an index.  Reading the file and
    the upload by [CreateMesh] belong to tinygltf and Vulkan. *)
Definition loadedPrimitive (model : tinygltf.Model) (m p : nat)
    (prim : tinygltf.Primitive)
    (result : list (list Pipeline.Vertex * list Z))
    : option (list (list Pipeline.Vertex * list Z)) :=
  r ← ExtractPrimitive model prim [] [];
  if bool_decide (fst r = []) || bool_decide (snd r = []) then Some result
  else Some (result ++ [r]).

Definition LoadModel_meshes (model : tinygltf.Model)
    : option (list (list Pipeline.Vertex * list Z)) :=
  foldM (fun m mesh => foldM (loadedPrimitive model m) (tinygltf.primitives mesh))
        (tinygltf.meshes model) [].

(** The position of a vertex as the vector the physics side holds. *)
Definition positionOf (v : Pipeline.Vertex) : PxVec3 :=
  let '(x, y, z) := Pipeline.position v in mkVec3 x y z.

(** The vertices a primitive contributes: the count of its POSITION
    accessor. *)
Definition positionCount (model : tinygltf.Model) (prim : tinygltf.Primitive) : nat :=
  match tinygltf.attributes prim !! "POSITION" with
  | None => 0
  | Some position =>
    match index (tinygltf.accessors model) position with
    | None => 0
    | Some posAccessor => Z.to_nat (tinygltf.count posAccessor)
    end
  end.

(** The bytes an accessor points into and the offset of its first
    byte. *)
Definition accessorBytes (model : tinygltf.Model) (acc : tinygltf.Accessor)
    : option (list Byte.byte * Z) :=
  view ← index (tinygltf.bufferViews model) (tinygltf.bufferView acc);
  buf ← index (tinygltf.buffers model) (tinygltf.buffer view);
  let off := wrap64 (tinygltf.viewOffset view + tinygltf.byteOffset acc) in
  _ ← index (tinygltf.data buf) off;
  Some (tinygltf.data buf, off).

(** The stride of the position loop, in floats. *)
Definition positionStride (model : tinygltf.Model) (acc : tinygltf.Accessor) : Z :=
  match index (tinygltf.bufferViews model) (tinygltf.bufferView acc) with
  | Some view =>
    if (tinygltf.byteStride view =? 0)%Z then 3%Z
    else (tinygltf.byteStride view / 4)%Z
  | None => 3%Z
  end.

(** The width in bytes of an index of the given component type; 0 for a
    type the loader does not read. *)
Definition indexWidth (componentType : Z) : Z :=
  if (componentType =? tinygltf.COMPONENT_TYPE_UNSIGNED_SHORT)%Z then 2
  else if (componentType =? tinygltf.COMPONENT_TYPE_UNSIGNED_INT)%Z then 4
  else if (componentType =? tinygltf.COMPONENT_TYPE_UNSIGNED_BYTE)%Z then 1
  else 0.

(** A small model: one buffer with the corners (0,0,0), (1,0,0), (0,1,0)
    as nine floats followed by the indices 0, 1, 2 as unsigned shorts; a
    primitive that uses both, one without indices, one without
    positions, and one whose indices are declared with a component type
    the loader does not read. *)
Definition byteOfZ (z : Z) : Byte.byte :=
  default Byte.x00 (Byte.of_N (Z.to_N z)).

Definition triangleBytes : list Byte.byte :=
  byteOfZ <$> [0; 0; 0; 0;  0; 0; 0; 0;  0; 0; 0; 0;
               0; 0; 128; 63;  0; 0; 0; 0;  0; 0; 0; 0;
               0; 0; 0; 0;  0; 0; 128; 63;  0; 0; 0; 0;
               0; 0;  1; 0;  2; 0]%Z.

Definition indexedPrimitive : tinygltf.Primitive :=
  tinygltf.mkPrimitive {[ "POSITION" := 0%Z ]} 1 (-1).
Definition plainPrimitive : tinygltf.Primitive :=
  tinygltf.mkPrimitive {[ "POSITION" := 0%Z ]} (-1) (-1).
Definition emptyPrimitive : tinygltf.Primitive :=
  tinygltf.mkPrimitive {[ "NORMAL" := 0%Z ]} 1 (-1).
Definition oddPrimitive : tinygltf.Primitive :=
  tinygltf.mkPrimitive {[ "POSITION" := 0%Z ]} 2 (-1).

Definition positions (count : Z) : tinygltf.Accessor :=
  tinygltf.mkAccessor 0 0 tinygltf.COMPONENT_TYPE_FLOAT count tinygltf.TYPE_VEC3.
Definition positionAccessor : tinygltf.Accessor := positions 3.
Definition indexAccessor : tinygltf.Accessor :=
  tinygltf.mkAccessor 1 0 tinygltf.COMPONENT_TYPE_UNSIGNED_SHORT 3
                      tinygltf.TYPE_SCALAR.
Definition oddAccessor : tinygltf.Accessor :=
  tinygltf.mkAccessor 1 0 tinygltf.COMPONENT_TYPE_FLOAT 3 tinygltf.TYPE_SCALAR.

Definition triangleModel : tinygltf.Model :=
  tinygltf.mkModel
    [positionAccessor; indexAccessor; oddAccessor]
    [tinygltf.mkBufferView 0 0 0; tinygltf.mkBufferView 0 36 0]
    [tinygltf.mkBuffer triangleBytes]
    [tinygltf.mkMesh [indexedPrimitive; plainPrimitive; emptyPrimitive]]
    [].

(** The same buffer under other accessors. *)
Definition withAccessors (accessors : list tinygltf.Accessor) : tinygltf.Model :=
  tinygltf.mkModel accessors (tinygltf.bufferViews triangleModel)
                   (tinygltf.buffers triangleModel) [] [].

Definition unitScale : PxVec3 := PxVec3_all F32.one.

(** The vertices of all primitives of a model. *)
Definition vertexTotal (model : tinygltf.Model) : nat :=
  sum_list ((fun mesh => sum_list (positionCount model
                                     <$> tinygltf.primitives mesh))
              <$> tinygltf.meshes model).

(** [d] is the mesh description of primitive [p] of mesh [m]: the
    primitive yields at least one vertex and three indices, and the
    engine cooks and creates its mesh. *)
Definition shapeOf (a : BuilderAnswers) (model : tinygltf.Model) (scale : PxVec3)
    (m p : nat) (d : PxTriangleMeshDesc) : Prop :=
  exists mesh prim,
    tinygltf.meshes model !! m = Some mesh
    /\ tinygltf.primitives mesh !! p = Some prim
    /\ ExtractMeshData model prim scale [] []
       = Some (points_data d, triangles_data d)
    /\ points_data d <> []
    /\ 3 <= length (triangles_data d)
    /\ points_count d = wrap32 (Z.of_nat (length (points_data d)))
    /\ triangles_count d = wrap32 (Z.of_nat (length (triangles_data d)) / 3)
    /\ cookSucceeds a m p = true
    /\ meshCreated a m p = true.

(** ** VulkanContext.cpp: the acquire semaphores

    A semaphore is the handle the driver gave it.  [mAcquireSemaphores]
    and [mAcquireSemaphoreIndex] are the only members the index
    arithmetic of [BeginFrame] and [EndFrame] touches. *)

Definition VkSemaphore : Type := nat.

Record AcquireRing : Type := mkAcquireRing {
  mAcquireSemaphores : list VkSemaphore;
  mAcquireSemaphoreIndex : Z
}.

(** The end of [CreateSyncResources]: one semaphore more than swapchain
    images, the index back at 0.  [created i] is the handle
    [vkCreateSemaphore] gives for slot [i]. *)
Definition CreateSyncResources (imageCount : Z) (created : nat -> VkSemaphore)
    : AcquireRing :=
  let acquireCount := wrap32 (imageCount + 1) in
  mkAcquireRing (created <$> seq 0 (Z.to_nat acquireCount)) 0.

(** [BeginFrame] up to the update of the index.  [outOfDate] tells whether
    [vkAcquireNextImageKHR] answered [VK_ERROR_OUT_OF_DATE_KHR], in which
    case the swapchain is made anew, with [recreated] as its ring, and the
    result is false.  The result is the semaphore passed to the acquire
    call, whether the frame goes on, and the ring left; [None] is a
    fault. *)
Definition BeginFrame (outOfDate : bool) (recreated : AcquireRing)
    (r : AcquireRing) : option (VkSemaphore * bool * AcquireRing) :=
  acquireSem ← index (mAcquireSemaphores r) (mAcquireSemaphoreIndex r);
  if outOfDate then Some (acquireSem, false, recreated)
  else
    let size := wrap32 (Z.of_nat (length (mAcquireSemaphores r))) in
    if (size =? 0)%Z then None
    else
      Some (acquireSem, true,
            mkAcquireRing (mAcquireSemaphores r)
                          (wrap32 (mAcquireSemaphoreIndex r + 1) mod size)).

(** [EndFrame]: the semaphore the submission waits on. *)
Definition EndFrame (r : AcquireRing) : option VkSemaphore :=
  let size := wrap32 (Z.of_nat (length (mAcquireSemaphores r))) in
  if (size =? 0)%Z then None
  else
    let usedAcquireIdx :=
      (wrap32 (wrap32 (mAcquireSemaphoreIndex r + size) - 1) mod size)%Z in
    index (mAcquireSemaphores r) usedAcquireIdx.

(** The semaphores that [n] frames in a row acquire with, none of them
    out of date. *)
Fixpoint acquired (n : nat) (r : AcquireRing) : option (list VkSemaphore) :=
  match n with
  | O => Some []
  | S n' =>
    b ← BeginFrame false r r;
    rest ← acquired n' (snd b);
    Some (fst (fst b) :: rest)
  end.

(** The index points into a ring of at most 2^31 semaphores. *)
Definition ringOk (r : AcquireRing) : Prop :=
  (0 <= mAcquireSemaphoreIndex r < Z.of_nat (length (mAcquireSemaphores r)))%Z
  /\ (Z.of_nat (length (mAcquireSemaphores r)) <= 2 ^ 31)%Z.

(** ** Mesh.cpp: buffers on the device

    The allocator and device as far as the mesh functions use them: the
    buffers and command pools that exist, by handle, and the handle the
    next created object receives. *)

Record Device : Type := mkDevice {
  liveBuffers : gset nat;
  livePools : gset nat;
  nextHandle : nat
}.

(** [struct Mesh]: a handle is [None] for [VK_NULL_HANDLE]; a buffer
    handle stands for the buffer together with its allocation. *)
Record Mesh : Type := mkMesh {
  vertexBuffer : option nat;
  indexBuffer : option nat;
  indexCount : Z
}.

(** What the driver answers to the four checked calls of one upload:
    the staging buffer, the GPU buffer, the command pool and the command
    buffer.  A call that fails makes [VK_CHECK] throw. *)
Record UploadAnswers : Type := mkUploadAnswers {
  stagingCreated : bool;
  gpuCreated : bool;
  poolCreated : bool;
  commandAllocated : bool
}.

Definition newBuffer (d : Device) : nat * Device :=
  (nextHandle d,
   mkDevice ({[nextHandle d]} ∪ liveBuffers d) (livePools d) (S (nextHandle d))).

Definition newPool (d : Device) : nat * Device :=
  (nextHandle d,
   mkDevice (liveBuffers d) ({[nextHandle d]} ∪ livePools d) (S (nextHandle d))).

(** [vmaDestroyBuffer]; a handle of a buffer that no longer exists is a
    fault. *)
Definition destroyBuffer (h : nat) (d : Device) : option Device :=
  if bool_decide (h ∈ liveBuffers d)
  then Some (mkDevice (liveBuffers d ∖ {[h]}) (livePools d) (nextHandle d))
  else None.

Definition destroyPool (h : nat) (d : Device) : Device :=
  mkDevice (liveBuffers d) (livePools d ∖ {[h]}) (nextHandle d).

(** [CreateBufferWithStaging]: the buffer returned, or [None] when a
    checked call failed and the function was left by the exception; and
    the device as it is then. *)
Definition CreateBufferWithStaging (a : UploadAnswers) (d : Device)
    : option nat * Device :=
  if negb (stagingCreated a) then (None, d)
  else
    let '(stagingBuffer, d) := newBuffer d in
    if negb (gpuCreated a) then (None, d)
    else
      let '(outBuffer, d) := newBuffer d in
      if negb (poolCreated a) then (None, d)
      else
        let '(cmdPool, d) := newPool d in
        if negb (commandAllocated a) then (None, d)
        else
          let d := destroyPool cmdPool d in
          let d := mkDevice (liveBuffers d ∖ {[stagingBuffer]}) (livePools d)
                            (nextHandle d) in
          (Some outBuffer, d).

(** [CreateMesh] for an index vector of the given size. *)
Definition CreateMesh (vertexUpload indexUpload : UploadAnswers)
    (indices : list Z) (d : Device) : option Mesh * Device :=
  let indexCount := wrap32 (Z.of_nat (length indices)) in
  match CreateBufferWithStaging vertexUpload d with
  | (None, d) => (None, d)
  | (Some vertexBuffer, d) =>
    match CreateBufferWithStaging indexUpload d with
    | (None, d) => (None, d)
    | (Some indexBuffer, d) =>
      (Some (mkMesh (Some vertexBuffer) (Some indexBuffer) indexCount), d)
    end
  end.

(** [DestroyMesh] *)
Definition DestroyMesh (mesh : Mesh) (d : Device) : option (Mesh * Device) :=
  d ← match vertexBuffer mesh with
      | Some h => destroyBuffer h d
      | None => Some d
      end;
  d ← match indexBuffer mesh with
      | Some h => destroyBuffer h d
      | None => Some d
      end;
  Some (mkMesh None None 0, d).

(** [DestroyModel] *)
Fixpoint DestroyModel (meshes : list Mesh) (d : Device) : option Device :=
  match meshes with
  | [] => Some d
  | mesh :: rest => r ← DestroyMesh mesh d; DestroyModel rest (snd r)
  end.

(** Every handle in use is below the next one. *)
Definition deviceOk (d : Device) : Prop :=
  forall h, h ∈ liveBuffers d ∪ livePools d -> h < nextHandle d.

Definition allUploaded : UploadAnswers := mkUploadAnswers true true true true.

(** What a session never writes on a wheel joint: its two frames and
    whether it is motorised. *)
Definition jointGeometry (j : PxRevoluteJoint) : PxTransform * PxTransform * bool :=
  (localFrame0 j, localFrame1 j, driveEnabled j).

(** The chassis frame of the joint of wheel [i] of side [side]. *)
Definition wheelFrame (side i : Z) : PxTransform :=
  PxTransform_at
    (mkVec3 (F32.mul (F32.of_Z side) (F32.div ROBOT_WIDTH (F32.of_Z 2)))
            (F32.opp (F32.lit 20 100))
            (F32.add (F32.div (F32.opp ROBOT_LENGTH) (F32.of_Z 2))
                     (F32.mul (F32.of_Z i) (F32.div ROBOT_LENGTH (F32.of_Z 3))))).

(** ** Vocabulary of the bound on the physics loop *)

(** A value a C++ [float] can hold, other than NaN.  [spec_float] also has
    finite elements whose significand is out of its place; they stand for
    no binary32 value, and the comparisons are only right on the placed
    form. *)
Definition binary32 (x : float) : Prop :=
  valid_binary F32.prec F32.emax x = true /\ F32.is_nan x = false.

(** The value of a positive float of exponent at least -29 in units of
    2^-29, the unit in the last place of the timestep. *)
Definition ticks (m : positive) (e : Z) : Z := (Z.pos m * 2 ^ (e + 29))%Z.

(** A positive float of at most [B] such units. *)
Definition inRange (B : Z) (s : float) : Prop :=
  exists m e,
    s = S754_finite false m e
    /\ bounded F32.prec F32.emax m e = true
    /\ (-29 <= e)%Z /\ (ticks m e <= B)%Z.

(** What an accumulator may hold, in such units, for the loop to be over
    within [j] rounds: one timestep is 8947849 units, and a subtraction
    rounds up by at most 4. *)
Definition budget (j : nat) : Z :=
  Z.min 67108864 (8947848 + Z.of_nat j * 8947845).

(** * Properties *)

(** ** Order facts of binary32 comparison *)

Lemma SFcompare_finite_pos m1 e1 m2 e2 :
  SFcompare (S754_finite false m1 e1) (S754_finite false m2 e2) =
  Some match Z.compare e1 e2 with
       | Lt => Lt | Gt => Gt | Eq => Pos.compare m1 m2
       end.
Proof. reflexivity. Qed.

Lemma SFcompare_finite_neg m1 e1 m2 e2 :
  SFcompare (S754_finite true m1 e1) (S754_finite true m2 e2) =
  Some match Z.compare e1 e2 with
       | Lt => Gt | Gt => Lt | Eq => CompOpp (Pos.compare m1 m2)
       end.
Proof. reflexivity. Qed.

Ltac order_cases :=
  repeat match goal with
  | |- context [Z.compare ?a ?b] =>
      destruct (Z.compare_spec a b); try lia; subst
  | |- context [Pos.compare ?a ?b] =>
      destruct (Pos.compare_spec a b); try lia; subst
  | H : context [Z.compare ?a ?b] |- _ =>
      destruct (Z.compare_spec a b); try lia; subst
  | H : context [Pos.compare ?a ?b] |- _ =>
      destruct (Pos.compare_spec a b); try lia; subst
  end; simpl in *; try congruence; try lia.

Lemma ltb_trans (a b c : float) :
  F32.ltb a b = true -> F32.ltb b c = true -> F32.ltb a c = true.
Proof.
  unfold F32.ltb, SFltb.
  destruct a as [sa|sa| |sa ma ea], b as [sb|sb| |sb mb eb],
           c as [sc|sc| |sc mc ec];
    try (destruct sa); try (destruct sb); try (destruct sc);
    try (simpl; congruence);
    rewrite ?SFcompare_finite_pos, ?SFcompare_finite_neg;
    intros H1 H2; order_cases.
Qed.

Lemma ltb_irrefl (a : float) : F32.ltb a a = false.
Proof.
  unfold F32.ltb, SFltb.
  destruct a as [s|s| |s m e]; try destruct s; try reflexivity;
    rewrite ?SFcompare_finite_pos, ?SFcompare_finite_neg; order_cases.
Qed.

Lemma ltb_leb (a b : float) : F32.ltb a b = true -> F32.leb a b = true.
Proof.
  unfold F32.ltb, F32.leb, SFltb, SFleb.
  destruct (SFcompare a b) as [[ | | ]|]; congruence.
Qed.

(** Among comparable floats, "not greater" is "less or equal". *)
Lemma not_gt_leb (a b : float) :
  F32.is_nan a = false -> F32.is_nan b = false ->
  F32.ltb b a = false -> F32.leb a b = true.
Proof.
  unfold F32.ltb, F32.leb, SFltb, SFleb.
  destruct a as [sa|sa| |sa ma ea], b as [sb|sb| |sb mb eb];
    try (destruct sa); try (destruct sb); try (simpl; congruence);
    rewrite ?SFcompare_finite_pos, ?SFcompare_finite_neg;
    intros _ _ H; order_cases.
Qed.

(** Among numbers, "not at most" is "above". *)
Lemma not_leb_ltb (a b : float) :
  F32.is_nan a = false -> F32.is_nan b = false ->
  F32.leb a b = false -> F32.ltb b a = true.
Proof.
  unfold F32.ltb, F32.leb, SFltb, SFleb.
  destruct a as [sa|sa| |sa ma ea], b as [sb|sb| |sb mb eb];
    try (destruct sa); try (destruct sb); try (simpl; congruence);
    rewrite ?SFcompare_finite_pos, ?SFcompare_finite_neg;
    intros _ _ H; order_cases.
Qed.

Lemma ltb_not_nan (a b : float) :
  F32.ltb a b = true -> F32.is_nan a = false /\ F32.is_nan b = false.
Proof.
  unfold F32.ltb, SFltb.
  destruct a as [sa|sa| |sa ma ea], b as [sb|sb| |sb mb eb];
    simpl; try discriminate; auto.
Qed.

(** ** The collision filter *)

Section FilterShaderFacts.

Variable Attr : Type.
Variable isTrigger : Attr -> bool.
Variables TRIGGER_DEFAULT CONTACT_DEFAULT NOTIFY_TOUCH_FOUND : Z.

Local Abbreviation shader :=
  (VehicleFilterShader Attr isTrigger TRIGGER_DEFAULT CONTACT_DEFAULT
                       NOTIFY_TOUCH_FOUND).

(** C5. For two shapes neither of which is a trigger, the shader answers
    with contact generation and touch notification exactly when each
    shape's category meets the other's mask, and suppresses the pair
    (leaving the pair flags as they were) otherwise; when either object
    is a trigger the pair passes with the trigger default flags whatever
    the filter data. *)
Theorem VehicleFilterShader_rule
    (a0 a1 : Attr) (fd0 fd1 : PxFilterData) (pairFlags : Z) :
  (isTrigger a0 = false /\ isTrigger a1 = false ->
     (shader a0 fd0 a1 fd1 pairFlags
        = (eDEFAULT, Z.lor CONTACT_DEFAULT NOTIFY_TOUCH_FOUND)
      <-> Z.land (word0 fd0) (word1 fd1) <> 0%Z
          /\ Z.land (word0 fd1) (word1 fd0) <> 0%Z)
     /\ (~ (Z.land (word0 fd0) (word1 fd1) <> 0%Z
            /\ Z.land (word0 fd1) (word1 fd0) <> 0%Z) ->
         shader a0 fd0 a1 fd1 pairFlags = (eSUPPRESS, pairFlags)))
  /\ (isTrigger a0 = true \/ isTrigger a1 = true ->
      shader a0 fd0 a1 fd1 pairFlags = (eDEFAULT, TRIGGER_DEFAULT)).
Proof.
  unfold VehicleFilterShader, truthy. split.
  - intros [-> ->]. simpl.
    destruct (Z.eqb_spec (Z.land (word0 fd0) (word1 fd1)) 0) as [E0|E0];
      destruct (Z.eqb_spec (Z.land (word0 fd1) (word1 fd0)) 0) as [E1|E1];
      simpl; (split; [split; [intros H; try discriminate H; tauto | tauto]
                     | intros H; tauto]).
  - intros [-> | ->]; [reflexivity |].
    rewrite orb_true_r. reflexivity.
Qed.

End FilterShaderFacts.

Lemma Initialize_filter_rows (startPos : PxVec3) :
  (shapes <$> mChassis (Initialize true startPos Robot_new))
  = Some [chassisFilterData]
  /\ (shapes <$> mWheels (Initialize true startPos Robot_new))
     = replicate 8 [wheelFilterData].
Proof. split; reflexivity. Qed.

(** A wheel against the chassis is suppressed, a block against a wheel
    collides, a held block (all-zero data) against the chassis is
    suppressed; with one of the two a trigger the pair always passes. *)
Lemma VehicleFilterShader_rule_witness :
  let shader isTrigger :=
    VehicleFilterShader bool isTrigger 1%Z 2%Z 4%Z in
  shader (fun _ => false) false wheelFilterData false chassisFilterData 0%Z
  = (eSUPPRESS, 0%Z)
  /\ shader (fun _ => false) false blockFilterData false wheelFilterData 0%Z
     = (eDEFAULT, Z.lor 2 4)
  /\ shader (fun _ => false) false zeroFilterData false chassisFilterData 0%Z
     = (eSUPPRESS, 0%Z)
  /\ shader (fun a => a) true zeroFilterData false chassisFilterData 0%Z
     = (eDEFAULT, 1%Z).
Proof.
  pose proof (VehicleFilterShader_rule bool (fun _ => false) 1%Z 2%Z 4%Z) as R.
  pose proof (VehicleFilterShader_rule bool (fun a => a) 1%Z 2%Z 4%Z) as T.
  cbv zeta. split; [| split; [| split]].
  - apply (R false false wheelFilterData chassisFilterData 0%Z);
      [split; reflexivity |]. vm_compute. intros [H _]. by apply H.
  - apply (R false false blockFilterData wheelFilterData 0%Z);
      [split; reflexivity |]. split; vm_compute; discriminate.
  - apply (R false false zeroFilterData chassisFilterData 0%Z);
      [split; reflexivity |]. vm_compute. intros [H _]. by apply H.
  - apply (T true false zeroFilterData chassisFilterData 0%Z). by left.
Defined.

(** ** Drive *)

Lemma clampInput_range (x : float) :
  F32.leb (F32.opp F32.one) (clampInput x) = true
  /\ F32.leb (clampInput x) F32.one = true.
Proof.
  unfold clampInput, F32.max, F32.min.
  destruct (F32.ltb x F32.one) eqn:Hhi.
  - destruct (F32.ltb (F32.opp F32.one) x) eqn:Hlo.
    + split; apply ltb_leb; assumption.
    + split; reflexivity.
  - change (F32.ltb (F32.opp F32.one) F32.one) with true.
    split; reflexivity.
Qed.

Lemma clampInput_inside (x : float) :
  F32.ltb (F32.opp F32.one) x = true -> F32.ltb x F32.one = true ->
  clampInput x = x.
Proof.
  intros Hlo Hhi. unfold clampInput, F32.max, F32.min.
  rewrite Hhi, Hlo. reflexivity.
Qed.

Lemma clampInput_above (x : float) :
  F32.ltb F32.one x = true -> clampInput x = F32.one.
Proof.
  intros H. unfold clampInput, F32.max, F32.min.
  destruct (F32.ltb x F32.one) eqn:E.
  - pose proof (ltb_trans _ _ _ H E) as F. by rewrite ltb_irrefl in F.
  - reflexivity.
Qed.

Lemma clampInput_below (x : float) :
  F32.ltb x (F32.opp F32.one) = true -> clampInput x = F32.opp F32.one.
Proof.
  intros H. unfold clampInput, F32.max, F32.min.
  assert (Hone : F32.ltb (F32.opp F32.one) F32.one = true) by reflexivity.
  rewrite (ltb_trans _ _ _ H Hone).
  destruct (F32.ltb (F32.opp F32.one) x) eqn:E; [| reflexivity].
  pose proof (ltb_trans _ _ _ H E) as F. by rewrite ltb_irrefl in F.
Qed.

Lemma Update_joints (dt : float) (r : Robot) (chassis : PxRigidDynamic) :
  mChassis r = Some chassis ->
  mWheelJoints (Update dt r) =
  imap (fun i j =>
          setDriveForceLimit DRIVE_TORQUE
            (setDriveVelocity
               (F32.mul (if i <? 4 then clampInput (mThrottleInput r)
                         else clampInput (mTurnInput r)) maxVelocity) j))
       (mWheelJoints r).
Proof. intros H. unfold Update. rewrite H. reflexivity. Qed.

Lemma Initialize_wheel_count (startPos : PxVec3) :
  length (mWheelJoints (Initialize true startPos Robot_new)) = 8
  /\ length (mWheels (Initialize true startPos Robot_new)) = 8.
Proof. split; reflexivity. Qed.

(** The joints 0 to 3 sit on side -1 of the chassis, the joints 4 to 7 on
    side +1. *)
Lemma Initialize_wheel_sides (startPos : PxVec3) :
  (fun j => vx (t_p (localFrame0 j)))
    <$> mWheelJoints (Initialize true startPos Robot_new)
  = replicate 4 (F32.opp (F32.div ROBOT_WIDTH (F32.of_Z 2)))
    ++ replicate 4 (F32.div ROBOT_WIDTH (F32.of_Z 2)).
Proof. vm_compute. reflexivity. Qed.

(** C7. The drive inputs (2, -2) and (1, -1) leave the wheel joints, after
    [Update], with the same commands: an
    input outside [-1, 1] is stored as given and clamped by [Update] to 1
    or to -1, the clamp always landing in [-1, 1]; every joint of index
    below 4 (the side [Update] drives from the left input) of a robot with
    a chassis receives the clamped left input times 20 as drive velocity,
    every other joint the clamped right input times 20, and each receives
    the drive force limit [DRIVE_TORQUE] again. *)
Theorem drive_input_clamped (dt : float) (r : Robot) :
  mWheelJoints (Update dt (SetDriveInput (F32.of_Z 2) (F32.of_Z (-2)) r))
  = mWheelJoints (Update dt (SetDriveInput (F32.of_Z 1) (F32.of_Z (-1)) r))
  /\ (forall left right : float,
        mThrottleInput (SetDriveInput left right r) = left
        /\ mTurnInput (SetDriveInput left right r) = right
        /\ F32.leb (F32.opp F32.one) (clampInput left) = true
        /\ F32.leb (clampInput left) F32.one = true
        /\ F32.leb (F32.opp F32.one) (clampInput right) = true
        /\ F32.leb (clampInput right) F32.one = true)
  /\ (forall x : float,
        (F32.ltb F32.one x = true -> clampInput x = F32.one)
        /\ (F32.ltb x (F32.opp F32.one) = true -> clampInput x = F32.opp F32.one)
        /\ (F32.ltb (F32.opp F32.one) x = true -> F32.ltb x F32.one = true ->
            clampInput x = x))
  /\ (forall (chassis : PxRigidDynamic) (left right : float)
             (i : nat) (j : PxRevoluteJoint),
        mChassis r = Some chassis ->
        mWheelJoints r !! i = Some j ->
        exists j',
          mWheelJoints (Update dt (SetDriveInput left right r)) !! i = Some j'
          /\ driveVelocity j' =
             F32.mul (if i <? 4 then clampInput left else clampInput right)
                     (F32.of_Z 20)
          /\ driveForceLimit j' = DRIVE_TORQUE
          /\ driveEnabled j' = driveEnabled j)
  /\ length (mWheelJoints (Update dt r)) = length (mWheelJoints r).
Proof.
  split; [| repeat split].
  - unfold Update, SetDriveInput. simpl.
    destruct (mChassis r); reflexivity.
  - apply clampInput_range.
  - apply clampInput_range.
  - apply clampInput_range.
  - apply clampInput_range.
  - apply clampInput_above.
  - apply clampInput_below.
  - apply clampInput_inside.
  - intros chassis left right i j Hc Hj.
    rewrite (Update_joints _ _ chassis) by exact Hc.
    rewrite list_lookup_imap. simpl. rewrite Hj. simpl.
    eexists. split; [reflexivity |]. simpl. auto.
  - unfold Update. destruct (mChassis r); [apply length_imap | reflexivity].
Qed.

Lemma drive_input_clamped_witness :
  (exists chassis, mChassis (robot mainStart) = Some chassis)
  /\ (driveVelocity <$> mWheelJoints
        (Update physicsTimestep
           (SetDriveInput (F32.of_Z 2) (F32.of_Z (-2)) (robot mainStart))))
     = (driveVelocity <$> mWheelJoints
        (Update physicsTimestep
           (SetDriveInput (F32.of_Z 1) (F32.of_Z (-1)) (robot mainStart))))
  /\ (driveVelocity <$> mWheelJoints
        (Update physicsTimestep
           (SetDriveInput (F32.of_Z 2) (F32.of_Z (-2)) (robot mainStart))))
     = replicate 4 (F32.of_Z 20) ++ replicate 4 (F32.of_Z (-20)).
Proof.
  destruct (drive_input_clamped physicsTimestep (robot mainStart))
    as (Heq & _).
  split; [by eexists |]. split.
  - rewrite Heq. reflexivity.
  - vm_compute. reflexivity.
Defined.

(** ** Intake and outtake, case by case *)

Lemma TryIntake_ready (created : bool) i blk chassis b w :
  intakeReady i blk chassis b w ->
  TryIntake created i w =
  if created then (true, attachedWorld i blk chassis b w)
  else (false, abortedWorld i blk chassis b w).
Proof.
  intros (Hb & Hc & Hh & Hbody & Hfull & Hd).
  unfold TryIntake. rewrite Hb, Hc, Hh, Hbody, Hfull, Hd.
  destruct created; simpl.
  - unfold attachedWorld, set_block, set_robot. simpl.
    rewrite list_insert_insert_eq. reflexivity.
  - unfold abortedWorld, set_block, set_body. rewrite Hh. reflexivity.
Qed.

Lemma TryIntake_cases (created : bool) i w :
  TryIntake created i w = (false, w)
  \/ exists blk chassis b, intakeReady i blk chassis b w.
Proof.
  unfold TryIntake, intakeReady.
  destruct (blocks w !! i) as [blk|] eqn:Hb; [| by left].
  destruct (mChassis (robot w)) as [chassis|] eqn:Hc; [| by left].
  destruct (held blk) eqn:Hh; [by left |].
  destruct (body blk) as [b|] eqn:Hbody; [| by left].
  destruct (IsIntakeFull (robot w)) eqn:Hfull; [by left |].
  destruct (F32.ltb INTAKE_RANGE (frontDistance (robot w) b)) eqn:Hd; [by left |].
  right. exists blk, chassis, b. rewrite Hh. auto 10.
Qed.

Lemma TryIntake_true (created : bool) i w w' :
  TryIntake created i w = (true, w') ->
  created = true
  /\ exists blk chassis b,
       intakeReady i blk chassis b w /\ w' = attachedWorld i blk chassis b w.
Proof.
  intros H. destruct (TryIntake_cases created i w) as [E | (blk & chassis & b & R)].
  - congruence.
  - rewrite (TryIntake_ready created _ _ _ _ _ R) in H.
    destruct created; [| discriminate].
    split; [reflexivity |]. exists blk, chassis, b. split; [assumption | congruence].
Qed.

Lemma Outtake_empty w : mHeldBlocks (robot w) = [] -> Outtake w = Some w.
Proof. intros H. unfold Outtake. rewrite H. reflexivity. Qed.

Lemma Outtake_eject w hb blk chassis b :
  last (mHeldBlocks (robot w)) = Some hb ->
  blocks w !! block hb = Some blk -> body blk = Some b ->
  mChassis (robot w) = Some chassis ->
  Outtake w = Some (ejectedWorld hb blk chassis b w).
Proof.
  intros Hl Hb Hbody Hc. unfold Outtake. rewrite Hl. simpl.
  rewrite Hb, Hbody.
  destruct (joint hb) as [j|] eqn:Hj; simpl; rewrite Hc;
    unfold ejectedWorld; rewrite Hj; reflexivity.
Qed.

(** ** The session invariant *)

Lemma refs_app i l hb :
  refs i (l ++ [hb]) = refs i l + (if decide (block hb = i) then 1 else 0).
Proof.
  unfold refs. rewrite filter_app, length_app. f_equal.
  rewrite filter_cons, filter_nil. destruct (decide (block hb = i)); reflexivity.
Qed.

Lemma refs_out_of_range i l :
  (forall hb, hb ∈ l -> block hb ≠ i) -> refs i l = 0.
Proof.
  unfold refs. induction l as [|hb l IH]; intros H; [reflexivity |].
  rewrite filter_cons. destruct (decide (block hb = i)) as [E|E].
  - exfalso. apply (H hb); [apply list_elem_of_here | exact E].
  - apply IH. intros hb' Hin. apply H. by apply list_elem_of_further.
Qed.

Lemma held_split (l : list HeldBlock) hb :
  last l = Some hb -> l = removelast l ++ [hb].
Proof.
  intros H. apply last_Some in H as [l' ->].
  rewrite removelast_last. reflexivity.
Qed.

Lemma Update_mHeldBlocks dt r : mHeldBlocks (Update dt r) = mHeldBlocks r.
Proof. unfold Update. by destruct (mChassis r). Qed.

Lemma Update_mChassis dt r : mChassis (Update dt r) = mChassis r.
Proof. unfold Update. destruct (mChassis r) eqn:E; simpl; congruence. Qed.

Lemma Initialize_mHeldBlocks ok pos r :
  mHeldBlocks (Initialize ok pos r) = mHeldBlocks r.
Proof. by destruct ok. Qed.

Lemma setFirstShapeFilter_single fd b s :
  shapes b = [s] -> shapes (setFirstShapeFilter fd b) = [fd].
Proof. intros H. unfold setFirstShapeFilter. by rewrite H. Qed.

Lemma heldBody_shapes chassis b s :
  shapes b = [s] -> shapes (heldBody chassis b) = [zeroFilterData].
Proof. intros H. unfold heldBody. by apply (setFirstShapeFilter_single _ _ s). Qed.

Lemma ejectedBody_shapes chassis b s :
  shapes b = [s] -> shapes (ejectedBody chassis b) = [blockFilterData].
Proof.
  intros H. unfold ejectedBody.
  change (shapes (setLinearVelocity ?v ?x)) with (shapes x).
  by apply (setFirstShapeFilter_single _ _ s).
Qed.

Lemma WorldInv_start ok pos : WorldInv (startWorld ok pos).
Proof.
  split; simpl.
  - intros i g H. by rewrite lookup_nil in H.
  - intros hb. rewrite Initialize_mHeldBlocks. simpl. by rewrite elem_of_nil.
  - intros i g H. by rewrite lookup_nil in H.
  - intros _. by rewrite Initialize_mHeldBlocks.
  - rewrite Initialize_mHeldBlocks. simpl. unfold MAX_HELD_BLOCKS. lia.
Qed.

Lemma WorldInv_same_blocks w w' :
  WorldInv w ->
  blocks w' = blocks w ->
  mHeldBlocks (robot w') = mHeldBlocks (robot w) ->
  mChassis (robot w') = mChassis (robot w) ->
  WorldInv w'.
Proof.
  intros [H1 H2 H3 H4 H5] Hb Hh Hc.
  split; unfold references in *; rewrite ?Hb, ?Hh, ?Hc; auto.
Qed.

Lemma WorldInv_spawn w c pos g :
  WorldInv w -> SpawnBlock spawnOk c pos = Some g ->
  WorldInv (mkWorld (robot w) (blocks w ++ [g]) (fixedJoints w) (nextJoint w)).
Proof.
  intros [H1 H2 H3 H4 H5] Hg. injection Hg as <-.
  split; unfold references in *; simpl; auto.
  - intros i g Hi. apply lookup_app_Some in Hi as [Hi | [Hlen Hi]]; [by apply H1 |].
    apply list_lookup_singleton_Some in Hi as [Hi <-]. simpl.
    apply refs_out_of_range. intros hb Hin. specialize (H2 hb Hin). lia.
  - intros hb Hin. rewrite length_app. specialize (H2 hb Hin). lia.
  - intros i g Hi. apply lookup_app_Some in Hi as [Hi | [Hlen Hi]]; [by eapply H3 |].
    apply list_lookup_singleton_Some in Hi as [Hi <-]. simpl.
    eexists. split; [reflexivity |]. right. split; reflexivity.
Qed.

Lemma WorldInv_attached w i blk chassis b :
  WorldInv w -> intakeReady i blk chassis b w ->
  WorldInv (attachedWorld i blk chassis b w).
Proof.
  intros [H1 H2 H3 H4 H5] (Hb & Hc & Hh & Hbody & Hfull & Hd).
  pose proof (lookup_lt_Some _ _ _ Hb) as Hlt.
  split; unfold references in *; simpl.
  - intros j g Hj. rewrite refs_app. simpl.
    destruct (decide (i = j)) as [<-|Hne].
    + rewrite list_lookup_insert_eq in Hj by exact Hlt. injection Hj as <-. simpl.
      rewrite (H1 _ _ Hb), Hh. reflexivity.
    + rewrite list_lookup_insert_ne in Hj by exact Hne.
      rewrite (H1 _ _ Hj). lia.
  - intros hb Hin. rewrite length_insert.
    apply elem_of_app in Hin as [Hin | Hin]; [by apply H2 |].
    apply list_elem_of_singleton in Hin as ->. exact Hlt.
  - intros j g Hj. destruct (decide (i = j)) as [<-|Hne].
    + rewrite list_lookup_insert_eq in Hj by exact Hlt. injection Hj as <-. simpl.
      destruct (H3 _ _ Hb) as (b0 & Hb0 & Hs). rewrite Hbody in Hb0. injection Hb0 as <-.
      eexists. split; [reflexivity |]. left.
      destruct Hs as [Hs | [_ Hs]]; eapply heldBody_shapes; exact Hs.
    + rewrite list_lookup_insert_ne in Hj by exact Hne. by eapply H3.
  - rewrite Hc. discriminate.
  - rewrite length_app. simpl. unfold IsIntakeFull in Hfull.
    apply Nat.leb_gt in Hfull. lia.
Qed.

Lemma WorldInv_aborted w i blk chassis b :
  WorldInv w -> intakeReady i blk chassis b w ->
  WorldInv (abortedWorld i blk chassis b w).
Proof.
  intros [H1 H2 H3 H4 H5] (Hb & Hc & Hh & Hbody & Hfull & Hd).
  pose proof (lookup_lt_Some _ _ _ Hb) as Hlt.
  split; unfold references in *; simpl; auto.
  - intros j g Hj. destruct (decide (i = j)) as [<-|Hne].
    + rewrite list_lookup_insert_eq in Hj by exact Hlt. injection Hj as <-. simpl.
      rewrite (H1 _ _ Hb), Hh. reflexivity.
    + rewrite list_lookup_insert_ne in Hj by exact Hne. by apply H1.
  - intros hb Hin. rewrite length_insert. by apply H2.
  - intros j g Hj. destruct (decide (i = j)) as [<-|Hne].
    + rewrite list_lookup_insert_eq in Hj by exact Hlt. injection Hj as <-. simpl.
      destruct (H3 _ _ Hb) as (b0 & Hb0 & Hs). rewrite Hbody in Hb0. injection Hb0 as <-.
      eexists. split; [reflexivity |]. left.
      destruct Hs as [Hs | [_ Hs]]; eapply heldBody_shapes; exact Hs.
    + rewrite list_lookup_insert_ne in Hj by exact Hne. by eapply H3.
Qed.

Lemma WorldInv_TryIntake created i w :
  WorldInv w -> WorldInv (snd (TryIntake created i w)).
Proof.
  intros Hinv.
  destruct (TryIntake_cases created i w) as [E | (blk & chassis & b & R)].
  - by rewrite E.
  - rewrite (TryIntake_ready created _ _ _ _ _ R).
    destruct created; simpl.
    + by apply WorldInv_attached.
    + by apply WorldInv_aborted.
Qed.

(** With records present, the last one points at a held block that has a
    body, and the chassis exists: [Outtake] ejects. *)
Lemma held_last_ready w hb :
  WorldInv w -> last (mHeldBlocks (robot w)) = Some hb ->
  exists blk chassis b,
    blocks w !! block hb = Some blk /\ held blk = true /\ body blk = Some b
    /\ mChassis (robot w) = Some chassis
    /\ refs (block hb) (removelast (mHeldBlocks (robot w))) = 0
    /\ (shapes b = [zeroFilterData]).
Proof.
  intros [H1 H2 H3 H4 H5] Hl.
  pose proof (held_split _ _ Hl) as Hsplit.
  assert (Hin : hb ∈ mHeldBlocks (robot w)).
  { rewrite Hsplit. apply elem_of_app. right. apply list_elem_of_singleton. reflexivity. }
  destruct (lookup_lt_is_Some_2 _ _ (H2 _ Hin)) as [blk Hb].
  pose proof (H1 _ _ Hb) as Hr. unfold references in Hr.
  rewrite Hsplit, refs_app in Hr.
  destruct (decide (block hb = block hb)) as [_|]; [| congruence].
  destruct (held blk) eqn:Hh; [| lia].
  destruct (H3 _ _ Hb) as (b & Hbody & Hs).
  destruct (mChassis (robot w)) as [chassis|] eqn:Hc.
  - exists blk, chassis, b. repeat split; auto; try lia.
    destruct Hs as [Hs | [Hs _]]; [exact Hs | congruence].
  - rewrite (H4 eq_refl) in Hl. discriminate.
Qed.

Lemma WorldInv_ejected w hb blk chassis b :
  WorldInv w -> last (mHeldBlocks (robot w)) = Some hb ->
  blocks w !! block hb = Some blk -> body blk = Some b ->
  mChassis (robot w) = Some chassis ->
  WorldInv (ejectedWorld hb blk chassis b w).
Proof.
  intros Hinv Hl Hb Hbody Hc.
  destruct (held_last_ready w hb Hinv Hl)
    as (blk' & chassis' & b' & Hb' & Hh & Hbody' & Hc' & Hr & Hs).
  rewrite Hb in Hb'. injection Hb' as <-.
  rewrite Hbody in Hbody'. injection Hbody' as <-.
  destruct Hinv as [H1 H2 H3 H4 H5].
  pose proof (held_split _ _ Hl) as Hsplit.
  pose proof (lookup_lt_Some _ _ _ Hb) as Hlt.
  split; unfold references in *; simpl.
  - intros j g Hj. destruct (decide (block hb = j)) as [<-|Hne].
    + rewrite list_lookup_insert_eq in Hj by exact Hlt. injection Hj as <-. simpl.
      exact Hr.
    + rewrite list_lookup_insert_ne in Hj by exact Hne.
      pose proof (H1 _ _ Hj) as Hj'. rewrite Hsplit, refs_app in Hj'.
      destruct (decide (block hb = j)); [contradiction |]. lia.
  - intros hb' Hin. rewrite length_insert. apply H2.
    rewrite Hsplit. apply elem_of_app. by left.
  - intros j g Hj. destruct (decide (block hb = j)) as [<-|Hne].
    + rewrite list_lookup_insert_eq in Hj by exact Hlt. injection Hj as <-. simpl.
      eexists. split; [reflexivity |]. right. split; [reflexivity |].
      eapply ejectedBody_shapes. exact Hs.
    + rewrite list_lookup_insert_ne in Hj by exact Hne. by eapply H3.
  - rewrite Hc. discriminate.
  - rewrite Hsplit, length_app in H5. simpl in H5. lia.
Qed.

(** On a state of a session [Outtake] never faults. *)
Lemma Outtake_total w :
  WorldInv w -> exists w', Outtake w = Some w' /\ WorldInv w'.
Proof.
  intros Hinv. destruct (last (mHeldBlocks (robot w))) as [hb|] eqn:Hl.
  - destruct (held_last_ready w hb Hinv Hl)
      as (blk & chassis & b & Hb & Hh & Hbody & Hc & Hr & Hs).
    exists (ejectedWorld hb blk chassis b w). split.
    + by apply Outtake_eject.
    + by apply WorldInv_ejected.
  - exists w. split; [| exact Hinv].
    apply Outtake_empty. by apply last_None.
Qed.

Lemma WorldInv_physics sim dt w :
  WorldInv w -> WorldInv (PhysicsWorld_Update sim dt w).
Proof.
  intros [H1 H2 H3 H4 H5].
  split; unfold references in *; simpl; auto.
  - intros i g Hi. rewrite list_lookup_imap in Hi.
    destruct (blocks w !! i) as [g0|] eqn:Hg0; [| discriminate].
    injection Hi as <-. simpl. by apply H1.
  - intros hb Hin. rewrite length_imap. by apply H2.
  - intros i g Hi. rewrite list_lookup_imap in Hi.
    destruct (blocks w !! i) as [g0|] eqn:Hg0; [| discriminate].
    injection Hi as <-. simpl.
    destruct (H3 _ _ Hg0) as (b & -> & Hs). simpl.
    eexists. split; [reflexivity |]. exact Hs.
  - intros Hnone. apply H4. by destruct (mChassis (robot w)).
Qed.

(** [SpawnBlock] returns exactly when every answer is the good one, and
    then what it returns does not depend on them. *)
Lemma SpawnBlock_spawns a c pos :
  SpawnBlock a c pos = if spawns a then SpawnBlock spawnOk c pos else None.
Proof. by destruct a as [[] [] [] [] []]. Qed.

Lemma WorldInv_exec e w w' :
  WorldInv w -> exec e w = Some w' -> WorldInv w'.
Proof.
  intros Hinv He. destruct e as [l r | created c pos | created i | | dt | sim dt];
    simpl in He.
  - injection He as <-. by apply (WorldInv_same_blocks w).
  - rewrite SpawnBlock_spawns in He. destruct (spawns created); [| discriminate].
    simpl in He. injection He as <-. by eapply WorldInv_spawn.
  - injection He as <-. by apply WorldInv_TryIntake.
  - destruct (Outtake_total w Hinv) as (w'' & E & Hinv'). congruence.
  - injection He as <-. apply (WorldInv_same_blocks w); auto; simpl.
    + apply Update_mHeldBlocks.
    + apply Update_mChassis.
  - injection He as <-. by apply WorldInv_physics.
Qed.

Lemma WorldInv_run es w w' :
  WorldInv w -> run es w = Some w' -> WorldInv w'.
Proof.
  revert w. induction es as [|e es IH]; intros w Hinv Hrun; simpl in Hrun.
  - by injection Hrun as <-.
  - destruct (exec e w) as [w1|] eqn:He; [| discriminate].
    simpl in Hrun. eapply IH; [| exact Hrun]. by eapply WorldInv_exec.
Qed.

Lemma Reachable_inv w : Reachable w -> WorldInv w.
Proof.
  intros (ok & pos & es & Hrun).
  eapply WorldInv_run; [apply WorldInv_start | exact Hrun].
Qed.

(** ** Held flags and HeldBlock records *)

(** The spawn handler on the robot of main spawns at [spawnPosition]. *)
Lemma spawnAtFront_mainStart (c : BlockColor) :
  spawnAtFront spawnOk c mainStart = exec (EvSpawn spawnOk c spawnPosition) mainStart.
Proof. reflexivity. Qed.

Lemma after_Reachable es w : run es mainStart = Some w -> Reachable w.
Proof. intros H. eexists _, _, es. exact H. Qed.

(** C1. In every state a session can reach, under any sequence of spawns,
    [TryIntake], [Outtake], [Update] and engine steps, each game block is
    either free (held flag false, no [HeldBlock] record points at it) or
    held (held flag true, exactly one record points at it); the two cases
    exclude each other, and every record points at a block of the list. *)
Theorem held_flag_matches_records (w : World) :
  Reachable w ->
  (forall i g, blocks w !! i = Some g ->
     ((held g = false /\ references i w = 0)
      \/ (held g = true /\ references i w = 1))
     /\ ~ ((held g = false /\ references i w = 0)
           /\ (held g = true /\ references i w = 1)))
  /\ (forall hb, hb ∈ mHeldBlocks (robot w) ->
        exists g, blocks w !! block hb = Some g /\ held g = true).
Proof.
  intros HR. pose proof (Reachable_inv w HR) as Hinv. split.
  - intros i g Hg. pose proof (inv_refs w Hinv i g Hg) as Hr. split.
    + destruct (held g); [right | left]; auto.
    + intros [[Hf _] [Ht _]]. congruence.
  - intros hb Hin.
    destruct (lookup_lt_is_Some_2 _ _ (inv_bound w Hinv hb Hin)) as [g Hg].
    exists g. split; [exact Hg |].
    pose proof (inv_refs w Hinv _ g Hg) as Hr.
    destruct (held g); [reflexivity | exfalso].
    unfold references, refs in Hr.
    apply length_zero_iff_nil in Hr.
    assert (Hmem : hb ∈ filter (fun hb' => block hb' = block hb)
                           (mHeldBlocks (robot w)))
      by (apply list_elem_of_filter; split; [reflexivity | exact Hin]).
    rewrite Hr in Hmem. by apply elem_of_nil in Hmem.
Qed.

Lemma held_flag_matches_records_witness :
  Reachable oneHeld
  /\ (forall i g, blocks oneHeld !! i = Some g ->
        ((held g = false /\ references i oneHeld = 0)
         \/ (held g = true /\ references i oneHeld = 1))
        /\ ~ ((held g = false /\ references i oneHeld = 0)
              /\ (held g = true /\ references i oneHeld = 1)))
  /\ (forall hb, hb ∈ mHeldBlocks (robot oneHeld) ->
        exists g, blocks oneHeld !! block hb = Some g /\ held g = true).
Proof.
  assert (HR : Reachable oneHeld).
  { apply (after_Reachable (spawnAndIntake 0 ++ [EvSpawn spawnOk BLUE spawnPosition])).
    vm_compute. reflexivity. }
  split; [exact HR |].
  exact (held_flag_matches_records oneHeld HR).
Defined.

Example oneHeld_flags :
  held <$> blocks oneHeld = [true; false]
  /\ block <$> mHeldBlocks (robot oneHeld) = [0].
Proof. split; vm_compute; reflexivity. Qed.

(** ** Capacity *)

(** C2. In every state a session can reach at most [MAX_HELD_BLOCKS] = 8
    blocks are held; and when 8 are held, [TryIntake] on any block, whatever
    the engine would answer, returns false and leaves the whole state as it
    was: no joint, no change of any pose, velocity or filter data. *)
Theorem held_capacity (w : World) :
  Reachable w ->
  MAX_HELD_BLOCKS = 8
  /\ 0 <= GetHeldCount (robot w) <= 8
  /\ (IsIntakeFull (robot w) = true <-> GetHeldCount (robot w) = 8)
  /\ (GetHeldCount (robot w) = 8 ->
      forall created i, TryIntake created i w = (false, w)).
Proof.
  intros HR. pose proof (inv_cap w (Reachable_inv w HR)) as Hcap.
  unfold GetHeldCount, IsIntakeFull, MAX_HELD_BLOCKS in *.
  split; [reflexivity |]. split; [lia |]. split.
  - rewrite Nat.leb_le. lia.
  - intros Hfull created i. unfold TryIntake, IsIntakeFull, MAX_HELD_BLOCKS.
    rewrite Hfull. simpl.
    destruct (blocks w !! i) as [blk|]; [| reflexivity].
    destruct (mChassis (robot w)), (held blk), (body blk); reflexivity.
Qed.

Lemma held_capacity_witness :
  Reachable fullIntake
  /\ GetHeldCount (robot fullIntake) = 8
  /\ held <$> blocks fullIntake !! 8 = Some false
  /\ forall created i, TryIntake created i fullIntake = (false, fullIntake).
Proof.
  assert (HR : Reachable fullIntake).
  { apply (after_Reachable fillEvents). vm_compute. reflexivity. }
  split; [exact HR |]. split; [vm_compute; reflexivity |].
  split; [vm_compute; reflexivity |].
  apply (held_capacity fullIntake HR). vm_compute. reflexivity.
Defined.

(** ** Intake order and outtake *)

Lemma attachedWorld_facts i blk chassis b w :
  intakeReady i blk chassis b w ->
  let w' := attachedWorld i blk chassis b w in
  mHeldBlocks (robot w') = mHeldBlocks (robot w) ++ [mkHeld i (Some (nextJoint w))]
  /\ mChassis (robot w') = Some chassis
  /\ blocks w' !! i = Some (mkBlock (Some (heldBody chassis b)) (color blk) true)
  /\ (forall j, j ≠ i -> blocks w' !! j = blocks w !! j).
Proof.
  intros (Hb & Hc & _). simpl. repeat split; auto.
  - apply list_lookup_insert_eq. by eapply lookup_lt_Some.
  - intros j Hne. by apply list_lookup_insert_ne.
Qed.

Lemma ejectedWorld_held hb blk chassis b w :
  mHeldBlocks (robot (ejectedWorld hb blk chassis b w))
  = removelast (mHeldBlocks (robot w)).
Proof. reflexivity. Qed.

(** C3. After three successive successful [TryIntake] calls on p1, p2 and
    p3, one [Outtake] releases p3: it returns without fault, p3 is free
    again and its joint is gone, p1 and p2 stay held, and the records left
    are those that were there before p3 was taken, ending with p1 then
    p2. *)
Theorem outtake_is_lifo
    (w0 w1 w2 w3 : World) (c1 c2 c3 : bool) (p1 p2 p3 : nat) :
  TryIntake c1 p1 w0 = (true, w1) ->
  TryIntake c2 p2 w1 = (true, w2) ->
  TryIntake c3 p3 w2 = (true, w3) ->
  exists w4 g1 g2 g3,
    Outtake w3 = Some w4
    /\ block <$> mHeldBlocks (robot w3)
       = (block <$> mHeldBlocks (robot w0)) ++ [p1; p2; p3]
    /\ mHeldBlocks (robot w4) = mHeldBlocks (robot w2)
    /\ block <$> mHeldBlocks (robot w4)
       = (block <$> mHeldBlocks (robot w0)) ++ [p1; p2]
    /\ blocks w4 !! p3 = Some g3 /\ held g3 = false
    /\ blocks w4 !! p1 = Some g1 /\ held g1 = true
    /\ blocks w4 !! p2 = Some g2 /\ held g2 = true
    /\ fixedJoints w4 !! nextJoint w2 = None
    /\ p1 ≠ p3 /\ p2 ≠ p3 /\ p1 ≠ p2.
Proof.
  intros H1 H2 H3.
  apply TryIntake_true in H1 as (_ & blk1 & ch1 & b1 & R1 & ->).
  apply TryIntake_true in H2 as (_ & blk2 & ch2 & b2 & R2 & ->).
  apply TryIntake_true in H3 as (_ & blk3 & ch3 & b3 & R3 & ->).
  destruct (attachedWorld_facts _ _ _ _ _ R1) as (L1 & C1 & B1 & O1).
  destruct (attachedWorld_facts _ _ _ _ _ R2) as (L2 & C2 & B2 & O2).
  destruct (attachedWorld_facts _ _ _ _ _ R3) as (L3 & C3 & B3 & O3).
  set (w1 := attachedWorld p1 blk1 ch1 b1 w0) in *.
  set (w2 := attachedWorld p2 blk2 ch2 b2 w1) in *.
  set (w3 := attachedWorld p3 blk3 ch3 b3 w2) in *.
  assert (N12 : p1 ≠ p2).
  { intros ->. destruct R2 as (E & _ & Hh & _). rewrite B1 in E.
    injection E as <-. discriminate Hh. }
  assert (B1' : blocks w2 !! p1
                = Some (mkBlock (Some (heldBody ch1 b1)) (color blk1) true)).
  { rewrite O2 by exact N12. exact B1. }
  assert (N13 : p1 ≠ p3).
  { intros ->. destruct R3 as (E & _ & Hh & _). rewrite B1' in E.
    injection E as <-. discriminate Hh. }
  assert (N23 : p2 ≠ p3).
  { intros ->. destruct R3 as (E & _ & Hh & _). rewrite B2 in E.
    injection E as <-. discriminate Hh. }
  set (hb := mkHeld p3 (Some (nextJoint w2))).
  assert (Hlast : last (mHeldBlocks (robot w3)) = Some hb)
    by (rewrite L3; apply last_snoc).
  pose proof (Outtake_eject w3 hb _ ch3 _ Hlast B3 eq_refl C3) as Hout.
  eexists _, _, _, _. split; [exact Hout |].
  assert (Hlen : p3 < length (blocks w3))
    by (eapply lookup_lt_Some; exact B3).
  repeat split.
  - rewrite L3, L2, L1, !fmap_app, <- !app_assoc. reflexivity.
  - rewrite ejectedWorld_held, L3, removelast_last. reflexivity.
  - rewrite ejectedWorld_held, L3, removelast_last, L2, L1.
    rewrite !fmap_app, <- !app_assoc. reflexivity.
  - simpl. apply list_lookup_insert_eq. exact Hlen.
  - reflexivity.
  - simpl. rewrite list_lookup_insert_ne by (simpl; congruence).
    rewrite O3 by exact N13. exact B1'.
  - reflexivity.
  - simpl. rewrite list_lookup_insert_ne by (simpl; congruence).
    rewrite O3 by exact N23. exact B2.
  - reflexivity.
  - simpl. apply lookup_delete_eq.
  - exact N13.
  - exact N23.
  - exact N12.
Qed.

Lemma outtake_is_lifo_witness :
  let w1 := snd (TryIntake true 0 threeSpawned) in
  let w2 := snd (TryIntake true 1 w1) in
  let w3 := snd (TryIntake true 2 w2) in
  exists w4 g1 g2 g3,
    Outtake w3 = Some w4
    /\ block <$> mHeldBlocks (robot w3)
       = (block <$> mHeldBlocks (robot threeSpawned)) ++ [0; 1; 2]
    /\ mHeldBlocks (robot w4) = mHeldBlocks (robot w2)
    /\ block <$> mHeldBlocks (robot w4)
       = (block <$> mHeldBlocks (robot threeSpawned)) ++ [0; 1]
    /\ blocks w4 !! 2 = Some g3 /\ held g3 = false
    /\ blocks w4 !! 0 = Some g1 /\ held g1 = true
    /\ blocks w4 !! 1 = Some g2 /\ held g2 = true
    /\ fixedJoints w4 !! nextJoint w2 = None
    /\ 0 ≠ 2 /\ 1 ≠ 2 /\ 0 ≠ 1.
Proof.
  intros w1 w2 w3.
  apply (outtake_is_lifo threeSpawned w1 w2 w3 true true true 0 1 2);
    vm_compute; reflexivity.
Defined.

(** ** Filter data across intake and outtake *)

(** C10. In every state a session can reach with a block held, [Outtake]
    ejects the block of the last record, and the filter data of the ejected
    block is the block row: category [eBLOCK], mask ground, chassis, wheel,
    obstacle and block.  That is the data [SpawnBlock] gave it, and it
    replaces the all-zero data the block carried while held. *)
Theorem outtake_restores_filter (w : World) (hb : HeldBlock) :
  Reachable w ->
  last (mHeldBlocks (robot w)) = Some hb ->
  exists w' g b g' b',
    Outtake w = Some w'
    /\ blocks w !! block hb = Some g /\ held g = true /\ body g = Some b
    /\ shapes b = [zeroFilterData]
    /\ blocks w' !! block hb = Some g' /\ held g' = false /\ body g' = Some b'
    /\ shapes b' = [blockFilterData]
    /\ word0 blockFilterData = eBLOCK
    /\ word1 blockFilterData
       = Z.lor eGROUND (Z.lor eCHASSIS (Z.lor eWHEEL (Z.lor eOBSTACLE eBLOCK)))
    /\ (forall c pos, (body <$> SpawnBlock spawnOk c pos)
                      ≫= (fun o => shapes <$> o) = Some (shapes b')).
Proof.
  intros HR Hl. pose proof (Reachable_inv w HR) as Hinv.
  destruct (held_last_ready w hb Hinv Hl)
    as (blk & chassis & b & Hb & Hh & Hbody & Hc & Hr & Hs).
  pose proof (ejectedBody_shapes chassis b _ Hs) as Hs'.
  exists (ejectedWorld hb blk chassis b w), blk, b,
         (mkBlock (Some (ejectedBody chassis b)) (color blk) false),
         (ejectedBody chassis b).
  split; [by apply Outtake_eject |].
  repeat split; auto.
  - simpl. apply list_lookup_insert_eq. by eapply lookup_lt_Some.
  - intros c pos. simpl. f_equal. symmetry. exact Hs'.
Qed.

Lemma outtake_restores_filter_witness :
  Reachable oneHeld
  /\ last (mHeldBlocks (robot oneHeld)) = Some (mkHeld 0 (Some 0))
  /\ exists w' g b g' b',
    Outtake oneHeld = Some w'
    /\ blocks oneHeld !! 0 = Some g /\ held g = true /\ body g = Some b
    /\ shapes b = [zeroFilterData]
    /\ blocks w' !! 0 = Some g' /\ held g' = false /\ body g' = Some b'
    /\ shapes b' = [blockFilterData]
    /\ word0 blockFilterData = eBLOCK
    /\ word1 blockFilterData
       = Z.lor eGROUND (Z.lor eCHASSIS (Z.lor eWHEEL (Z.lor eOBSTACLE eBLOCK)))
    /\ (forall c pos, (body <$> SpawnBlock spawnOk c pos)
                      ≫= (fun o => shapes <$> o) = Some (shapes b')).
Proof.
  assert (HR : Reachable oneHeld).
  { apply (after_Reachable (spawnAndIntake 0 ++ [EvSpawn spawnOk BLUE spawnPosition])).
    vm_compute. reflexivity. }
  assert (Hl : last (mHeldBlocks (robot oneHeld)) = Some (mkHeld 0 (Some 0)))
    by (vm_compute; reflexivity).
  split; [exact HR |]. split; [exact Hl |].
  exact (outtake_restores_filter oneHeld (mkHeld 0 (Some 0)) HR Hl).
Defined.

Lemma TryIntake_zeroes_filter created i w w' :
  Reachable w -> TryIntake created i w = (true, w') ->
  exists g b, blocks w' !! i = Some g /\ held g = true /\ body g = Some b
              /\ shapes b = [zeroFilterData].
Proof.
  intros HR H. apply TryIntake_true in H as (_ & blk & ch & b & R & ->).
  destruct (attachedWorld_facts _ _ _ _ _ R) as (_ & _ & B & _).
  eexists _, _. split; [exact B |]. repeat split.
  destruct R as (Hb & _ & _ & Hbody & _).
  destruct (inv_body w (Reachable_inv w HR) _ _ Hb) as (b0 & Hb0 & Hs).
  rewrite Hbody in Hb0. injection Hb0 as <-.
  destruct Hs as [Hs | [_ Hs]]; eapply heldBody_shapes; exact Hs.
Qed.

(** ** Joint creation failure *)

Lemma TryIntake_joint_failure i blk chassis b w :
  intakeReady i blk chassis b w ->
  TryIntake false i w = (false, abortedWorld i blk chassis b w)
  /\ mHeldBlocks (robot (abortedWorld i blk chassis b w)) = mHeldBlocks (robot w)
  /\ fixedJoints (abortedWorld i blk chassis b w) = fixedJoints w
  /\ blocks (abortedWorld i blk chassis b w) !! i
     = Some (mkBlock (Some (heldBody chassis b)) (color blk) false).
Proof.
  intros R. split; [exact (TryIntake_ready false _ _ _ _ _ R) |].
  repeat split. simpl. apply list_lookup_insert_eq.
  destruct R as (Hb & _). by eapply lookup_lt_Some.
Qed.

(** C4 (the code departs from it). A freshly spawned block in range, a robot
    with a chassis and room, and an engine that cannot create the fixed
    joint: [TryIntake] returns false, the block stays unheld, no record and
    no joint exist; but the block has already been moved onto the chassis
    and its filter data zeroed, and stays so. *)
Theorem TryIntake_joint_failure_alters_block :
  exists w' g g' b b' chassis,
    TryIntake false 0 oneSpawned = (false, w')
    /\ blocks oneSpawned !! 0 = Some g /\ body g = Some b
    /\ blocks w' !! 0 = Some g' /\ body g' = Some b'
    /\ mChassis (robot oneSpawned) = Some chassis
    /\ held g' = false
    /\ mHeldBlocks (robot w') = []
    /\ fixedJoints w' = ∅
    /\ shapes b = [blockFilterData] /\ shapes b' = [zeroFilterData]
    /\ globalPose b' = globalPose chassis
    /\ globalPose b ≠ globalPose b'
    /\ w' ≠ oneSpawned.
Proof.
  eexists _, _, _, _, _, _.
  repeat match goal with |- _ /\ _ => split end;
    try (vm_compute; reflexivity).
  - vm_compute. discriminate.
  - vm_compute. discriminate.
Qed.

(** ** A session whose chassis could not be created *)

Lemma TryIntake_no_chassis created i w :
  mChassis (robot w) = None -> TryIntake created i w = (false, w).
Proof.
  intros Hc. unfold TryIntake. rewrite Hc.
  by destruct (blocks w !! i).
Qed.

Lemma Update_no_chassis dt r : mChassis r = None -> Update dt r = r.
Proof. intros Hc. unfold Update. by rewrite Hc. Qed.

Lemma Inert_exec e w w' : Inert w -> exec e w = Some w' -> Inert w'.
Proof.
  intros (Hc & Hh & Hj & Hf) He.
  destruct e as [l r | created c pos | created i | | dt | sim dt]; simpl in He.
  - injection He as <-. by repeat split.
  - rewrite SpawnBlock_spawns in He. destruct (spawns created); [| discriminate].
    simpl in He. injection He as <-.
    by repeat split.
  - injection He as <-. rewrite TryIntake_no_chassis by exact Hc. by repeat split.
  - rewrite Outtake_empty in He by exact Hh. injection He as <-. by repeat split.
  - injection He as <-. unfold Robot_Update.
    rewrite Update_no_chassis by exact Hc. by repeat split.
  - injection He as <-. repeat split; simpl; auto. by rewrite Hc.
Qed.

Lemma Inert_run es w w' : Inert w -> run es w = Some w' -> Inert w'.
Proof.
  revert w. induction es as [|e es IH]; intros w Hi Hrun; simpl in Hrun.
  - by injection Hrun as <-.
  - destruct (exec e w) as [w1|] eqn:He; [| discriminate].
    simpl in Hrun. eapply IH; [| exact Hrun]. by eapply Inert_exec.
Qed.

(** C9. When [Initialize] fails to create the chassis, then in every later
    state of the session [Update] changes nothing, [GetTransformMatrix]
    is the identity matrix, [GetFrontPosition] is the origin, [TryIntake]
    returns false and changes nothing, and [Outtake], which would fault on
    the null chassis if a block were held, changes nothing either because
    no block is ever held. *)
Theorem failed_chassis_is_inert
    (startPos : PxVec3) (es : list Event) (w : World) :
  run es (startWorld false startPos) = Some w ->
  mChassis (robot w) = None
  /\ mHeldBlocks (robot w) = []
  /\ (forall dt, Update dt (robot w) = robot w)
  /\ (forall mat4_cast glm_translate glm_scale mat4_mul visualScale,
        GetTransformMatrix mat4_cast glm_translate glm_scale mat4_mul
                           visualScale (robot w)
        = mat4_diag F32.one)
  /\ GetFrontPosition (robot w) = PxVec3_all F32.zero
  /\ (forall created i, TryIntake created i w = (false, w))
  /\ Outtake w = Some w.
Proof.
  intros Hrun.
  assert (Hi : Inert w).
  { eapply Inert_run; [| exact Hrun]. by repeat split. }
  destruct Hi as (Hc & Hh & _ & _).
  repeat split; auto.
  - intros dt. by apply Update_no_chassis.
  - intros. unfold GetTransformMatrix. by rewrite Hc.
  - unfold GetFrontPosition. by rewrite Hc.
  - intros. by apply TryIntake_no_chassis.
  - by apply Outtake_empty.
Qed.

Lemma failed_chassis_is_inert_witness :
  run failedSession failedStart = Some failedWorld
  /\ length (blocks failedWorld) = 1
  /\ mChassis (robot failedWorld) = None
  /\ mHeldBlocks (robot failedWorld) = []
  /\ (forall dt, Update dt (robot failedWorld) = robot failedWorld)
  /\ (forall mat4_cast glm_translate glm_scale mat4_mul visualScale,
        GetTransformMatrix mat4_cast glm_translate glm_scale mat4_mul
                           visualScale (robot failedWorld)
        = mat4_diag F32.one)
  /\ GetFrontPosition (robot failedWorld) = PxVec3_all F32.zero
  /\ (forall created i, TryIntake created i failedWorld = (false, failedWorld))
  /\ Outtake failedWorld = Some failedWorld.
Proof.
  assert (Hrun : run failedSession failedStart = Some failedWorld)
    by (vm_compute; reflexivity).
  split; [exact Hrun |]. split; [vm_compute; reflexivity |].
  exact (failed_chassis_is_inert _ failedSession failedWorld Hrun).
Defined.

(** With a held block and no chassis [Outtake] would fault; the states of a
    session never get there. *)
Example Outtake_null_chassis_faults :
  Outtake (mkWorld (set_mHeldBlocks [mkHeld 0 None] Robot_new)
                   (blocks oneSpawned) ∅ 0) = None.
Proof. vm_compute. reflexivity. Qed.

(** ** Intake range and the nearest block *)

Lemma notAbove_trans a b c : notAbove a b -> notAbove b c -> notAbove a c.
Proof.
  intros [-> | H1] [-> | H2]; unfold notAbove; auto.
  right. by eapply ltb_trans.
Qed.

Lemma notAbove_not_below a b : notAbove a b -> F32.ltb b a = false.
Proof.
  intros [-> | H]; [apply ltb_irrefl |].
  destruct (F32.ltb b a) eqn:E; [| reflexivity].
  pose proof (ltb_trans _ _ _ H E) as F. by rewrite ltb_irrefl in F.
Qed.

Lemma ScanPost_skip r blk rest i0 bd bb bd' bb' :
  ScanPost r rest (S i0) bd bb bd' bb' ->
  (forall b, held blk = false -> body blk = Some b ->
             F32.ltb (frontDistance r b) bd = false) ->
  ScanPost r (blk :: rest) i0 bd bb bd' bb'.
Proof.
  intros (Hle & Hall & Hsel) Hhead. split; [exact Hle |]. split.
  - intros [|j] g b Hj Hh Hb; simpl in Hj.
    + injection Hj as <-.
      destruct (F32.ltb (frontDistance r b) bd') eqn:E; [| reflexivity].
      destruct Hle as [-> | Hlt].
      * rewrite (Hhead b Hh Hb) in E. discriminate.
      * pose proof (ltb_trans _ _ _ E Hlt) as F.
        rewrite (Hhead b Hh Hb) in F. discriminate.
    + by eapply Hall.
  - destruct Hsel as [? | (j & g & b & -> & Hj & Hh & Hb & Hd & Hlt)]; [by left |].
    right. exists (S j), g, b.
    split; [f_equal; lia |]. auto 10.
Qed.

Lemma ScanPost_take r blk b0 rest i0 bd bb bd' bb' :
  held blk = false -> body blk = Some b0 ->
  F32.ltb (frontDistance r b0) bd = true ->
  ScanPost r rest (S i0) (frontDistance r b0) (Some i0) bd' bb' ->
  ScanPost r (blk :: rest) i0 bd bb bd' bb'.
Proof.
  intros Hh Hb0 Hlt (Hle & Hall & Hsel).
  assert (Hle' : notAbove bd' bd)
    by (eapply notAbove_trans; [exact Hle | by right]).
  split; [exact Hle' |]. split.
  - intros [|j] g b Hj Hhg Hb; simpl in Hj.
    + injection Hj as <-. rewrite Hb0 in Hb. injection Hb as <-.
      by apply notAbove_not_below.
    + by eapply Hall.
  - right. destruct Hsel as [[-> ->] | (j & g & b & -> & Hj & Hhg & Hb & Hd & Hlt')].
    + exists 0, blk, b0. split; [f_equal; lia |]. auto 10.
    + exists (S j), g, b. split; [f_equal; lia |].
      repeat split; auto. by eapply ltb_trans.
Qed.

Lemma scanBlocks_spec r bs : forall i0 bd bb bd' bb',
  scanBlocks r bs i0 bd bb = (bd', bb') -> ScanPost r bs i0 bd bb bd' bb'.
Proof.
  induction bs as [|blk rest IH]; intros i0 bd bb bd' bb' H; simpl in H.
  - injection H as <- <-. split; [by left |]. split; [| by left].
    intros j g b Hj. by rewrite lookup_nil in Hj.
  - destruct (held blk) eqn:Hh.
    { apply ScanPost_skip; [by apply IH |]. intros b Hf. congruence. }
    destruct (body blk) as [b0|] eqn:Hb0.
    2:{ apply ScanPost_skip; [by apply IH |]. intros b _ Hb. congruence. }
    destruct (F32.ltb (frontDistance r b0) bd) eqn:Hlt.
    + eapply ScanPost_take; eauto.
    + apply ScanPost_skip; [by apply IH |].
      intros b _ Hb. rewrite Hb0 in Hb. injection Hb as <-. exact Hlt.
Qed.






(** ** The fixed-step drain *)

Lemma physicsTimestep_bits :
  physicsTimestep = S754_finite false 8947849 (-29)
  /\ twoAndAHalfSteps = S754_finite false 11184811 (-28)
  /\ halfStep = S754_finite false 8947849 (-30)
  /\ drainRemainder = S754_finite false 8947848 (-30).
Proof. repeat split; vm_compute; reflexivity. Qed.

Lemma digits2_pos_bound (m : positive) :
  (Zpos m < 2 ^ Zpos (digits2_pos m))%Z.
Proof.
  induction m as [m IH | m IH |]; simpl digits2_pos.
  - rewrite Pos2Z.inj_succ, Z.pow_succ_r by lia. lia.
  - rewrite Pos2Z.inj_succ, Z.pow_succ_r by lia. lia.
  - reflexivity.
Qed.

Lemma bounded_mantissa (m : positive) (e : Z) :
  bounded F32.prec F32.emax m e = true -> (Zpos m < 2 ^ 24)%Z.
Proof.
  unfold bounded, canonical_mantissa, fexp, F32.prec. intros H.
  apply andb_prop in H as [H _]. apply Z.eqb_eq in H.
  pose proof (digits2_pos_bound m) as Hd.
  assert (Hle : (Zpos (digits2_pos m) <= 24)%Z) by lia.
  eapply Z.lt_le_trans; [exact Hd |].
  apply Z.pow_le_mono_r; lia.
Qed.

(** The timestep is 8947849 * 2^-29, so two and a half timesteps are
    44739245 * 2^-30, and half a timestep is 8947849 * 2^-30. *)
Lemma physicsTimestep_exactly :
  exactly physicsTimestep 8947849 (-29)
  /\ (5 * 8947849 = 44739245)%Z
  /\ exactly halfStep 8947849 (-30).
Proof. repeat split; vm_compute; reflexivity. Qed.

(** No binary32 number is exactly two and a half timesteps. *)
Lemma no_float_is_two_and_a_half_steps (x : float) :
  valid_binary F32.prec F32.emax x = true -> ~ exactly x 44739245 (-30).
Proof.
  unfold exactly, valid_binary.
  destruct x as [s|s| |[|] m e]; try tauto.
  intros Hb Hx. apply bounded_mantissa in Hb.
  destruct (Z.min_spec e (-30)) as [[Hlt Hm] | [Hge Hm]]; rewrite Hm in Hx.
  - replace (e - e)%Z with 0%Z in Hx by lia.
    assert (H2 : (2 ^ 1 <= 2 ^ (-30 - e))%Z) by (apply Z.pow_le_mono_r; lia).
    change (2 ^ 24)%Z with 16777216%Z in Hb. change (2 ^ 1)%Z with 2%Z in H2.
    nia.
  - replace (-30 - -30)%Z with 0%Z in Hx by lia.
    destruct (Z.eq_dec e (-30)%Z) as [-> | Hne].
    + change (2 ^ 24)%Z with 16777216%Z in Hb. simpl in Hx. lia.
    + replace (e - -30)%Z with (Z.succ (e + 29)) in Hx by lia.
      rewrite Z.pow_succ_r in Hx by lia. lia.
Qed.

Lemma drain_step {St : Type} (f g : float -> St -> St) fuel acc s :
  F32.leb physicsTimestep acc = true ->
  drain f g (S fuel) acc s
  = drain f g fuel (F32.sub acc physicsTimestep)
          (g physicsTimestep (f physicsTimestep s)).
Proof. intros H. simpl. rewrite H. reflexivity. Qed.

Lemma drain_stop {St : Type} (f g : float -> St -> St) fuel acc s :
  F32.leb physicsTimestep acc = false ->
  drain f g fuel acc s = Some (acc, s).
Proof. intros H. destruct fuel; simpl; rewrite H; reflexivity. Qed.

(** Whenever the loop finishes it has run some number [n] of rounds, each
    one [robotUpdate] then [physicsUpdate] at the fixed timestep, and the
    accumulator that is left is below the timestep (or not a number). *)
Lemma drain_shape {St : Type} (f g : float -> St -> St) fuel :
  forall acc s acc' s',
    drain f g fuel acc s = Some (acc', s') ->
    exists n,
      n <= fuel
      /\ s' = Nat.iter n (fun x => g physicsTimestep (f physicsTimestep x)) s
      /\ acc' = Nat.iter n (fun a => F32.sub a physicsTimestep) acc
      /\ F32.leb physicsTimestep acc' = false.
Proof.
  induction fuel as [|fuel IH]; intros acc s acc' s' H.
  - simpl in H. destruct (F32.leb physicsTimestep acc) eqn:E; [discriminate |].
    injection H as <- <-. exists 0. auto.
  - destruct (F32.leb physicsTimestep acc) eqn:E.
    + rewrite drain_step in H by exact E.
      destruct (IH _ _ _ _ H) as (n & Hn & Hs & Ha & Hstop).
      exists (S n). split; [lia |].
      rewrite !Nat.iter_succ_r. auto.
    + rewrite drain_stop in H by exact E.
      injection H as <- <-. exists 0. split; [lia |]. auto.
Qed.

(** C8 as the code has it.  From an accumulator of 2.5f times the timestep
    (reached from an empty accumulator by a frame of that length) the loop
    runs exactly two rounds, [Robot::Update] before [PhysicsWorld::Update]
    in each, whatever the two updates do and whatever fuel beyond two it is
    given; what it leaves is the accumulator less the timestep twice in
    binary32, which is the float just below half a timestep, not half a
    timestep.  No float is exactly two and a half timesteps
    (44739245 * 2^-30). *)
Theorem drain_two_and_a_half_steps
    (St : Type) (robotUpdate physicsUpdate : float -> St -> St)
    (s : St) (sim : Simulation) (w : World) (fuel : nat) :
  2 <= fuel ->
  drain robotUpdate physicsUpdate fuel twoAndAHalfSteps s
  = Some (drainRemainder,
          physicsUpdate physicsTimestep
            (robotUpdate physicsTimestep
               (physicsUpdate physicsTimestep
                  (robotUpdate physicsTimestep s))))
  /\ (exists w', loggedDrain sim fuel twoAndAHalfSteps w
                 = Some (drainRemainder,
                         (w', [CallRobotUpdate physicsTimestep;
                               CallPhysicsUpdate physicsTimestep;
                               CallRobotUpdate physicsTimestep;
                               CallPhysicsUpdate physicsTimestep]))
                 /\ physicsDrain sim fuel twoAndAHalfSteps w
                    = Some (drainRemainder, w'))
  /\ frameDrain sim fuel twoAndAHalfSteps F32.zero w
     = physicsDrain sim fuel twoAndAHalfSteps w
  /\ drainRemainder = F32.sub (F32.sub twoAndAHalfSteps physicsTimestep)
                              physicsTimestep
  /\ SFsucc F32.prec F32.emax drainRemainder = halfStep
  /\ F32.ltb drainRemainder halfStep = true
  /\ (forall x : float,
        valid_binary F32.prec F32.emax x = true -> ~ exactly x 44739245 (-30)).
Proof.
  intros Hfuel.
  destruct fuel as [|[|fuel]]; try lia.
  assert (E1 : F32.leb physicsTimestep twoAndAHalfSteps = true)
    by (vm_compute; reflexivity).
  assert (E2 : F32.leb physicsTimestep
                 (F32.sub twoAndAHalfSteps physicsTimestep) = true)
    by (vm_compute; reflexivity).
  assert (E3 : F32.leb physicsTimestep drainRemainder = false)
    by (vm_compute; reflexivity).
  assert (Hgen : forall (T : Type) (f g : float -> T -> T) (t : T),
             drain f g (S (S fuel)) twoAndAHalfSteps t
             = Some (drainRemainder,
                     g physicsTimestep (f physicsTimestep
                       (g physicsTimestep (f physicsTimestep t))))).
  { intros T f g t.
    rewrite drain_step by exact E1. rewrite drain_step by exact E2.
    apply drain_stop. exact E3. }
  split; [apply Hgen |]. split.
  - eexists. unfold loggedDrain, physicsDrain. rewrite !Hgen. simpl.
    split; reflexivity.
  - split; [reflexivity |]. split; [reflexivity |].
    split; [vm_compute; reflexivity |]. split; [vm_compute; reflexivity |].
    exact no_float_is_two_and_a_half_steps.
Qed.

Lemma drain_two_and_a_half_steps_witness :
  2 <= 5
  /\ fst <$> physicsDrain still 5 twoAndAHalfSteps mainStart = Some drainRemainder
  /\ (snd ∘ snd) <$> loggedDrain still 5 twoAndAHalfSteps mainStart
     = Some [CallRobotUpdate physicsTimestep; CallPhysicsUpdate physicsTimestep;
             CallRobotUpdate physicsTimestep; CallPhysicsUpdate physicsTimestep].
Proof.
  assert (H : 2 <= 5) by lia.
  destruct (drain_two_and_a_half_steps World Robot_Update
              (PhysicsWorld_Update still) mainStart still mainStart 5 H)
    as (_ & (w' & Hlog & Hdrain) & _).
  split; [exact H |]. split.
  - rewrite Hdrain. reflexivity.
  - rewrite Hlog. reflexivity.
Defined.

(** C8 as it is stated fails: after the two rounds the accumulator is not
    half a timestep. *)
Lemma drain_remainder_is_not_half_step :
  fst <$> physicsDrain still 5 twoAndAHalfSteps mainStart ≠ Some halfStep.
Proof. vm_compute. discriminate. Qed.

(** ** Joints and records *)

Lemma JointInv_same w w' :
  JointInv w ->
  mHeldBlocks (robot w') = mHeldBlocks (robot w) ->
  fixedJoints w' = fixedJoints w -> nextJoint w' = nextJoint w ->
  JointInv w'.
Proof.
  intros [H1 H2 H3 H4 H5] Hh Hf Hn.
  split; rewrite ?Hh, ?Hf, ?Hn; auto.
Qed.

Lemma JointInv_attached w i blk chassis b :
  JointInv w -> JointInv (attachedWorld i blk chassis b w).
Proof.
  intros [H1 H2 H3 H4 H5].
  pose proof (H3 (nextJoint w) (Nat.le_refl _)) as Hnew.
  split; simpl.
  - intros hb Hin. apply elem_of_app in Hin as [Hin | Hin].
    + destruct (H1 hb Hin) as (j & Hj & Hl). exists j. split; [exact Hj |].
      rewrite lookup_insert_ne; [exact Hl |]. intros <-. congruence.
    + apply list_elem_of_singleton in Hin as ->. simpl.
      exists (nextJoint w). split; [reflexivity |]. apply lookup_insert_eq.
  - intros j fj Hl. destruct (decide (nextJoint w = j)) as [<- | Hne].
    + exists (mkHeld i (Some (nextJoint w))). split; [| reflexivity].
      apply elem_of_app. right. apply list_elem_of_singleton. reflexivity.
    + rewrite lookup_insert_ne in Hl by exact Hne.
      destruct (H2 j fj Hl) as (hb & Hin & Hj). exists hb.
      split; [| exact Hj]. apply elem_of_app. by left.
  - intros j Hj. rewrite lookup_insert_ne by lia. apply H3. lia.
  - rewrite map_size_insert_None by exact Hnew.
    rewrite length_app. simpl. lia.
  - rewrite fmap_app. apply NoDup_app. split; [exact H5 |]. split.
    + intros o Ho Hin. apply list_elem_of_singleton in Hin as ->.
      apply list_elem_of_fmap in Ho as (hb & Heq & Hhb).
      destruct (H1 hb Hhb) as (j & Hj & Hl). simpl in Heq. congruence.
    + apply NoDup_singleton.
Qed.

Lemma JointInv_ejected w hb blk chassis b :
  JointInv w -> last (mHeldBlocks (robot w)) = Some hb ->
  JointInv (ejectedWorld hb blk chassis b w).
Proof.
  intros [H1 H2 H3 H4 H5] Hl.
  pose proof (held_split _ _ Hl) as Hsplit.
  assert (Hin : hb ∈ mHeldBlocks (robot w)).
  { rewrite Hsplit. apply elem_of_app. right. by apply list_elem_of_singleton. }
  destruct (H1 hb Hin) as (j & Hj & Hlook).
  rewrite Hsplit, fmap_app in H5. apply NoDup_app in H5 as (Hnd & Hdisj & _).
  assert (Hother : forall hb', hb' ∈ removelast (mHeldBlocks (robot w)) ->
                               joint hb' ≠ Some j).
  { intros hb' Hin' Heq. apply (Hdisj (Some j)).
    - apply list_elem_of_fmap. exists hb'. split; [by symmetry | exact Hin'].
    - simpl. rewrite Hj. by apply list_elem_of_singleton. }
  split; simpl; rewrite ?Hj.
  - intros hb' Hin'.
    assert (Hin'' : hb' ∈ mHeldBlocks (robot w))
      by (rewrite Hsplit; apply elem_of_app; by left).
    destruct (H1 hb' Hin'') as (j' & Hj' & Hl'). exists j'.
    split; [exact Hj' |]. rewrite lookup_delete_ne; [exact Hl' |].
    intros <-. by apply (Hother hb' Hin').
  - intros j' fj Hl'. apply lookup_delete_Some in Hl' as [Hne Hl'].
    destruct (H2 j' fj Hl') as (hb' & Hin' & Hj').
    exists hb'. split; [| exact Hj'].
    rewrite Hsplit in Hin'. apply elem_of_app in Hin' as [Hin' | Hin']; [exact Hin' |].
    apply list_elem_of_singleton in Hin' as ->. congruence.
  - intros j' Hj'. rewrite lookup_delete_ne.
    + by apply H3.
    + intros <-. rewrite H3 in Hlook by exact Hj'. discriminate.
  - rewrite map_size_delete_Some by (by eexists).
    rewrite H4, Hsplit at 1. rewrite length_app. simpl. lia.
  - exact Hnd.
Qed.

Lemma JointInv_exec e w w' :
  WorldInv w -> JointInv w -> exec e w = Some w' -> JointInv w'.
Proof.
  intros Hinv Hj He.
  destruct e as [l r | created c pos | created i | | dt | sim dt]; simpl in He.
  - injection He as <-. by apply (JointInv_same w).
  - rewrite SpawnBlock_spawns in He. destruct (spawns created); [| discriminate].
    simpl in He. injection He as <-.
    by apply (JointInv_same w).
  - injection He as <-.
    destruct (TryIntake_cases created i w) as [E | (blk & chassis & b & R)].
    + by rewrite E.
    + rewrite (TryIntake_ready created _ _ _ _ _ R). destruct created; simpl.
      * by apply JointInv_attached.
      * by apply (JointInv_same w).
  - destruct (last (mHeldBlocks (robot w))) as [hb|] eqn:Hl.
    + destruct (held_last_ready w hb Hinv Hl)
        as (blk & chassis & b & Hb & Hh & Hbody & Hc & Hr & Hs).
      rewrite (Outtake_eject w hb blk chassis b Hl Hb Hbody Hc) in He.
      injection He as <-. by apply JointInv_ejected.
    + rewrite Outtake_empty in He by (by apply last_None).
      by injection He as <-.
  - injection He as <-. apply (JointInv_same w); auto. simpl.
    apply Update_mHeldBlocks.
  - injection He as <-. by apply (JointInv_same w).
Qed.

Lemma JointInv_run es w w' :
  WorldInv w -> JointInv w -> run es w = Some w' -> JointInv w'.
Proof.
  revert w. induction es as [|e es IH]; intros w Hinv Hj Hrun; simpl in Hrun.
  - by injection Hrun as <-.
  - destruct (exec e w) as [w1|] eqn:He; [| discriminate].
    simpl in Hrun. eapply (IH w1); [| | exact Hrun].
    + by eapply WorldInv_exec.
    + by eapply JointInv_exec.
Qed.

Lemma JointInv_start ok pos : JointInv (startWorld ok pos).
Proof.
  split; simpl; rewrite ?Initialize_mHeldBlocks; simpl.
  - intros hb Hin. by apply elem_of_nil in Hin.
  - intros j fj Hl. by rewrite lookup_empty in Hl.
  - intros j _. apply lookup_empty.
  - apply map_size_empty.
  - apply NoDup_nil_2.
Qed.

(** X1. In every state a session can reach, the fixed joints alive in the
    engine are exactly those of the [HeldBlock] records: each record holds a
    live joint that ties the chassis to the record's block, every live joint
    belongs to a record, no two records share a joint, and there are as
    many joints as held blocks.  No joint leaks and none dangles. *)
Theorem joints_match_records (w : World) :
  Reachable w ->
  (forall hb, hb ∈ mHeldBlocks (robot w) ->
     exists j, joint hb = Some j
               /\ fixedJoints w !! j = Some (intakeJoint (block hb)))
  /\ (forall j fj, fixedJoints w !! j = Some fj ->
        exists hb, hb ∈ mHeldBlocks (robot w) /\ joint hb = Some j
                   /\ fj_block fj = block hb)
  /\ NoDup (joint <$> mHeldBlocks (robot w))
  /\ size (fixedJoints w) = GetHeldCount (robot w)
  /\ (mHeldBlocks (robot w) = [] -> fixedJoints w = ∅).
Proof.
  intros (ok & pos & es & Hrun).
  assert (Hj : JointInv w).
  { eapply JointInv_run; [apply WorldInv_start | apply JointInv_start | exact Hrun]. }
  destruct Hj as [H1 H2 H3 H4 H5].
  split; [exact H1 |]. split; [| split; [exact H5 | split; [exact H4 |]]].
  - intros j fj Hl. destruct (H2 j fj Hl) as (hb & Hin & Hjn).
    exists hb. split; [exact Hin |]. split; [exact Hjn |].
    destruct (H1 hb Hin) as (j' & Hj' & Hl'). rewrite Hjn in Hj'.
    injection Hj' as <-. rewrite Hl in Hl'. by injection Hl' as ->.
  - intros Hnil. apply map_size_empty_inv. by rewrite H4, Hnil.
Qed.

Lemma joints_match_records_witness :
  Reachable fullIntake
  /\ size (fixedJoints fullIntake) = 8
  /\ (forall hb, hb ∈ mHeldBlocks (robot fullIntake) ->
        exists j, joint hb = Some j
                  /\ fixedJoints fullIntake !! j = Some (intakeJoint (block hb))).
Proof.
  assert (HR : Reachable fullIntake).
  { apply (after_Reachable fillEvents). vm_compute. reflexivity. }
  destruct (joints_match_records fullIntake HR) as (H1 & _ & _ & H4 & _).
  split; [exact HR |]. split; [rewrite H4; vm_compute; reflexivity | exact H1].
Defined.

(** ** Held count and round trip *)

Lemma Outtake_count w w' :
  Outtake w = Some w' ->
  GetHeldCount (robot w') = GetHeldCount (robot w) - 1.
Proof.
  unfold Outtake, GetHeldCount. intros H.
  destruct (last (mHeldBlocks (robot w))) as [hb|] eqn:Hl.
  - assert (Hlen : length (removelast (mHeldBlocks (robot w)))
                   = length (mHeldBlocks (robot w)) - 1).
    { rewrite (held_split _ _ Hl) at 2. rewrite length_app. simpl. lia. }
    simpl in H.
    destruct (blocks w !! block hb) as [blk|]; [| by injection H as <-].
    destruct (body blk) as [b|]; [| by injection H as <-].
    destruct (joint hb); simpl in H;
      (destruct (mChassis (robot w)); [| discriminate]);
      injection H as <-; exact Hlen.
  - injection H as <-. apply last_None in Hl. rewrite Hl. reflexivity.
Qed.

Lemma TryIntake_count created i w :
  GetHeldCount (robot (snd (TryIntake created i w)))
  = GetHeldCount (robot w) + (if fst (TryIntake created i w) then 1 else 0).
Proof.
  destruct (TryIntake_cases created i w) as [E | (blk & chassis & b & R)].
  - rewrite E. simpl. lia.
  - rewrite (TryIntake_ready created _ _ _ _ _ R).
    destruct created; unfold GetHeldCount; simpl.
    + rewrite length_app. reflexivity.
    + lia.
Qed.

(** X2. The held count moves by whole blocks: [TryIntake] adds one exactly
    when it returns true (which needs the engine to have created the joint
    and the robot not to be full) and otherwise leaves the count; in a state
    a session can reach [Outtake] returns without fault and takes one off
    unless nothing is held; [HasBlock] says whether the count is positive. *)
Theorem held_count_accounting (w : World) :
  Reachable w ->
  (forall created i,
     GetHeldCount (robot (snd (TryIntake created i w)))
     = GetHeldCount (robot w) + (if fst (TryIntake created i w) then 1 else 0)
     /\ (fst (TryIntake created i w) = true ->
         created = true /\ GetHeldCount (robot w) < 8))
  /\ (exists w', Outtake w = Some w'
                 /\ GetHeldCount (robot w') = GetHeldCount (robot w) - 1
                 /\ length (blocks w') = length (blocks w))
  /\ (HasBlock (robot w) = true <-> 0 < GetHeldCount (robot w)).
Proof.
  intros HR. pose proof (Reachable_inv w HR) as Hinv. split; [| split].
  - intros created i. split; [apply TryIntake_count |].
    intros Ht. destruct (TryIntake created i w) as [r w1] eqn:E.
    simpl in Ht. subst r.
    apply TryIntake_true in E as (-> & blk & ch & b & R & _).
    split; [reflexivity |].
    destruct R as (_ & _ & _ & _ & Hfull & _).
    unfold IsIntakeFull, MAX_HELD_BLOCKS in Hfull.
    apply Nat.leb_gt in Hfull. exact Hfull.
  - destruct (Outtake_total w Hinv) as (w' & Ho & _).
    exists w'. split; [exact Ho |]. split; [by apply Outtake_count |].
    unfold Outtake in Ho.
    destruct (last (mHeldBlocks (robot w))) as [hb|]; [| by injection Ho as <-].
    simpl in Ho.
    destruct (blocks w !! block hb) as [blk|]; [| by injection Ho as <-].
    destruct (body blk) as [b|]; [| by injection Ho as <-].
    destruct (joint hb); simpl in Ho;
      (destruct (mChassis (robot w)); [| discriminate]);
      injection Ho as <-; simpl; apply length_insert.
  - unfold HasBlock, GetHeldCount.
    destruct (mHeldBlocks (robot w)); simpl; split; intros; (lia || congruence).
Qed.

Lemma held_count_accounting_witness :
  Reachable oneHeld
  /\ GetHeldCount (robot oneHeld) = 1
  /\ GetHeldCount (robot (snd (TryIntake true 1 oneHeld))) = 2
  /\ (exists w', Outtake oneHeld = Some w' /\ GetHeldCount (robot w') = 0).
Proof.
  assert (HR : Reachable oneHeld).
  { apply (after_Reachable (spawnAndIntake 0 ++ [EvSpawn spawnOk BLUE spawnPosition])).
    vm_compute. reflexivity. }
  destruct (held_count_accounting oneHeld HR) as (Hin & (w' & Ho & Hc & _) & _).
  split; [exact HR |]. split; [reflexivity |]. split.
  - rewrite (proj1 (Hin true 1)). vm_compute. reflexivity.
  - exists w'. split; [exact Ho |]. rewrite Hc. reflexivity.
Defined.

Lemma ejectedBody_motion chassis b :
  globalPose (ejectedBody chassis b)
  = globalPose (ejectedBody chassis (createRigidDynamic PxTransform_identity))
  /\ linearVelocity (ejectedBody chassis b)
     = vscale (rotate (t_q (globalPose chassis))
                      (mkVec3 F32.zero F32.zero F32.one)) F32.one
  /\ angularVelocity (ejectedBody chassis b) = PxVec3_all F32.zero.
Proof.
  unfold ejectedBody, setFirstShapeFilter. simpl.
  destruct (shapes b); simpl; auto.
Qed.

(** X3. Intake then outtake is a round trip for the robot's bookkeeping: in
    a state a session can reach, after a successful [TryIntake] of block [i]
    an [Outtake] returns without fault, the records, the robot and the
    engine's joints are those from before the intake, every other block is
    untouched, and block [i] is free again with the block filter row and its
    colour.  Where it lands and its velocity depend on the chassis pose
    only, not on where it was picked up. *)
Theorem intake_outtake_round_trip (w w1 : World) (created : bool) (i : nat) :
  Reachable w ->
  TryIntake created i w = (true, w1) ->
  exists w2 blk b chassis,
    Outtake w1 = Some w2
    /\ blocks w !! i = Some blk /\ body blk = Some b
    /\ mChassis (robot w) = Some chassis
    /\ robot w2 = robot w
    /\ fixedJoints w2 = fixedJoints w
    /\ blocks w2
       = <[i := mkBlock (Some (ejectedBody chassis (heldBody chassis b)))
                        (color blk) false]> (blocks w)
    /\ shapes (ejectedBody chassis (heldBody chassis b)) = [blockFilterData]
    /\ (forall b', globalPose (ejectedBody chassis b')
                   = globalPose (ejectedBody chassis b)
                   /\ linearVelocity (ejectedBody chassis b')
                      = linearVelocity (ejectedBody chassis b)
                   /\ angularVelocity (ejectedBody chassis b')
                      = PxVec3_all F32.zero).
Proof.
  intros HR H.
  pose proof (Reachable_inv w HR) as Hinv.
  destruct HR as (ok & pos & es & Hrun).
  assert (Hj : JointInv w).
  { eapply JointInv_run; [apply WorldInv_start | apply JointInv_start | exact Hrun]. }
  apply TryIntake_true in H as (_ & blk & ch & b & R & ->).
  destruct (attachedWorld_facts _ _ _ _ _ R) as (L & C & B & O).
  destruct R as (Hb & Hc & Hh & Hbody & Hfull & Hd).
  set (hb := mkHeld i (Some (nextJoint w))).
  assert (Hl : last (mHeldBlocks (robot (attachedWorld i blk ch b w))) = Some hb)
    by (rewrite L; apply last_snoc).
  pose proof (Outtake_eject _ hb _ ch _ Hl B eq_refl C) as Ho.
  eexists _, blk, b, ch. split; [exact Ho |].
  destruct (inv_body w Hinv _ _ Hb) as (b0 & Hb0 & Hs).
  rewrite Hbody in Hb0. injection Hb0 as <-.
  assert (Hs1 : exists s, shapes b = [s])
    by (destruct Hs as [Hs | [_ Hs]]; eauto).
  destruct Hs1 as [s Hs1].
  repeat split; auto;
    try (pose proof (ejectedBody_motion ch b) as (E1 & E2 & E3);
         pose proof (ejectedBody_motion ch b') as (F1 & F2 & F3); congruence).
  - simpl. rewrite removelast_last. unfold set_mHeldBlocks. simpl.
    by destruct (robot w).
  - simpl. apply delete_insert_id. apply (jinv_fresh w Hj). lia.
  - simpl. apply list_insert_insert_eq.
  - eapply ejectedBody_shapes. eapply heldBody_shapes. exact Hs1.
Qed.

Lemma intake_outtake_round_trip_witness :
  exists w2,
    Outtake (snd (TryIntake true 1 oneHeld)) = Some w2
    /\ robot w2 = robot oneHeld
    /\ fixedJoints w2 = fixedJoints oneHeld
    /\ held <$> blocks w2 = [true; false].
Proof.
  assert (HR : Reachable oneHeld).
  { apply (after_Reachable (spawnAndIntake 0 ++ [EvSpawn spawnOk BLUE spawnPosition])).
    vm_compute. reflexivity. }
  assert (Hi : TryIntake true 1 oneHeld = (true, snd (TryIntake true 1 oneHeld)))
    by (vm_compute; reflexivity).
  destruct (intake_outtake_round_trip oneHeld _ true 1 HR Hi)
    as (w2 & blk & b & ch & Ho & _ & _ & _ & Hr & Hf & Hb & _).
  exists w2. split; [exact Ho |]. split; [exact Hr |]. split; [exact Hf |].
  rewrite Hb. vm_compute. reflexivity.
Defined.

(** ** The scan of the intake handler: cutoff and ties *)

Lemma leb_ltb_trans (a b c : float) :
  F32.leb a b = true -> F32.ltb b c = true -> F32.ltb a c = true.
Proof.
  unfold F32.ltb, F32.leb, SFltb, SFleb.
  destruct a as [sa|sa| |sa ma ea], b as [sb|sb| |sb mb eb],
           c as [sc|sc| |sc mc ec];
    try (destruct sa); try (destruct sb); try (destruct sc);
    try (simpl; congruence);
    rewrite ?SFcompare_finite_pos, ?SFcompare_finite_neg;
    intros H1 H2; order_cases.
Qed.

Lemma ltb_not_leb (a b : float) : F32.ltb a b = true -> F32.leb b a = false.
Proof.
  intros H. destruct (F32.leb b a) eqn:E; [| reflexivity].
  pose proof (leb_ltb_trans _ _ _ E H) as F. by rewrite ltb_irrefl in F.
Qed.

(** When the scan changes its choice, every candidate before the chosen
    block is strictly farther than it. *)
Lemma scanBlocks_first r bs : forall i0 bd bb bd' bb',
  scanBlocks r bs i0 bd bb = (bd', bb') ->
  (bd' = bd /\ bb' = bb)
  \/ exists j g b,
       bb' = Some (i0 + j) /\ bs !! j = Some g /\ held g = false
       /\ body g = Some b /\ frontDistance r b = bd' /\ F32.ltb bd' bd = true
       /\ forall k gk bk, k < j -> bs !! k = Some gk -> held gk = false ->
            body gk = Some bk -> F32.leb (frontDistance r bk) bd' = false.
Proof.
  induction bs as [|blk rest IH]; intros i0 bd bb bd' bb' H; simpl in H.
  - injection H as <- <-. by left.
  - assert (Skip : scanBlocks r rest (S i0) bd bb = (bd', bb') ->
             (forall b, held blk = false -> body blk = Some b ->
                        F32.ltb (frontDistance r b) bd = false) ->
             (bd' = bd /\ bb' = bb)
             \/ exists j g b,
                  bb' = Some (i0 + j) /\ (blk :: rest) !! j = Some g
                  /\ held g = false /\ body g = Some b
                  /\ frontDistance r b = bd' /\ F32.ltb bd' bd = true
                  /\ forall k gk bk, k < j -> (blk :: rest) !! k = Some gk ->
                       held gk = false -> body gk = Some bk ->
                       F32.leb (frontDistance r bk) bd' = false).
    { intros Hs Hhead.
      destruct (IH _ _ _ _ _ Hs)
        as [? | (j & g & b & -> & Hj & Hh & Hb & Hd & Hlt & Hbefore)]; [by left |].
      right. exists (S j), g, b. split; [f_equal; lia |].
      repeat split; auto.
      intros [|k] gk bk Hk Hgk Hhk Hbk; simpl in Hgk.
      - injection Hgk as <-.
        destruct (F32.leb (frontDistance r bk) bd') eqn:E; [| reflexivity].
        pose proof (leb_ltb_trans _ _ _ E Hlt) as F.
        rewrite (Hhead bk Hhk Hbk) in F. discriminate.
      - eapply Hbefore; eauto. lia. }
    destruct (held blk) eqn:Hh.
    { apply Skip; [exact H |]. intros; discriminate. }
    destruct (body blk) as [b0|] eqn:Hb0.
    2:{ apply Skip; [exact H |]. intros; discriminate. }
    destruct (F32.ltb (frontDistance r b0) bd) eqn:Hlt.
    2:{ apply Skip; [exact H |]. intros b _ Hb. injection Hb as <-. exact Hlt. }
    right.
    destruct (IH _ _ _ _ _ H)
      as [[-> ->] | (j & g & b & -> & Hj & Hhg & Hb & Hd & Hlt' & Hbefore)].
    + exists 0, blk, b0. split; [f_equal; lia |]. repeat split; auto.
      intros k gk bk Hk. lia.
    + exists (S j), g, b. split; [f_equal; lia |]. repeat split; auto.
      * by eapply ltb_trans.
      * intros [|k] gk bk Hk Hgk Hhk Hbk; simpl in Hgk.
        -- injection Hgk as <-. rewrite Hb0 in Hbk. injection Hbk as <-.
           by apply ltb_not_leb.
        -- eapply Hbefore; eauto. lia.
Qed.

(** X4. What the intake handler's scan picks.  It picks nothing exactly
    when no unheld block with a body is closer than 999 to the front
    position.  The block it picks is unheld, at a distance that is a
    number below 999, and the first of the nearest ones: every unheld
    block before it in the list is not at most as near, so strictly
    farther away if its distance is a number; and no unheld block of the
    list is strictly nearer, those at a distance that is a number being at
    least as far.  A block whose distance is not a number is never
    picked. *)
Theorem nearestBlock_cutoff_and_ties (w : World) :
  (nearestBlock w = None <->
   forall j g b, blocks w !! j = Some g -> held g = false -> body g = Some b ->
     F32.ltb (frontDistance (robot w) b) (F32.of_Z 999) = false)
  /\ (forall i, nearestBlock w = Some i ->
        exists g b,
          blocks w !! i = Some g /\ held g = false /\ body g = Some b
          /\ F32.is_nan (frontDistance (robot w) b) = false
          /\ F32.ltb (frontDistance (robot w) b) (F32.of_Z 999) = true
          /\ (forall k gk bk, k < i -> blocks w !! k = Some gk ->
                held gk = false -> body gk = Some bk ->
                F32.leb (frontDistance (robot w) bk)
                        (frontDistance (robot w) b) = false
                /\ (F32.is_nan (frontDistance (robot w) bk) = false ->
                    F32.ltb (frontDistance (robot w) b)
                            (frontDistance (robot w) bk) = true))
          /\ (forall j gj bj, blocks w !! j = Some gj ->
                held gj = false -> body gj = Some bj ->
                F32.ltb (frontDistance (robot w) bj)
                        (frontDistance (robot w) b) = false
                /\ (F32.is_nan (frontDistance (robot w) bj) = false ->
                    F32.leb (frontDistance (robot w) b)
                            (frontDistance (robot w) bj) = true))).
Proof.
  unfold nearestBlock.
  destruct (scanBlocks (robot w) (blocks w) 0 (F32.of_Z 999) None)
    as [bd' bb'] eqn:Hs. cbn [snd].
  destruct (scanBlocks_spec _ _ _ _ _ _ _ Hs) as (_ & Hall & _).
  destruct (scanBlocks_first _ _ _ _ _ _ _ Hs)
    as [[-> ->] | (j & g & b & -> & Hj & Hh & Hb & Hd & Hlt & Hbefore)].
  - split; [split; [intros _; exact Hall | reflexivity] | discriminate].
  - split.
    + split; [discriminate |]. intros Hnone.
      rewrite <- Hd, (Hnone j g b Hj Hh Hb) in Hlt. discriminate.
    + intros i Hi. injection Hi as <-. exists g, b.
      destruct (ltb_not_nan _ _ Hlt) as [Hn _].
      rewrite Hd.
      split; [exact Hj |]. split; [exact Hh |]. split; [exact Hb |].
      split; [exact Hn |]. split; [exact Hlt |]. split.
      * intros k gk bk Hk Hgk Hhk Hbk.
        pose proof (Hbefore k gk bk Hk Hgk Hhk Hbk) as Hfar.
        split; [exact Hfar |]. intros Hnk. by apply not_leb_ltb.
      * intros i gi bi Hgi Hhi Hbi.
        pose proof (Hall i gi bi Hgi Hhi Hbi) as Hnear.
        split; [exact Hnear |]. intros Hni. by apply not_gt_leb.
Qed.

(** Three blocks at the same place: the first one is picked.  With no
    block there is nothing to pick; with eight held and one free, the free
    one is picked; with the first block at a distance that is not a
    number, the second is picked. *)
Example nearestBlock_examples :
  nearestBlock threeSpawned = Some 0
  /\ nearestBlock mainStart = None
  /\ nearestBlock fullIntake = Some 8
  /\ nearestBlock lostAndNear = Some 1.
Proof. repeat split; vm_compute; reflexivity. Qed.

(** ** The filter policy in force *)

Section FilterPolicy.

Variable Attr : Type.
Variable isTrigger : Attr -> bool.
Variables TRIGGER_DEFAULT CONTACT_DEFAULT NOTIFY_TOUCH_FOUND : Z.

Local Abbreviation shader :=
  (VehicleFilterShader Attr isTrigger TRIGGER_DEFAULT CONTACT_DEFAULT
                       NOTIFY_TOUCH_FOUND).

(** X5. The shader treats its two objects alike: swapping them, attributes
    and filter data together, never changes the verdict or the pair flags. *)
Theorem VehicleFilterShader_symmetric
    (a0 a1 : Attr) (fd0 fd1 : PxFilterData) (pairFlags : Z) :
  shader a0 fd0 a1 fd1 pairFlags = shader a1 fd1 a0 fd0 pairFlags.
Proof.
  unfold VehicleFilterShader.
  rewrite (orb_comm (isTrigger a0)).
  rewrite (andb_comm (truthy (Z.land (word0 fd0) (word1 fd1)))).
  reflexivity.
Qed.

(** X6. A held block collides with nothing.  In every state a session can
    reach, each shape of a held block carries all-zero filter data, and the
    shader suppresses every pair such a shape is part of, on either side,
    whatever the other shape's filter data (triggers apart). *)
Theorem held_block_is_suppressed
    (w : World) (i : nat) (g : GameBlock) (b : PxRigidDynamic)
    (s other : PxFilterData) (a0 a1 : Attr) (pairFlags : Z) :
  Reachable w ->
  blocks w !! i = Some g -> held g = true -> body g = Some b ->
  s ∈ shapes b ->
  isTrigger a0 = false -> isTrigger a1 = false ->
  s = zeroFilterData
  /\ shader a0 s a1 other pairFlags = (eSUPPRESS, pairFlags)
  /\ shader a0 other a1 s pairFlags = (eSUPPRESS, pairFlags).
Proof.
  intros HR Hg Hh Hb Hs Ht0 Ht1.
  destruct (inv_body w (Reachable_inv w HR) i g Hg) as (b0 & Hb0 & Hsh).
  rewrite Hb in Hb0. injection Hb0 as <-.
  destruct Hsh as [Hsh | [Hf _]]; [| congruence].
  rewrite Hsh in Hs. apply list_elem_of_singleton in Hs as ->.
  split; [reflexivity |].
  unfold VehicleFilterShader. rewrite Ht0, Ht1.
  cbn [orb zeroFilterData set_word0 set_word1 word0 word1 PxFilterData_default].
  rewrite Z.land_0_l, Z.land_0_r. cbn [truthy Z.eqb negb andb].
  rewrite ?andb_false_r. split; reflexivity.
Qed.

End FilterPolicy.

Lemma held_block_is_suppressed_witness :
  exists g b,
    blocks oneHeld !! 0 = Some g /\ held g = true /\ body g = Some b
    /\ shapes b = [zeroFilterData]
    /\ VehicleFilterShader bool (fun a => a) 1%Z 2%Z 4%Z
         false zeroFilterData false chassisFilterData 0%Z = (eSUPPRESS, 0%Z)
    /\ VehicleFilterShader bool (fun a => a) 1%Z 2%Z 4%Z
         false chassisFilterData false zeroFilterData 0%Z = (eSUPPRESS, 0%Z).
Proof.
  assert (HR : Reachable oneHeld).
  { apply (after_Reachable (spawnAndIntake 0 ++ [EvSpawn spawnOk BLUE spawnPosition])).
    vm_compute. reflexivity. }
  pose (g := default (mkBlock None RED false) (blocks oneHeld !! 0)).
  pose (b := default (createRigidDynamic PxTransform_identity) (body g)).
  assert (Hg : blocks oneHeld !! 0 = Some g) by (vm_compute; reflexivity).
  assert (Hh : held g = true) by (vm_compute; reflexivity).
  assert (Hb : body g = Some b) by (vm_compute; reflexivity).
  assert (Hs : shapes b = [zeroFilterData]) by (vm_compute; reflexivity).
  assert (Hin : zeroFilterData ∈ shapes b)
    by (rewrite Hs; apply list_elem_of_here).
  destruct (held_block_is_suppressed bool (fun a => a) 1%Z 2%Z 4%Z
              oneHeld 0 g b zeroFilterData chassisFilterData false false 0%Z
              HR Hg Hh Hb Hin eq_refl eq_refl) as (_ & H1 & H2).
  exists g, b. auto 10.
Defined.

(** ** The collision matrix of a session *)

Lemma Update_mWheels dt r : mWheels (Update dt r) = mWheels r.
Proof. unfold Update. destruct (mChassis r); reflexivity. Qed.

Lemma robotShapes_exec e w w' :
  exec e w = Some w' -> robotShapes w' = robotShapes w.
Proof.
  destruct e as [l r | created c pos | created i | | dt | sim dt]; simpl.
  - by intros [= <-].
  - rewrite SpawnBlock_spawns. destruct (spawns created); [| discriminate].
    by intros [= <-].
  - intros [= <-].
    destruct (TryIntake_cases created i w) as [E | (blk & chassis & b & R)].
    + by rewrite E.
    + rewrite (TryIntake_ready created _ _ _ _ _ R). by destruct created.
  - unfold Outtake. intros H.
    destruct (last (mHeldBlocks (robot w))) as [hb|]; [| by injection H as <-].
    simpl in H.
    destruct (blocks w !! block hb) as [blk|]; [| by injection H as <-].
    destruct (body blk) as [b|]; [| by injection H as <-].
    destruct (joint hb); simpl in H;
      (destruct (mChassis (robot w)) eqn:Hc; [| discriminate]);
      injection H as <-; unfold robotShapes; simpl; by rewrite Hc.
  - intros [= <-]. unfold robotShapes. simpl.
    by rewrite Update_mChassis, Update_mWheels.
  - intros [= <-]. unfold robotShapes. simpl. f_equal.
    + by destruct (mChassis (robot w)).
    + apply list_eq. intros i.
      rewrite !list_lookup_fmap, list_lookup_imap.
      by destruct (mWheels (robot w) !! i).
Qed.

Lemma robotShapes_run es : forall w w',
  run es w = Some w' -> robotShapes w' = robotShapes w.
Proof.
  induction es as [|e es IH]; intros w w' H; simpl in H.
  - by injection H as <-.
  - destruct (exec e w) as [w1|] eqn:He; [| discriminate]. simpl in H.
    rewrite (IH _ _ H). by eapply robotShapes_exec.
Qed.

(** X7. The collision matrix of a session.  The filter data that
    [Initialize] gives the chassis and [CreateWheels] the eight wheels is
    never changed afterwards: in every state a session can reach the
    chassis, if there is one, carries the chassis row and every wheel the
    wheel row, and each block carries either the block row [SpawnBlock]
    gave it or, once taken in, all zeros.  Under the shader these rows and
    the row main gives the field mean: a wheel collides neither with the
    chassis nor with another wheel, the field not with itself, and field,
    chassis and wheel each collide with a block that carries the block
    row, as do two such blocks, and chassis and wheel with the field. *)
Theorem installed_collision_matrix (w : World) :
  Reachable w ->
  (forall chassis, mChassis (robot w) = Some chassis ->
     shapes chassis = [chassisFilterData]
     /\ shapes <$> mWheels (robot w) = replicate 8 [wheelFilterData])
  /\ (forall i g, blocks w !! i = Some g ->
        exists b, body g = Some b
                  /\ (shapes b = [blockFilterData] /\ held g = false
                      \/ shapes b = [zeroFilterData]))
  /\ collide wheelFilterData chassisFilterData = false
  /\ collide wheelFilterData wheelFilterData = false
  /\ collide groundFilterData groundFilterData = false
  /\ collide groundFilterData chassisFilterData = true
  /\ collide groundFilterData wheelFilterData = true
  /\ collide groundFilterData blockFilterData = true
  /\ collide chassisFilterData blockFilterData = true
  /\ collide wheelFilterData blockFilterData = true
  /\ collide blockFilterData blockFilterData = true.
Proof.
  intros HR. pose proof (Reachable_inv w HR) as Hinv.
  destruct HR as (ok & pos & es & Hrun).
  apply robotShapes_run in Hrun.
  split; [| split; [| repeat split; reflexivity]].
  - intros chassis Hc. destruct ok.
    + change (robotShapes (startWorld true pos))
        with (Some [chassisFilterData], replicate 8 [wheelFilterData]) in Hrun.
      unfold robotShapes in Hrun. rewrite Hc in Hrun.
      injection Hrun as H1 H2. auto.
    + unfold robotShapes in Hrun. rewrite Hc in Hrun. discriminate.
  - intros i g Hg. destruct (inv_body w Hinv i g Hg) as (b & Hb & Hs).
    exists b. split; [exact Hb |]. tauto.
Qed.

Lemma installed_collision_matrix_witness :
  exists chassis,
    mChassis (robot oneHeld) = Some chassis
    /\ shapes chassis = [chassisFilterData]
    /\ shapes <$> mWheels (robot oneHeld) = replicate 8 [wheelFilterData].
Proof.
  assert (HR : Reachable oneHeld).
  { apply (after_Reachable (spawnAndIntake 0 ++ [EvSpawn spawnOk BLUE spawnPosition])).
    vm_compute. reflexivity. }
  pose (chassis := default (createRigidDynamic PxTransform_identity)
                           (mChassis (robot oneHeld))).
  assert (Hc : mChassis (robot oneHeld) = Some chassis)
    by (vm_compute; reflexivity).
  destruct (proj1 (installed_collision_matrix oneHeld HR) chassis Hc) as [H1 H2].
  exists chassis. auto.
Defined.

(** ** Robot::Update keeps no history *)

Lemma imap_setters (f g : nat -> float) (l : list PxRevoluteJoint) (v v' : float) :
  imap (fun i j => setDriveForceLimit v (setDriveVelocity (f i) j))
       (imap (fun i j => setDriveForceLimit v' (setDriveVelocity (g i) j)) l)
  = imap (fun i j => setDriveForceLimit v (setDriveVelocity (f i) j)) l.
Proof.
  apply list_eq. intros i. rewrite !list_lookup_imap.
  destruct (l !! i) as [j|]; reflexivity.
Qed.

(** X8. [Robot::Update] keeps no history.  Its argument [dt] is never
    used; what it leaves in the wheel joints depends on the stored inputs
    alone, so the commands of an earlier [Update] (under any earlier
    inputs) are overwritten without trace, and a second [Update] with the
    same inputs changes nothing. *)
Theorem Update_keeps_no_history (dt dt' left right left' right' : float) (r : Robot) :
  Update dt r = Update dt' r
  /\ Update dt (SetDriveInput left right (Update dt' (SetDriveInput left' right' r)))
     = Update dt (SetDriveInput left right r)
  /\ Update dt (Update dt' r) = Update dt' r.
Proof.
  split; [reflexivity |].
  destruct r as [ch wh js hs ti tu]. unfold Update, SetDriveInput.
  destruct ch as [c|]; simpl; split; try reflexivity;
    unfold set_mWheelJoints; simpl; f_equal; apply imap_setters.
Qed.

(** ** The frame loop stays inside the sessions *)

Lemma run_app es es' w : run (es ++ es') w = run es w ≫= run es'.
Proof.
  revert w. induction es as [|e es IH]; intros w; simpl; [reflexivity |].
  destruct (exec e w) as [w1|]; simpl; [apply IH | reflexivity].
Qed.

Lemma Steps_refl w : Steps w w.
Proof. by exists []. Qed.

Lemma Steps_trans w1 w2 w3 : Steps w1 w2 -> Steps w2 w3 -> Steps w1 w3.
Proof.
  intros [es1 H1] [es2 H2]. exists (es1 ++ es2).
  rewrite run_app, H1. exact H2.
Qed.

Lemma Steps_exec e w w' : exec e w = Some w' -> Steps w w'.
Proof. intros H. exists [e]. simpl. rewrite H. reflexivity. Qed.

Lemma Steps_Reachable w w' : Reachable w -> Steps w w' -> Reachable w'.
Proof.
  intros (ok & pos & es & H) [es' H']. exists ok, pos, (es ++ es').
  rewrite run_app, H. exact H'.
Qed.


Lemma Steps_rounds sim n w :
  Steps w (Nat.iter n (fun x => PhysicsWorld_Update sim physicsTimestep
                                  (Robot_Update physicsTimestep x)) w).
Proof.
  induction n as [|n IH]; [apply Steps_refl |].
  rewrite Nat.iter_succ. eapply Steps_trans; [exact IH |].
  exists [EvUpdate physicsTimestep; EvPhysicsUpdate sim physicsTimestep].
  reflexivity.
Qed.

Lemma Steps_drain sim fuel acc w r :
  physicsDrain sim fuel acc w = Some r ->
  Steps w (snd r) /\ F32.leb physicsTimestep (fst r) = false.
Proof.
  destruct r as [acc' w']. intros H.
  destruct (drain_shape _ _ _ _ _ _ _ H) as (n & _ & -> & _ & Hstop).
  split; [apply Steps_rounds | exact Hstop].
Qed.

Lemma Steps_spawnHandler pressed was created c w w' :
  spawnHandler pressed was created c w = Some w' -> Steps w w'.
Proof.
  unfold spawnHandler. destruct (pressed && negb was).
  - intros H. eapply (Steps_exec (EvSpawn created c _)). exact H.
  - intros [= <-]. apply Steps_refl.
Qed.

Lemma Steps_intakeHandler pressed was created w :
  Steps w (snd (intakeHandler pressed was created w)).
Proof.
  unfold intakeHandler.
  destruct (pressed && negb was && negb (IsIntakeFull (robot w)));
    [| apply Steps_refl].
  destruct (nearestBlock w) as [i|]; [| apply Steps_refl].
  by apply (Steps_exec (EvTryIntake created i)).
Qed.

Lemma Steps_outtakeHandler pressed was w w' :
  outtakeHandler pressed was w = Some w' -> Steps w w'.
Proof.
  unfold outtakeHandler. destruct (pressed && negb was).
  - apply (Steps_exec EvOuttake).
  - intros [= <-]. apply Steps_refl.
Qed.

Lemma Steps_SetDriveInput left right w :
  Steps w (set_robot (SetDriveInput left right (robot w)) w).
Proof. by apply (Steps_exec (EvSetDriveInput left right)). Qed.

(** A completed pass that found the framebuffer resized has changed none
    of the loop variables. *)
Lemma frame_resized fuel fi l l' :
  resized fi = true -> frame fuel fi l = Some l' -> l' = l.
Proof.
  intros Hr H. unfold frame in H. rewrite Hr in H.
  destruct (resizeHandler fi); [| discriminate]. by injection H as <-.
Qed.

(** The worlds a pass goes through. *)
Lemma frame_inv fuel fi l l' :
  frame fuel fi l = Some l' -> resized fi = false ->
  let k := keys fi in
  let w0 := set_robot (SetDriveInput (fst (driveInput k)) (snd (driveInput k))
                                     (robot (world l))) (world l) in
  exists w1 w2 w3,
    spawnHandler (keyR k) (rWas l) (redSpawn fi) RED w0 = Some w1
    /\ spawnHandler (keyB k) (bWas l) (blueSpawn fi) BLUE w1 = Some w2
    /\ outtakeHandler (keyG k) (gWas l)
         (snd (intakeHandler (keyF k) (fWas l) (intakeJointCreated fi) w2))
       = Some w3
    /\ frameDrain (simulation fi) fuel (frameTime fi) (accumulator l) w3
       = Some (accumulator l', world l')
    /\ (rWas l', bWas l', fWas l', gWas l') = (keyR k, keyB k, keyF k, keyG k).
Proof.
  intros H Hr. unfold frame in H. rewrite Hr in H. simpl.
  destruct (spawnHandler (keyR (keys fi)) _ _ _ _) as [w1|] eqn:H1;
    [| discriminate].
  simpl in H.
  destruct (spawnHandler (keyB (keys fi)) _ _ _ _) as [w2|] eqn:H2;
    [| discriminate].
  simpl in H.
  destruct (outtakeHandler _ _ _) as [w3|] eqn:H3; [| discriminate].
  simpl in H.
  destruct (frameDrain _ _ _ _ _) as [[acc' w4]|] eqn:H4; [| discriminate].
  simpl in H. destruct (drawn fi); [| discriminate].
  simpl in H. injection H as <-. simpl. exists w1, w2, w3. auto 10.
Qed.

Lemma frame_Steps fuel fi l l' :
  frame fuel fi l = Some l' ->
  Steps (world l) (world l')
  /\ (F32.leb physicsTimestep (accumulator l) = false ->
      F32.leb physicsTimestep (accumulator l') = false).
Proof.
  intros H. destruct (resized fi) eqn:Hr.
  - apply (frame_resized _ _ _ _ Hr) in H as ->.
    split; [apply Steps_refl | auto].
  - destruct (frame_inv _ _ _ _ H Hr) as (w1 & w2 & w3 & H1 & H2 & H3 & H4 & _).
    apply Steps_drain in H4 as [H4 Hacc]. simpl in H4, Hacc. split; [| auto].
    eapply Steps_trans; [apply Steps_SetDriveInput |].
    eapply Steps_trans; [eapply Steps_spawnHandler, H1 |].
    eapply Steps_trans; [eapply Steps_spawnHandler, H2 |].
    eapply Steps_trans; [apply Steps_intakeHandler |].
    eapply Steps_trans; [eapply Steps_outtakeHandler, H3 |].
    exact H4.
Qed.

Lemma frames_inv fuel : forall fis l0 l1,
  frames fuel fis l0 = Some l1 ->
  Reachable (world l0) ->
  F32.leb physicsTimestep (accumulator l0) = false ->
  Reachable (world l1) /\ F32.leb physicsTimestep (accumulator l1) = false.
Proof.
  induction fis as [|fi fis IH]; intros l0 l1 H HR Ha; simpl in H.
  - injection H as <-. auto.
  - destruct (frame fuel fi l0) as [l'|] eqn:Hf; [| discriminate].
    simpl in H. destruct (frame_Steps _ _ _ _ Hf) as [Hs Hacc].
    apply (IH _ _ H); [by eapply Steps_Reachable | auto].
Qed.

Lemma loopStart_Reachable ok : Reachable (world (loopStart ok)).
Proof. eexists ok, _, []. reflexivity. Qed.

(** ** Results that are numbers *)

Lemma shr_1_nonneg mrs : (0 <= shr_m mrs)%Z -> (0 <= shr_m (shr_1 mrs))%Z.
Proof. destruct mrs as [[|[p|p|]|p] r s]; simpl; lia. Qed.

Lemma iter_shr_1_nonneg p : forall mrs,
  (0 <= shr_m mrs)%Z -> (0 <= shr_m (SpecFloat.iter_pos shr_1 p mrs))%Z.
Proof.
  induction p as [p IH | p IH |]; intros mrs H; simpl.
  - apply IH, IH. by apply shr_1_nonneg.
  - by apply IH, IH.
  - by apply shr_1_nonneg.
Qed.

Lemma shr_fexp_nonneg prec emax m e l :
  (0 <= m)%Z -> (0 <= shr_m (fst (shr_fexp prec emax m e l)))%Z.
Proof.
  intros H. unfold shr_fexp, shr.
  assert (H0 : (0 <= shr_m (shr_record_of_loc m l))%Z)
    by (destruct l as [|[ | | ]]; exact H).
  destruct (fexp prec emax (Zdigits2 m + e) - e)%Z; simpl; auto.
  by apply iter_shr_1_nonneg.
Qed.

Lemma round_nearest_even_nonneg m l :
  (0 <= m)%Z -> (0 <= round_nearest_even m l)%Z.
Proof.
  intros H. unfold round_nearest_even.
  destruct l as [|[ | | ]]; try destruct (Z.even m); lia.
Qed.

(** Rounding a magnitude gives a zero, a finite number or an infinity. *)
Lemma binary_round_aux_not_nan prec emax sx m e l :
  (0 <= m)%Z -> F32.is_nan (binary_round_aux prec emax sx m e l) = false.
Proof.
  intros H. unfold binary_round_aux.
  pose proof (shr_fexp_nonneg prec emax m e l H) as H1.
  destruct (shr_fexp prec emax m e l) as [mrs' e']. simpl in H1.
  pose proof (shr_fexp_nonneg prec emax _ e' loc_Exact
                (round_nearest_even_nonneg _ (loc_of_shr_record mrs') H1)) as H2.
  destruct (shr_fexp prec emax _ e' loc_Exact) as [mrs'' e'']. simpl in H2.
  destruct (shr_m mrs'') as [|p|p]; [reflexivity | | lia].
  by destruct (e'' <=? emax - prec)%Z.
Qed.

Lemma binary_normalize_not_nan prec emax m e s :
  F32.is_nan (binary_normalize prec emax m e s) = false.
Proof.
  unfold binary_normalize, binary_round.
  destruct m as [|p|p]; [reflexivity | |];
    destruct (shl_align _ _ _) as [mz ez];
    by apply binary_round_aux_not_nan.
Qed.

(** A sum is a number unless a term is not one or the terms are opposite
    infinities; here, for terms that are not plus infinity. *)
Lemma add_not_nan (a b : float) :
  F32.is_nan a = false -> F32.is_nan b = false ->
  a <> S754_infinity false -> b <> S754_infinity false ->
  F32.is_nan (F32.add a b) = false.
Proof.
  intros Ha Hb Hia Hib. unfold F32.add, SFadd.
  destruct a as [sa|[]| |sa ma ea], b as [sb|[]| |sb mb eb];
    try discriminate; try congruence; try reflexivity;
    try (by destruct sa, sb).
  apply binary_normalize_not_nan.
Qed.

(** Taking a finite number from a number leaves a number. *)
Lemma sub_finite_not_nan (a : float) s m e :
  F32.is_nan a = false -> F32.is_nan (F32.sub a (S754_finite s m e)) = false.
Proof.
  intros Ha. unfold F32.sub, SFsub.
  destruct a as [sa|sa| |sa ma ea]; try discriminate; try reflexivity.
  apply binary_normalize_not_nan.
Qed.

Lemma clampFrameTime_number dt :
  F32.is_nan dt = false ->
  F32.is_nan (clampFrameTime dt) = false
  /\ clampFrameTime dt <> S754_infinity false.
Proof.
  intros H. unfold clampFrameTime.
  destruct (F32.ltb (F32.lit 1 10) dt) eqn:E.
  - split; [vm_compute; reflexivity | vm_compute; discriminate].
  - split; [exact H |]. intros ->. vm_compute in E. discriminate.
Qed.

Lemma drain_number {St : Type} (f g : float -> St -> St) fuel :
  forall acc s acc' s',
    drain f g fuel acc s = Some (acc', s') ->
    F32.is_nan acc = false ->
    F32.is_nan acc' = false /\ F32.ltb acc' physicsTimestep = true.
Proof.
  assert (Hts : F32.is_nan physicsTimestep = false) by (vm_compute; reflexivity).
  induction fuel as [|fuel IH]; intros acc s acc' s' H Hn; simpl in H;
    destruct (F32.leb physicsTimestep acc) eqn:E; try discriminate.
  - injection H as <- <-. split; [exact Hn | by apply not_leb_ltb].
  - apply IH in H; [exact H |].
    rewrite (proj1 physicsTimestep_bits). by apply sub_finite_not_nan.
  - injection H as <- <-. split; [exact Hn | by apply not_leb_ltb].
Qed.

(** A pass keeps the accumulator a number below the timestep, if its
    frame time is a number. *)
Lemma frame_below fuel fi l l' :
  frame fuel fi l = Some l' ->
  resized fi = true \/ F32.is_nan (frameTime fi) = false ->
  F32.ltb (accumulator l) physicsTimestep = true ->
  F32.ltb (accumulator l') physicsTimestep = true.
Proof.
  intros H Hdt Ha. destruct (resized fi) eqn:Hr.
  - apply (frame_resized _ _ _ _ Hr) in H. subst l'. exact Ha.
  - destruct Hdt as [? | Hdt]; [discriminate |].
    destruct (frame_inv _ _ _ _ H Hr) as (w1 & w2 & w3 & _ & _ & _ & H4 & _).
    unfold frameDrain, physicsDrain in H4.
    apply drain_number in H4; [apply H4 |].
    destruct (ltb_not_nan _ _ Ha) as [Hn _].
    destruct (clampFrameTime_number _ Hdt) as [Hc Hi].
    apply add_not_nan; auto.
    intros E. rewrite E in Ha. vm_compute in Ha. discriminate.
Qed.

Lemma frames_below fuel : forall fis l0 l1,
  frames fuel fis l0 = Some l1 ->
  Forall (fun fi => resized fi = true \/ F32.is_nan (frameTime fi) = false) fis ->
  F32.ltb (accumulator l0) physicsTimestep = true ->
  F32.ltb (accumulator l1) physicsTimestep = true.
Proof.
  induction fis as [|fi fis IH]; intros l0 l1 H Hall Ha; simpl in H.
  - by injection H as <-.
  - destruct (frame fuel fi l0) as [l'|] eqn:Hf; [| discriminate].
    simpl in H. inversion Hall as [|? ? Hfi Hrest]; subst.
    apply (IH _ _ H Hrest). by eapply frame_below.
Qed.

(** X9. The loop of main never leaves the sessions.  Whatever the keys,
    frame times, resizes and engine answers of any number of completed
    passes, the state main has reached is one that some sequence of
    session events reaches from [Initialize] (so all that holds of
    sessions holds in the running program), and the accumulator it carries
    into the next pass is not at or above the timestep: it is below it or
    not a number.  If the frame time of every pass that was not a resize
    was a number, the accumulator is a number strictly below the
    timestep. *)
Theorem main_loop_is_a_session
    (fuel : nat) (fis : list FrameInput) (chassisCreated : bool) (l : MainLoop) :
  frames fuel fis (loopStart chassisCreated) = Some l ->
  Reachable (world l)
  /\ WorldInv (world l)
  /\ F32.leb physicsTimestep (accumulator l) = false
  /\ (Forall (fun fi => resized fi = true \/ F32.is_nan (frameTime fi) = false) fis ->
      F32.is_nan (accumulator l) = false
      /\ F32.ltb (accumulator l) physicsTimestep = true).
Proof.
  intros H.
  destruct (frames_inv _ _ _ _ H (loopStart_Reachable chassisCreated) eq_refl)
    as [HR Ha].
  split; [exact HR |]. split; [by apply Reachable_inv |].
  split; [exact Ha |]. intros Hall.
  assert (Hb : F32.ltb (accumulator l) physicsTimestep = true)
    by (apply (frames_below _ _ _ _ H Hall); vm_compute; reflexivity).
  split; [apply (ltb_not_nan _ _ Hb) | exact Hb].
Qed.

Lemma main_loop_is_a_session_witness :
  frames 7 samplePasses (loopStart true) = Some (afterPasses 4)
  /\ Reachable (world (afterPasses 4))
  /\ WorldInv (world (afterPasses 4))
  /\ F32.leb physicsTimestep (accumulator (afterPasses 4)) = false
  /\ F32.is_nan (accumulator (afterPasses 4)) = false
  /\ F32.ltb (accumulator (afterPasses 4)) physicsTimestep = true.
Proof.
  assert (H : frames 7 samplePasses (loopStart true) = Some (afterPasses 4))
    by (vm_compute; reflexivity).
  split; [exact H |].
  destruct (main_loop_is_a_session 7 samplePasses true (afterPasses 4) H)
    as (HR & HI & Ha & Hb).
  split; [exact HR |]. split; [exact HI |]. split; [exact Ha |].
  apply Hb. repeat constructor; right; reflexivity.
Defined.

(** ** Where a pass can fault *)







(** ** Keys act on their edge *)

Lemma Update_inputs dt r :
  mThrottleInput (Update dt r) = mThrottleInput r
  /\ mTurnInput (Update dt r) = mTurnInput r.
Proof. unfold Update. destruct (mChassis r); split; reflexivity. Qed.

Lemma round_keeps sim w :
  holding (round sim w) = holding w
  /\ driveSide (round sim w) = driveSide w
  /\ length (blocks (round sim w)) = length (blocks w).
Proof.
  unfold holding, driveSide, round. simpl.
  rewrite Update_mHeldBlocks, Update_mChassis, length_imap.
  destruct (Update_inputs physicsTimestep (robot w)) as [-> ->].
  split; [reflexivity |]. split; [| reflexivity].
  f_equal. destruct (mChassis (robot w)); reflexivity.
Qed.

Lemma rounds_keep sim n w :
  holding (Nat.iter n (round sim) w) = holding w
  /\ driveSide (Nat.iter n (round sim) w) = driveSide w
  /\ length (blocks (Nat.iter n (round sim) w)) = length (blocks w).
Proof.
  induction n as [|n (IH1 & IH2 & IH3)]; [auto |].
  rewrite Nat.iter_succ.
  destruct (round_keeps sim (Nat.iter n (round sim) w)) as (-> & -> & ->). auto.
Qed.

Lemma frameDrain_rounds sim fuel dt acc w acc' w' :
  frameDrain sim fuel dt acc w = Some (acc', w') ->
  exists n, w' = Nat.iter n (round sim) w
            /\ (F32.leb physicsTimestep (F32.add acc (clampFrameTime dt)) = true ->
                0 < n).
Proof.
  intros H. destruct (drain_shape _ _ _ _ _ _ _ H) as (n & _ & -> & Ha & Hstop).
  exists n. split; [reflexivity |]. intros Hgo.
  destruct n; [| lia]. simpl in Ha. congruence.
Qed.

Lemma spawnHandler_keeps pressed was created c w w' :
  spawnHandler pressed was created c w = Some w' ->
  holding w' = holding w /\ driveSide w' = driveSide w
  /\ length (blocks w')
     = length (blocks w) + (if newlyPressed pressed was then 1 else 0).
Proof.
  unfold spawnHandler, newlyPressed, spawnAtFront.
  destruct (pressed && negb was).
  - rewrite SpawnBlock_spawns. destruct (spawns created); [| discriminate].
    simpl. intros [= <-].
    unfold holding, driveSide. simpl. rewrite length_app. auto.
  - intros [= <-]. auto.
Qed.

Lemma TryIntake_keeps created i w :
  driveSide (snd (TryIntake created i w)) = driveSide w
  /\ length (blocks (snd (TryIntake created i w))) = length (blocks w)
  /\ (fst (TryIntake created i w) = false ->
      holding (snd (TryIntake created i w)) = holding w).
Proof.
  destruct (TryIntake_cases created i w) as [E | (blk & chassis & b & R)].
  - rewrite E. auto.
  - rewrite (TryIntake_ready created _ _ _ _ _ R).
    destruct created; unfold driveSide, holding; simpl;
      rewrite length_insert; auto.
    repeat split. discriminate.
Qed.

Lemma intakeHandler_keeps pressed was created w :
  let w' := snd (intakeHandler pressed was created w) in
  driveSide w' = driveSide w
  /\ length (blocks w') = length (blocks w)
  /\ GetHeldCount (robot w) <= GetHeldCount (robot w')
  /\ (newlyPressed pressed was = false -> holding w' = holding w).
Proof.
  unfold intakeHandler, newlyPressed. simpl.
  destruct (pressed && negb was); simpl.
  2:{ auto. }
  destruct (IsIntakeFull (robot w)); simpl.
  { repeat split; auto; discriminate. }
  destruct (nearestBlock w) as [i|]; simpl.
  2:{ repeat split; auto; discriminate. }
  destruct (TryIntake_keeps created i w) as (H1 & H2 & _).
  pose proof (TryIntake_count created i w) as H3.
  repeat split; auto; [lia | discriminate].
Qed.

Lemma Outtake_keeps w w' :
  Outtake w = Some w' ->
  driveSide w' = driveSide w /\ length (blocks w') = length (blocks w).
Proof.
  unfold Outtake. intros H.
  destruct (last (mHeldBlocks (robot w))) as [hb|]; [| by injection H as <-].
  simpl in H.
  destruct (blocks w !! block hb) as [blk|]; [| by injection H as <-].
  destruct (body blk) as [b|]; [| by injection H as <-].
  destruct (joint hb); simpl in H;
    (destruct (mChassis (robot w)) eqn:Hc; [| discriminate]);
    injection H as <-; unfold driveSide; simpl; rewrite Hc, length_insert; auto.
Qed.

Lemma outtakeHandler_keeps pressed was w w' :
  outtakeHandler pressed was w = Some w' ->
  driveSide w' = driveSide w
  /\ length (blocks w') = length (blocks w)
  /\ GetHeldCount (robot w') <= GetHeldCount (robot w)
  /\ (newlyPressed pressed was = false -> holding w' = holding w).
Proof.
  unfold outtakeHandler, newlyPressed. destruct (pressed && negb was).
  - intros H. destruct (Outtake_keeps _ _ H) as [H1 H2].
    pose proof (Outtake_count _ _ H).
    repeat split; auto; [lia | discriminate].
  - intros [= <-]. auto.
Qed.

(** X11. The block keys act on their edge.  After a pass that was not cut
    short by a resize, each was-pressed flag holds the key's state of that
    pass; the block list has grown by exactly one for each of R and B that
    is down now and was not down at the pass before, and by nothing else;
    the held count can only grow if F is newly pressed and only shrink if
    G is newly pressed; and with neither newly pressed the held records
    and the joints are as they were.  So a key kept down over several
    passes acts once. *)
Theorem frame_keys_act_on_edge
    (fuel : nat) (fi : FrameInput) (l l' : MainLoop) :
  frame fuel fi l = Some l' -> resized fi = false ->
  (rWas l', bWas l', fWas l', gWas l')
  = (keyR (keys fi), keyB (keys fi), keyF (keys fi), keyG (keys fi))
  /\ length (blocks (world l'))
     = length (blocks (world l))
       + (if newlyPressed (keyR (keys fi)) (rWas l) then 1 else 0)
       + (if newlyPressed (keyB (keys fi)) (bWas l) then 1 else 0)
  /\ (newlyPressed (keyF (keys fi)) (fWas l) = false ->
      GetHeldCount (robot (world l')) <= GetHeldCount (robot (world l)))
  /\ (newlyPressed (keyG (keys fi)) (gWas l) = false ->
      GetHeldCount (robot (world l)) <= GetHeldCount (robot (world l')))
  /\ (newlyPressed (keyF (keys fi)) (fWas l) = false ->
      newlyPressed (keyG (keys fi)) (gWas l) = false ->
      holding (world l') = holding (world l)).
Proof.
  intros H Hr.
  destruct (frame_inv _ _ _ _ H Hr) as (w1 & w2 & w3 & H1 & H2 & H3 & H4 & Hk).
  apply frameDrain_rounds in H4 as (n & Hw & _).
  destruct (rounds_keep (simulation fi) n w3) as (D1 & _ & D3).
  rewrite <- Hw in D1, D3.
  destruct (spawnHandler_keeps _ _ _ _ _ _ H1) as (A1 & _ & A3).
  destruct (spawnHandler_keeps _ _ _ _ _ _ H2) as (B1 & _ & B3).
  destruct (intakeHandler_keeps (keyF (keys fi)) (fWas l)
              (intakeJointCreated fi) w2) as (_ & C3 & C4 & C5).
  destruct (outtakeHandler_keeps _ _ _ _ H3) as (_ & E3 & E4 & E5).
  simpl in A1, A3.
  assert (Hc : forall w w', holding w' = holding w ->
                 GetHeldCount (robot w') = GetHeldCount (robot w)).
  { intros w w' E. unfold holding in E. unfold GetHeldCount. congruence. }
  split; [exact Hk |]. split; [lia |].
  split; [| split].
  - intros HF. specialize (C5 HF).
    rewrite (Hc _ _ D1). rewrite (Hc _ _ C5), (Hc _ _ B1), (Hc _ _ A1) in E4.
    exact E4.
  - intros HG. specialize (E5 HG).
    rewrite (Hc _ _ D1), (Hc _ _ E5).
    rewrite (Hc _ _ B1), (Hc _ _ A1) in C4. exact C4.
  - intros HF HG. rewrite D1, (E5 HG), (C5 HF), B1, A1. reflexivity.
Qed.

(** G goes down on the third sample pass and stays down on the fourth:
    the block taken on the second is ejected on the third, and the fourth
    changes nothing of what is held. *)
Lemma frame_keys_act_on_edge_witness :
  frame 7 (pass keysG) (afterPasses 3) = Some (afterPasses 4)
  /\ GetHeldCount (robot (world (afterPasses 2))) = 1
  /\ GetHeldCount (robot (world (afterPasses 3))) = 0
  /\ gWas (afterPasses 4) = true
  /\ length (blocks (world (afterPasses 4))) = 1
  /\ holding (world (afterPasses 4)) = holding (world (afterPasses 3)).
Proof.
  assert (H : frame 7 (pass keysG) (afterPasses 3) = Some (afterPasses 4))
    by (vm_compute; reflexivity).
  destruct (frame_keys_act_on_edge 7 (pass keysG) (afterPasses 3)
              (afterPasses 4) H eq_refl) as (_ & Hlen & _ & _ & Hh).
  split; [exact H |].
  split; [vm_compute; reflexivity |]. split; [vm_compute; reflexivity |].
  split; [vm_compute; reflexivity |].
  split; [rewrite Hlen; vm_compute; reflexivity |].
  apply Hh; vm_compute; reflexivity.
Defined.

(** ** From the keys to the wheels *)

Lemma driveInput_table (k : Keys) :
  driveInput k
  = (F32.of_Z (Z.b2z (keyD k) - Z.b2z (keyC k)),
     F32.of_Z (Z.b2z (keyA k) - Z.b2z (keyZ k))).
Proof.
  destruct k as [a d z c r b f g]. unfold driveInput. simpl.
  destruct a, d, z, c; vm_compute; reflexivity.
Qed.

Lemma clampInput_unit (b c : bool) :
  clampInput (F32.of_Z (Z.b2z b - Z.b2z c)) = F32.of_Z (Z.b2z b - Z.b2z c).
Proof. destruct b, c; vm_compute; reflexivity. Qed.

Lemma round_joints sim w i j :
  mChassis (robot w) <> None ->
  mWheelJoints (robot (round sim w)) !! i = Some j ->
  driveVelocity j
  = F32.mul (if i <? 4 then clampInput (mThrottleInput (robot w))
             else clampInput (mTurnInput (robot w))) maxVelocity
  /\ driveForceLimit j = DRIVE_TORQUE.
Proof.
  intros Hc. unfold round. simpl.
  destruct (mChassis (robot w)) as [chassis|] eqn:E; [| congruence].
  rewrite (Update_joints _ _ chassis E), list_lookup_imap.
  destruct (mWheelJoints (robot w) !! i) as [j0|]; [| discriminate].
  simpl. intros [= <-]. split; reflexivity.
Qed.

(** X12. From the keys to the wheels.  After a pass that was not cut short
    by a resize the robot stores, as left input, 1 for D less 1 for C and,
    as right input, 1 for A less 1 for Z (opposite keys cancel to 0); both
    are values the clamp of [Update] leaves alone, so main never exercises
    the clamp.  If the pass made at least one physics round and the robot
    has a chassis, every wheel joint of index below 4 ends the pass with
    the left input times 20 as drive velocity and every other one with the
    right input times 20, each with the force limit [DRIVE_TORQUE]. *)
Theorem keys_drive_the_wheels
    (fuel : nat) (fi : FrameInput) (l l' : MainLoop) :
  frame fuel fi l = Some l' -> resized fi = false ->
  let left := F32.of_Z (Z.b2z (keyD (keys fi)) - Z.b2z (keyC (keys fi))) in
  let right := F32.of_Z (Z.b2z (keyA (keys fi)) - Z.b2z (keyZ (keys fi))) in
  mThrottleInput (robot (world l')) = left
  /\ mTurnInput (robot (world l')) = right
  /\ clampInput left = left
  /\ clampInput right = right
  /\ (F32.leb physicsTimestep
        (F32.add (accumulator l) (clampFrameTime (frameTime fi))) = true ->
      mChassis (robot (world l)) <> None ->
      forall i j,
        mWheelJoints (robot (world l')) !! i = Some j ->
        driveVelocity j = F32.mul (if i <? 4 then left else right) maxVelocity
        /\ driveForceLimit j = DRIVE_TORQUE).
Proof.
  intros H Hr left right.
  destruct (frame_inv _ _ _ _ H Hr) as (w1 & w2 & w3 & H1 & H2 & H3 & H4 & _).
  apply frameDrain_rounds in H4 as (n & Hw & Hn).
  destruct (spawnHandler_keeps _ _ _ _ _ _ H1) as (_ & A2 & _).
  destruct (spawnHandler_keeps _ _ _ _ _ _ H2) as (_ & B2 & _).
  destruct (intakeHandler_keeps (keyF (keys fi)) (fWas l)
              (intakeJointCreated fi) w2) as (C2 & _).
  destruct (outtakeHandler_keeps _ _ _ _ H3) as (E2 & _).
  assert (D3 : driveSide w3
               = (left, right,
                  match mChassis (robot (world l)) with
                  | Some _ => true
                  | None => false
                  end)).
  { rewrite E2, C2, B2, A2. unfold driveSide.
    rewrite driveInput_table. reflexivity. }
  assert (Dn : forall m, driveSide (Nat.iter m (round (simulation fi)) w3)
                         = (left, right,
                            match mChassis (robot (world l)) with
                  | Some _ => true
                  | None => false
                  end)).
  { intros m. destruct (rounds_keep (simulation fi) m w3) as (_ & -> & _).
    exact D3. }
  pose proof (Dn n) as D'. rewrite <- Hw in D'.
  unfold driveSide in D'. injection D' as T1 T2 _.
  split; [exact T1 |]. split; [exact T2 |].
  split; [apply clampInput_unit |]. split; [apply clampInput_unit |].
  intros Hgo Hc i j Hj. specialize (Hn Hgo).
  destruct n as [|m]; [lia |].
  rewrite Hw, Nat.iter_succ in Hj.
  pose proof (Dn m) as Dm. unfold driveSide in Dm. injection Dm as M1 M2 M3.
  apply round_joints in Hj.
  - rewrite M1, M2 in Hj. unfold left, right in *.
    rewrite !clampInput_unit in Hj. exact Hj.
  - intros E. rewrite E in M3.
    destruct (mChassis (robot (world l))); [discriminate | congruence].
Qed.

(** The third sample pass has A and D down: every wheel joint is driven
    forward at 20. *)
Lemma keys_drive_the_wheels_witness :
  frame 7 (pass keysFG) (afterPasses 2) = Some (afterPasses 3)
  /\ mThrottleInput (robot (world (afterPasses 3))) = F32.one
  /\ mTurnInput (robot (world (afterPasses 3))) = F32.one
  /\ driveVelocity <$> mWheelJoints (robot (world (afterPasses 3)))
     = replicate 8 (F32.of_Z 20).
Proof.
  assert (H : frame 7 (pass keysFG) (afterPasses 2) = Some (afterPasses 3))
    by (vm_compute; reflexivity).
  destruct (keys_drive_the_wheels 7 (pass keysFG) (afterPasses 2)
              (afterPasses 3) H eq_refl) as (H1 & H2 & _).
  split; [exact H |]. split; [exact H1 |]. split; [exact H2 |].
  vm_compute. reflexivity.
Defined.

(** ** PhysicsWorld: start and shutdown *)

(** X13. The life of a [PhysicsWorld].  [Initialize] on a new object
    faults exactly when the foundation exists and either the debugger or
    its transport does not, or physics exists and the scene does not; it
    ends early, leaving the scene pointer null so that [Update] steps
    nothing, when the foundation or physics cannot be created.  The first
    [Cleanup] after any [Initialize] that returned never faults: it
    releases the scene, the dispatcher, physics, the debugger, its
    transport and the foundation, in this order, each only if its pointer
    is set, and never the material.  It resets no member: a second
    [Cleanup], as the destructor makes after main's own call, goes through
    the stale pointers and faults whenever the foundation had been
    created. *)
Theorem PhysicsWorld_life (a : EngineAnswers) (t t' : bool) :
  (PhysicsWorld_Initialize a PhysicsState_new = None
   <-> foundationCreated a = true
       /\ (pvdCreated a = false \/ transportCreated a = false
           \/ physicsCreated a = true /\ sceneCreated a = false))
  /\ forall s, PhysicsWorld_Initialize a PhysicsState_new = Some s ->
       (mScene (members s) = true
        <-> foundationCreated a = true /\ physicsCreated a = true)
       /\ PhysicsWorld_steps s = Some (mScene (members s))
       /\ exists s',
            PhysicsWorld_Cleanup t s = Some s'
            /\ released s'
               = List.filter (fun o =>
                           match o with
                           | Scene => mScene (members s)
                           | Dispatcher => mDispatcher (members s)
                           | Physics => mPhysics (members s)
                           | Pvd => mPvd (members s)
                           | Transport => mPvd (members s) && t
                           | Foundation => mFoundation (members s)
                           | Material => false
                           end)
                        [Scene; Dispatcher; Physics; Pvd; Transport; Foundation]
            /\ members s' = members s
            /\ (PhysicsWorld_Cleanup t' s' = None
                <-> foundationCreated a = true)
            /\ (PhysicsWorld_shutdown t t' s = None
                <-> foundationCreated a = true)
            /\ (foundationCreated a = false -> s' = PhysicsState_new).
Proof.
  destruct a as [f p tr ph d sc m].
  split.
  - destruct f, p, tr, ph, d, sc, m; vm_compute; intuition congruence.
  - intros s H.
    destruct f, p, tr, ph, d, sc, m; vm_compute in H; try discriminate;
      injection H as <-; destruct t, t';
      (split; [vm_compute; intuition congruence |]);
      (split; [reflexivity |]); eexists; (split; [reflexivity |]);
      (split; [reflexivity |]); (split; [reflexivity |]);
      vm_compute; intuition congruence.
Qed.

(** With every object created: the first [Cleanup] releases six objects,
    the shutdown of main faults. *)
Example PhysicsWorld_shutdown_allCreated :
  (s ← PhysicsWorld_Initialize allCreated PhysicsState_new;
   released <$> PhysicsWorld_Cleanup true s)
  = Some [Scene; Dispatcher; Physics; Pvd; Transport; Foundation]
  /\ (s ← PhysicsWorld_Initialize allCreated PhysicsState_new;
      PhysicsWorld_shutdown true true s) = None.
Proof. split; reflexivity. Qed.

(** ** AssetLoader::ExtractMeshData *)

Lemma index_Some {A : Type} (v : list A) (i : Z) (x : A) :
  index v i = Some x <-> (0 <= i)%Z /\ v !! Z.to_nat i = Some x.
Proof.
  unfold index. destruct (0 <=? i)%Z eqn:E.
  - apply Z.leb_le in E. tauto.
  - apply Z.leb_gt in E. split; [discriminate | lia].
Qed.

Lemma index_is_Some {A : Type} (v : list A) (i : Z) :
  (0 <= i < Z.of_nat (length v))%Z -> is_Some (index v i).
Proof.
  intros H. unfold index. destruct (0 <=? i)%Z eqn:E.
  - apply lookup_lt_is_Some. lia.
  - apply Z.leb_gt in E. lia.
Qed.

Lemma loadLE_is_Some n d addr :
  (0 <= addr)%Z -> (addr + Z.of_nat n <= Z.of_nat (length d))%Z ->
  is_Some (loadLE n d addr).
Proof.
  revert addr. induction n as [|n IH]; intros addr H0 H1; simpl; [eauto |].
  destruct (index_is_Some d addr) as [b ->]; [lia |]. simpl.
  destruct (IH (addr + 1)%Z) as [r ->]; [lia | lia |]. simpl. eauto.
Qed.

Lemma lor_shift_bound (b r k : Z) :
  (0 <= k)%Z -> (0 <= b < 2 ^ 8)%Z -> (0 <= r < 2 ^ k)%Z ->
  (0 <= Z.lor b (Z.shiftl r 8) < 2 ^ (k + 8))%Z.
Proof.
  intros Hk Hb Hr.
  assert (Hs : (0 <= Z.shiftl r 8 < 2 ^ (k + 8))%Z).
  { rewrite Z.shiftl_mul_pow2 by lia. rewrite Z.pow_add_r by lia. nia. }
  split; [apply Z.lor_nonneg; lia |].
  destruct (Z.eq_dec (Z.lor b (Z.shiftl r 8)) 0%Z) as [-> | Hne];
    [apply Z.pow_pos_nonneg; lia |].
  apply Z.log2_lt_pow2; [pose proof (Z.lor_nonneg b (Z.shiftl r 8)); lia |].
  rewrite Z.log2_lor by lia.
  apply Z.max_lub_lt.
  - destruct (Z.eq_dec b 0%Z) as [-> | ?]; [simpl; lia |].
    apply Z.log2_lt_pow2; [lia |].
    assert (2 ^ 8 <= 2 ^ (k + 8))%Z by (apply Z.pow_le_mono_r; lia). lia.
  - destruct (Z.eq_dec (Z.shiftl r 8) 0%Z) as [-> | ?]; [simpl; lia |].
    apply Z.log2_lt_pow2; lia.
Qed.

Lemma loadLE_range n d addr v :
  loadLE n d addr = Some v -> (0 <= v < 2 ^ (8 * Z.of_nat n))%Z.
Proof.
  revert addr v. induction n as [|n IH]; intros addr v H; simpl in H.
  - injection H as <-. simpl. lia.
  - destruct (index d addr) as [b|]; [| discriminate]. simpl in H.
    destruct (loadLE n d (addr + 1)) as [r|] eqn:E; [| discriminate].
    simpl in H. injection H as <-.
    replace (8 * Z.of_nat (S n))%Z with (8 * Z.of_nat n + 8)%Z by lia.
    apply lor_shift_bound; [lia | | by eapply IH].
    pose proof (Byte.to_N_bounded b). simpl. lia.
Qed.

Lemma readIndex_range d idxData componentType i idx :
  readIndex d idxData componentType i = Some idx ->
  (0 <= idx < 2 ^ (8 * indexWidth componentType))%Z
  /\ (indexWidth componentType = 0%Z -> idx = 0%Z).
Proof.
  unfold readIndex, indexWidth.
  destruct (componentType =? _)%Z;
    [intros H; apply loadLE_range in H; split; [exact H | lia] |].
  destruct (componentType =? _)%Z;
    [intros H; apply loadLE_range in H; split; [exact H | lia] |].
  destruct (componentType =? _)%Z;
    [intros H; apply loadLE_range in H; split; [exact H | lia] |].
  intros [= <-]. simpl. split; [lia | reflexivity].
Qed.

Lemma mapM_length {A B : Type} (f : A -> option B) l k :
  mapM f l = Some k -> length k = length l.
Proof. intros H. apply mapM_Some_1 in H. symmetry. by eapply Forall2_length. Qed.

Lemma mapM_lookup {A B : Type} (f : A -> option B) l k i x :
  mapM f l = Some k -> l !! i = Some x ->
  exists y, k !! i = Some y /\ f x = Some y.
Proof.
  intros H Hx. apply mapM_Some_1 in H.
  destruct (Forall2_lookup_l _ _ _ _ _ H Hx) as (y & Hy & Hf). eauto.
Qed.

Lemma wrap_base (len cnt x : Z) :
  wrap32 (wrap64 (wrap64 (len + cnt - cnt) + x)) = wrap32 (len + x).
Proof.
  unfold wrap32, wrap64. replace (len + cnt - cnt)%Z with len by lia.
  rewrite Zplus_mod_idemp_l.
  change (2 ^ 64)%Z with (2 ^ 32 * 2 ^ 32)%Z.
  rewrite Z.rem_mul_r by lia.
  rewrite Z.mul_comm, Z_mod_plus_full. apply Z.mod_mod. lia.
Qed.

(** What a call that returns has done, step by step. *)
Lemma ExtractMeshData_inv model prim scale vs ixs r :
  ExtractMeshData model prim scale vs ixs = Some r ->
  match tinygltf.attributes prim !! "POSITION" with
  | None => r = (vs, ixs)
  | Some position =>
    exists pa d off nv,
      index (tinygltf.accessors model) position = Some pa
      /\ accessorBytes model pa = Some (d, off)
      /\ mapM (readVertex d off (positionStride model pa) scale)
              (seqZ 0 (tinygltf.count pa)) = Some nv
      /\ fst r = vs ++ nv
      /\ if (0 <=? tinygltf.indices prim)%Z then
           exists ia di offi ni,
             index (tinygltf.accessors model) (tinygltf.indices prim) = Some ia
             /\ accessorBytes model ia = Some (di, offi)
             /\ mapM (fun i =>
                        idx ← readIndex di offi (tinygltf.componentType ia) i;
                        Some (wrap32 (wrap64
                                (wrap64 (Z.of_nat (length (vs ++ nv))
                                         - tinygltf.count pa) + idx))))
                     (seqZ 0 (tinygltf.count ia)) = Some ni
             /\ snd r = ixs ++ ni
         else
           snd r = ixs ++ ((fun i => wrap32 (wrap64
                                      (wrap64 (Z.of_nat (length (vs ++ nv))
                                               - tinygltf.count pa) + i)))
                            <$> seqZ 0 (tinygltf.count pa))
  end.
Proof.
  unfold ExtractMeshData.
  destruct (tinygltf.attributes prim !! "POSITION") as [position|];
    [| by intros [= <-]].
  destruct (index (tinygltf.accessors model) position) as [pa|] eqn:Hpa;
    [| discriminate]. simpl.
  destruct (index (tinygltf.bufferViews model) (tinygltf.bufferView pa))
    as [view|] eqn:Hview; [| discriminate]. simpl.
  destruct (index (tinygltf.buffers model) (tinygltf.buffer view))
    as [buf|] eqn:Hbuf; [| discriminate]. simpl.
  destruct (index (tinygltf.data buf) _) as [b0|] eqn:Hb0; [| discriminate].
  simpl.
  destruct (mapM _ (seqZ 0 (tinygltf.count pa))) as [nv|] eqn:Hnv;
    [| discriminate]. simpl.
  assert (Hpos : accessorBytes model pa
                 = Some (tinygltf.data buf,
                         wrap64 (tinygltf.viewOffset view + tinygltf.byteOffset pa))).
  { unfold accessorBytes. rewrite Hview. simpl. rewrite Hbuf. simpl.
    rewrite Hb0. reflexivity. }
  assert (Hstride : positionStride model pa
                    = if (tinygltf.byteStride view =? 0)%Z then 3%Z
                      else (tinygltf.byteStride view / 4)%Z).
  { unfold positionStride. rewrite Hview. reflexivity. }
  rewrite <- Hstride in Hnv.
  destruct (0 <=? tinygltf.indices prim)%Z.
  - destruct (index (tinygltf.accessors model) (tinygltf.indices prim))
      as [ia|] eqn:Hia; [| discriminate]. simpl.
    destruct (index (tinygltf.bufferViews model) (tinygltf.bufferView ia))
      as [iview|] eqn:Hiview; [| discriminate]. simpl.
    destruct (index (tinygltf.buffers model) (tinygltf.buffer iview))
      as [ibuf|] eqn:Hibuf; [| discriminate]. simpl.
    destruct (index (tinygltf.data ibuf) _) as [b1|] eqn:Hb1; [| discriminate].
    simpl.
    destruct (mapM _ (seqZ 0 (tinygltf.count ia))) as [ni|] eqn:Hni;
      [| discriminate]. simpl.
    intros [= <-]. eexists pa, (tinygltf.data buf), _, nv.
    split; [reflexivity |]. split; [exact Hpos |]. split; [exact Hnv |].
    split; [reflexivity |].
    eexists ia, (tinygltf.data ibuf), _, ni.
    split; [reflexivity |]. split; [| split; [exact Hni | reflexivity]].
    unfold accessorBytes. rewrite Hiview. simpl. rewrite Hibuf. simpl.
    rewrite Hb1. reflexivity.
  - intros [= <-]. eexists pa, (tinygltf.data buf), _, nv.
    split; [reflexivity |]. split; [exact Hpos |]. split; [exact Hnv |].
    split; reflexivity.
Qed.

(** X14. [ExtractMeshData] only appends.  When it returns, what the two
    vectors held is still there, in place, followed by what the call
    added.  A primitive without a POSITION attribute adds nothing, not
    even its indices; otherwise the vertices grow by the count of the
    POSITION accessor and the indices by the count of the index accessor
    or, for a primitive without indices, by the vertex count. *)
Theorem ExtractMeshData_appends
    (model : tinygltf.Model) (prim : tinygltf.Primitive) (scale : PxVec3)
    (vs vs' : list PxVec3) (ixs ixs' : list PxU32) :
  ExtractMeshData model prim scale vs ixs = Some (vs', ixs') ->
  exists nv ni,
    vs' = vs ++ nv /\ ixs' = ixs ++ ni
    /\ length nv = positionCount model prim
    /\ match tinygltf.attributes prim !! "POSITION" with
       | None => ni = []
       | Some _ =>
         if (0 <=? tinygltf.indices prim)%Z then
           exists ia,
             index (tinygltf.accessors model) (tinygltf.indices prim) = Some ia
             /\ length ni = Z.to_nat (tinygltf.count ia)
         else length ni = positionCount model prim
       end.
Proof.
  intros H. apply ExtractMeshData_inv in H. unfold positionCount.
  destruct (tinygltf.attributes prim !! "POSITION") as [position|].
  - destruct H as (pa & d & off & nv & Hpa & _ & Hnv & Hvs & Hix).
    simpl in Hvs. subst vs'. rewrite Hpa.
    apply mapM_length in Hnv. rewrite length_seqZ in Hnv.
    destruct (0 <=? tinygltf.indices prim)%Z.
    + destruct Hix as (ia & di & offi & ni & Hia & _ & Hni & Hixs).
      simpl in Hixs. subst ixs'. exists nv, ni.
      apply mapM_length in Hni. rewrite length_seqZ in Hni. eauto 10.
    + simpl in Hix. subst ixs'. eexists nv, _.
      split; [reflexivity |]. split; [reflexivity |]. split; [exact Hnv |].
      by rewrite length_fmap, length_seqZ.
  - injection H as -> ->. exists [], []. by rewrite !app_nil_r.
Qed.

Lemma ExtractMeshData_appends_witness :
  ExtractMeshData triangleModel indexedPrimitive unitScale
    [mkVec3 F32.one F32.one F32.one] [7%Z]
  = Some ([mkVec3 F32.one F32.one F32.one;
           mkVec3 F32.zero F32.zero F32.zero;
           mkVec3 F32.one F32.zero F32.zero;
           mkVec3 F32.zero F32.one F32.zero],
          [7; 1; 2; 3]%Z)
  /\ exists nv ni,
       length nv = 3 /\ length ni = 3
       /\ ExtractMeshData triangleModel indexedPrimitive unitScale
            [mkVec3 F32.one F32.one F32.one] [7%Z]
          = Some ([mkVec3 F32.one F32.one F32.one] ++ nv, [7%Z] ++ ni).
Proof.
  assert (H : ExtractMeshData triangleModel indexedPrimitive unitScale
                [mkVec3 F32.one F32.one F32.one] [7%Z]
              = Some ([mkVec3 F32.one F32.one F32.one;
                       mkVec3 F32.zero F32.zero F32.zero;
                       mkVec3 F32.one F32.zero F32.zero;
                       mkVec3 F32.zero F32.one F32.zero],
                      [7; 1; 2; 3]%Z))
    by (vm_compute; reflexivity).
  split; [exact H |].
  destruct (ExtractMeshData_appends _ _ _ _ _ _ _ H)
    as (nv & ni & Hv & Hi & Hn & ia & Hia & Hni).
  exists nv, ni. rewrite H, Hv, Hi. split; [exact Hn |]. split; [| reflexivity].
  transitivity (Z.to_nat (tinygltf.count ia)); [exact Hni |].
  vm_compute in Hia. injection Hia as <-. reflexivity.
Defined.

(** X15. The indices [ExtractMeshData] adds.  For a primitive without
    indices they count up from the number of vertices the vector held
    before the call, one for each new vertex, so unless the vertex count
    passes 2^32 each refers to a vertex the call has added.  For a
    primitive with indices each is that number plus the index read from
    the buffer, cut to 32 bits: one, two or four bytes, least significant
    first, for the component types unsigned byte, short and int, and zero
    for every other component type, which is read nowhere (all indices
    then refer to the first new vertex). *)
Theorem ExtractMeshData_index_values
    (model : tinygltf.Model) (prim : tinygltf.Primitive) (scale : PxVec3)
    (vs vs' : list PxVec3) (ixs ixs' : list PxU32)
    (position : Z) (pa : tinygltf.Accessor) :
  ExtractMeshData model prim scale vs ixs = Some (vs', ixs') ->
  tinygltf.attributes prim !! "POSITION" = Some position ->
  index (tinygltf.accessors model) position = Some pa ->
  (0 <= tinygltf.count pa)%Z ->
  ((tinygltf.indices prim < 0)%Z ->
   forall k, k < Z.to_nat (tinygltf.count pa) ->
     ixs' !! (length ixs + k) = Some (wrap32 (Z.of_nat (length vs + k)))
     /\ ((Z.of_nat (length vs') < 2 ^ 32)%Z ->
         wrap32 (Z.of_nat (length vs + k)) = Z.of_nat (length vs + k)
         /\ length vs <= length vs + k < length vs'))
  /\ ((0 <= tinygltf.indices prim)%Z ->
      exists ia di offi,
        index (tinygltf.accessors model) (tinygltf.indices prim) = Some ia
        /\ accessorBytes model ia = Some (di, offi)
        /\ forall k, k < Z.to_nat (tinygltf.count ia) ->
             exists idx,
               readIndex di offi (tinygltf.componentType ia) (Z.of_nat k)
               = Some idx
               /\ ixs' !! (length ixs + k)
                  = Some (wrap32 (Z.of_nat (length vs) + idx))
               /\ (0 <= idx < 2 ^ (8 * indexWidth (tinygltf.componentType ia)))%Z
               /\ (indexWidth (tinygltf.componentType ia) = 0%Z -> idx = 0%Z)).
Proof.
  unfold PxU32 in *.
  intros H Hpos Hpa Hcount. apply ExtractMeshData_inv in H.
  rewrite Hpos in H.
  destruct H as (pa' & d & off & nv & Hpa' & _ & Hnv & Hvs & Hix).
  rewrite Hpa in Hpa'. injection Hpa' as <-.
  simpl in Hvs. subst vs'.
  apply mapM_length in Hnv. rewrite length_seqZ in Hnv.
  assert (Hbase : forall x,
             wrap32 (wrap64 (wrap64 (Z.of_nat (length (vs ++ nv))
                                     - tinygltf.count pa) + x))
             = wrap32 (Z.of_nat (length vs) + x)).
  { intros x. rewrite length_app, Hnv, Nat2Z.inj_add, Z2Nat.id by lia.
    apply wrap_base. }
  split.
  - intros Hneg. destruct (0 <=? tinygltf.indices prim)%Z eqn:E;
      [apply Z.leb_le in E; lia |].
    simpl in Hix. subst ixs'. intros k Hk. split.
    + rewrite lookup_app_r by lia.
      replace (length ixs + k - length ixs) with k by lia.
      rewrite list_lookup_fmap, lookup_seqZ_lt by lia. simpl.
      rewrite Hbase. do 2 f_equal; lia.
    + intros Hsmall. rewrite length_app in *. split; [| lia].
      unfold wrap32. apply Z.mod_small. lia.
  - intros Hnn. destruct (0 <=? tinygltf.indices prim)%Z eqn:E;
      [| apply Z.leb_gt in E; lia].
    destruct Hix as (ia & di & offi & ni & Hia & Hbytes & Hni & Hixs).
    simpl in Hixs. subst ixs'. exists ia, di, offi.
    split; [exact Hia |]. split; [exact Hbytes |]. intros k Hk.
    assert (Hk' : seqZ 0 (tinygltf.count ia) !! k = Some (Z.of_nat k)).
    { rewrite lookup_seqZ_lt by lia. f_equal; lia. }
    destruct (mapM_lookup _ _ _ k (Z.of_nat k) Hni Hk') as (y & Hy & Hf).
    destruct (readIndex di offi (tinygltf.componentType ia) (Z.of_nat k))
      as [idx|] eqn:Hidx; [| discriminate].
    simpl in Hf. injection Hf as <-. exists idx.
    split; [reflexivity |]. split.
    + rewrite lookup_app_r by lia.
      replace (length ixs + k - length ixs) with k by lia.
      rewrite Hy, Hbase. reflexivity.
    + by apply readIndex_range in Hidx.
Qed.

Lemma ExtractMeshData_index_values_witness :
  ExtractMeshData triangleModel plainPrimitive unitScale
    [mkVec3 F32.one F32.one F32.one] []
  = Some ([mkVec3 F32.one F32.one F32.one;
           mkVec3 F32.zero F32.zero F32.zero;
           mkVec3 F32.one F32.zero F32.zero;
           mkVec3 F32.zero F32.one F32.zero],
          [1; 2; 3]%Z)
  /\ [1; 2; 3]%Z !! (0 + 2) = Some (wrap32 (Z.of_nat (1 + 2)))
  /\ (snd <$> ExtractMeshData triangleModel oddPrimitive unitScale
                [mkVec3 F32.one F32.one F32.one] [])
     = Some [1; 1; 1]%Z.
Proof.
  assert (H : ExtractMeshData triangleModel plainPrimitive unitScale
                [mkVec3 F32.one F32.one F32.one] []
              = Some ([mkVec3 F32.one F32.one F32.one;
                       mkVec3 F32.zero F32.zero F32.zero;
                       mkVec3 F32.one F32.zero F32.zero;
                       mkVec3 F32.zero F32.one F32.zero],
                      [1; 2; 3]%Z))
    by (vm_compute; reflexivity).
  destruct (ExtractMeshData_index_values _ _ _ _ _ _ _ 0%Z
              positionAccessor H eq_refl eq_refl
              ltac:(simpl; lia)) as [Hplain _].
  destruct (Hplain ltac:(simpl; lia) 2 ltac:(simpl; lia)) as [Hl _].
  split; [exact H |]. split; [exact Hl | vm_compute; reflexivity].
Defined.

Lemma accessorBytes_inv model acc d off :
  accessorBytes model acc = Some (d, off) ->
  exists view buf b,
    index (tinygltf.bufferViews model) (tinygltf.bufferView acc) = Some view
    /\ index (tinygltf.buffers model) (tinygltf.buffer view) = Some buf
    /\ d = tinygltf.data buf
    /\ off = wrap64 (tinygltf.viewOffset view + tinygltf.byteOffset acc)
    /\ index d off = Some b.
Proof.
  unfold accessorBytes.
  destruct (index (tinygltf.bufferViews model) _) as [view|] eqn:Hview;
    [| discriminate].
  simpl.
  destruct (index (tinygltf.buffers model) _) as [buf|] eqn:Hbuf;
    [| discriminate].
  simpl.
  destruct (index (tinygltf.data buf) _) as [b|] eqn:Hb; [| discriminate].
  simpl. intros [= <- <-]. exists view, buf, b. auto 10.
Qed.

Lemma loadFloat_is_Some d posData j :
  (0 <= posData)%Z -> (0 <= j)%Z ->
  (posData + 4 * (j + 1) <= Z.of_nat (length d))%Z ->
  is_Some (loadFloat d posData j).
Proof.
  intros H0 Hj H. unfold loadFloat.
  destruct (loadLE_is_Some 4 d (posData + 4 * j)) as [v ->]; [lia | lia |].
  simpl. eauto.
Qed.

Lemma readVertex_is_Some d posData posStride scale i cnt :
  (0 <= posData)%Z -> (0 <= posStride)%Z -> (0 <= i < cnt)%Z ->
  (Z.of_nat (length d) < 2 ^ 64)%Z ->
  (posData + 4 * ((cnt - 1) * posStride + 3) <= Z.of_nat (length d))%Z ->
  is_Some (readVertex d posData posStride scale i).
Proof.
  intros H0 Hs Hi Hlen Hfit. unfold readVertex.
  assert (Hm : (0 <= i * posStride <= (cnt - 1) * posStride)%Z) by nia.
  assert (Hw : wrap64 (i * posStride) = (i * posStride)%Z)
    by (apply Z.mod_small; lia).
  rewrite Hw.
  assert (Hk : forall k, (0 <= k <= 2)%Z ->
                 wrap64 (i * posStride + k) = (i * posStride + k)%Z)
    by (intros k Hk; apply Z.mod_small; lia).
  rewrite !Hk by lia.
  destruct (loadFloat_is_Some d posData (i * posStride + 0)) as [x ->];
    [lia | lia | lia |]. simpl.
  destruct (loadFloat_is_Some d posData (i * posStride + 1)) as [y ->];
    [lia | lia | lia |]. simpl.
  destruct (loadFloat_is_Some d posData (i * posStride + 2)) as [z ->];
    [lia | lia | lia |]. simpl. eauto.
Qed.

Lemma readIndex_is_Some d idxData componentType i cnt :
  (0 <= idxData)%Z -> (0 <= i < cnt)%Z ->
  (idxData + indexWidth componentType * cnt <= Z.of_nat (length d))%Z ->
  is_Some (readIndex d idxData componentType i).
Proof.
  intros H0 Hi Hfit. unfold readIndex. unfold indexWidth in Hfit.
  destruct (componentType =? _)%Z; [apply loadLE_is_Some; simpl; nia |].
  destruct (componentType =? _)%Z; [apply loadLE_is_Some; simpl; nia |].
  destruct (componentType =? _)%Z; [apply loadLE_is_Some; simpl; nia |].
  eauto.
Qed.

(** X16. When [ExtractMeshData] returns.  The function checks nothing of
    what it reads; it returns, for any contents of the two vectors, as
    soon as the model meets what it takes for granted: the POSITION
    accessor, its buffer view and buffer exist and its first byte lies in
    the buffer; the count and stride are not negative and the last vertex,
    at (count - 1) times the stride plus three floats, ends within the
    buffer; and, for a primitive with indices, the same of the index
    accessor with count times the width of its component type (nothing
    for a type that is not read). *)
Theorem ExtractMeshData_returns
    (model : tinygltf.Model) (prim : tinygltf.Primitive) (scale : PxVec3)
    (vs : list PxVec3) (ixs : list PxU32)
    (position : Z) (pa : tinygltf.Accessor) (d : list Byte.byte) (off : Z) :
  tinygltf.attributes prim !! "POSITION" = Some position ->
  index (tinygltf.accessors model) position = Some pa ->
  accessorBytes model pa = Some (d, off) ->
  (0 <= tinygltf.count pa)%Z ->
  (0 <= positionStride model pa)%Z ->
  (Z.of_nat (length d) < 2 ^ 64)%Z ->
  ((0 < tinygltf.count pa)%Z ->
   (off + 4 * ((tinygltf.count pa - 1) * positionStride model pa + 3)
    <= Z.of_nat (length d))%Z) ->
  ((tinygltf.indices prim < 0)%Z
   \/ exists ia di offi,
        index (tinygltf.accessors model) (tinygltf.indices prim) = Some ia
        /\ accessorBytes model ia = Some (di, offi)
        /\ ((0 < tinygltf.count ia)%Z ->
            (offi + indexWidth (tinygltf.componentType ia) * tinygltf.count ia
             <= Z.of_nat (length di))%Z)) ->
  is_Some (ExtractMeshData model prim scale vs ixs).
Proof.
  intros Hpos Hpa Hbytes Hcount Hstride Hlen Hfit Hidx.
  destruct (accessorBytes_inv _ _ _ _ Hbytes)
    as (view & buf & b & Hview & Hbuf & -> & -> & Hb).
  unfold positionStride in *. rewrite Hview in *.
  unfold ExtractMeshData. rewrite Hpos, Hpa. simpl. rewrite Hview. simpl.
  rewrite Hbuf. simpl. rewrite Hb. simpl.
  apply index_Some in Hb as [Hoff _].
  destruct (mapM_is_Some_2
              (readVertex (tinygltf.data buf)
                 (wrap64 (tinygltf.viewOffset view + tinygltf.byteOffset pa))
                 (if (tinygltf.byteStride view =? 0)%Z then 3%Z
                  else (tinygltf.byteStride view / 4)%Z) scale)
              (seqZ 0 (tinygltf.count pa))) as [nv ->].
  { apply Forall_forall. intros i Hi. apply elem_of_seqZ in Hi.
    apply (readVertex_is_Some _ _ _ _ _ (tinygltf.count pa));
      [exact Hoff | exact Hstride | lia | exact Hlen | apply Hfit; lia]. }
  simpl. destruct Hidx as [Hneg | (ia & di & offi & Hia & Hib & Hifit)].
  - destruct (0 <=? tinygltf.indices prim)%Z eqn:E;
      [apply Z.leb_le in E; lia | eauto].
  - destruct (accessorBytes_inv _ _ _ _ Hib)
      as (iview & ibuf & b' & Hiview & Hibuf & -> & -> & Hb').
    pose proof (proj1 (index_Some _ _ _) Hia) as [Hnn _].
    apply Z.leb_le in Hnn. rewrite Hnn, Hia. simpl. rewrite Hiview. simpl.
    rewrite Hibuf. simpl. rewrite Hb'. simpl.
    apply index_Some in Hb' as [Hoffi _].
    match goal with
    | |- is_Some (mapM ?f ?l ≫= _) =>
      destruct (mapM_is_Some_2 f l) as [ni ->]; [| simpl; eauto]
    end.
    apply Forall_forall. intros i Hi. apply elem_of_seqZ in Hi. simpl.
    destruct (readIndex_is_Some (tinygltf.data ibuf)
                (wrap64 (tinygltf.viewOffset iview + tinygltf.byteOffset ia))
                (tinygltf.componentType ia) i (tinygltf.count ia))
      as [idx ->]; [lia | lia | apply Hifit; lia |].
    simpl. eauto.
Qed.

Lemma ExtractMeshData_returns_witness :
  is_Some (ExtractMeshData triangleModel indexedPrimitive unitScale [] []).
Proof.
  apply (ExtractMeshData_returns triangleModel indexedPrimitive unitScale [] []
           0%Z positionAccessor triangleBytes 0%Z).
  - vm_compute; reflexivity.
  - vm_compute; reflexivity.
  - vm_compute; reflexivity.
  - vm_compute; congruence.
  - vm_compute; congruence.
  - vm_compute; reflexivity.
  - intros _. vm_compute; congruence.
  - right.
    exists indexAccessor, triangleBytes, 36%Z.
    split; [vm_compute; reflexivity |]. split; [vm_compute; reflexivity |].
    intros _. vm_compute; congruence.
Defined.

(** The loader does not check what it reads: an accessor that counts one
    vertex more than the buffer holds runs off the buffer, and an index
    beyond the vertices is passed on as it is. *)
Example ExtractMeshData_unchecked :
  ExtractMeshData (withAccessors [positions 4]) plainPrimitive unitScale [] []
  = None
  /\ (snd <$> ExtractMeshData (withAccessors [positions 1; indexAccessor])
                indexedPrimitive unitScale [] [])
     = Some [0; 1; 2]%Z.
Proof. split; vm_compute; reflexivity. Qed.

(** ** The body builders *)

Lemma foldM_nil {A S : Type} (f : nat -> A -> S -> option S) s :
  foldM f [] s = Some s.
Proof. reflexivity. Qed.

Lemma foldM_snoc {A S : Type} (f : nat -> A -> S -> option S) l x s :
  foldM f (l ++ [x]) s = s' ← foldM f l s; f (length l) x s'.
Proof.
  unfold foldM. rewrite imap_app, foldl_app. simpl.
  rewrite Nat.add_0_r. reflexivity.
Qed.

Lemma ExtractMeshData_vertices model prim scale vs ixs r :
  ExtractMeshData model prim scale vs ixs = Some r ->
  length (fst r) = length vs + positionCount model prim.
Proof.
  intros H. apply ExtractMeshData_inv in H. unfold positionCount.
  destruct (tinygltf.attributes prim !! "POSITION") as [position|].
  - destruct H as (pa & d & off & nv & -> & _ & Hnv & -> & _).
    apply mapM_length in Hnv. rewrite length_seqZ in Hnv.
    rewrite length_app. lia.
  - subst r. simpl. lia.
Qed.

Lemma collect_primitives model scale prims : forall r r',
  foldM (fun (p : nat) prim (r : list PxVec3 * list PxU32) =>
           ExtractMeshData model prim scale (fst r) (snd r)) prims r = Some r' ->
  length (fst r') = length (fst r) + sum_list (positionCount model <$> prims).
Proof.
  induction prims as [|prim prims IH] using rev_ind; intros r r' H.
  - injection H as <-. simpl. lia.
  - rewrite foldM_snoc in H.
    destruct (foldM _ prims r) as [r1|] eqn:E; [| discriminate]. simpl in H.
    apply ExtractMeshData_vertices in H. rewrite H, (IH _ _ E).
    rewrite fmap_app, sum_list_with_app. simpl. lia.
Qed.

Lemma collect_meshes model scale meshes : forall r r',
  foldM (fun (m : nat) mesh =>
           foldM (fun (p : nat) prim (r : list PxVec3 * list PxU32) =>
                    ExtractMeshData model prim scale (fst r) (snd r))
                 (tinygltf.primitives mesh)) meshes r = Some r' ->
  length (fst r')
  = length (fst r)
    + sum_list ((fun mesh => sum_list (positionCount model
                                         <$> tinygltf.primitives mesh))
                  <$> meshes).
Proof.
  induction meshes as [|mesh meshes IH] using rev_ind; intros r r' H.
  - injection H as <-. simpl. lia.
  - rewrite foldM_snoc in H.
    destruct (foldM _ meshes r) as [r1|] eqn:E; [| discriminate]. simpl in H.
    apply collect_primitives in H. rewrite H, (IH _ _ E).
    rewrite fmap_app, sum_list_with_app. simpl. lia.
Qed.

(** X18. [CreateDynamicConvexBody] gathers the vertices of every
    primitive of every mesh into one point set.  When it returns, the
    result is null exactly if the model has no vertex at all, or cooking
    fails, or the convex mesh is not created; a model without vertices
    gives null before any pointer is used.  Otherwise the convex shape is
    built from as many points as the POSITION accessors of all
    primitives count together, and the physics, scene and material
    pointers were not null. *)
Theorem CreateDynamicConvexBody_result
    (physics scene material : bool) (a : BuilderAnswers)
    (model : tinygltf.Model) (scale : PxVec3) (r : option PxConvexMeshDesc) :
  CreateDynamicConvexBody physics scene material a model scale = Some r ->
  (r = None <-> vertexTotal model = 0 \/ cookSucceeds a 0 0 = false
                \/ meshCreated a 0 0 = false)
  /\ forall desc, r = Some desc ->
       length (convex_data desc) = vertexTotal model
       /\ convex_count desc = wrap32 (Z.of_nat (vertexTotal model))
       /\ physics = true /\ scene = true /\ material = true
       /\ rigidCreated a = true /\ shapeCreated a 0 0 = true.
Proof.
  unfold CreateDynamicConvexBody. intros H.
  destruct (foldM _ (tinygltf.meshes model) ([], [])) as [r0|] eqn:E;
    [| discriminate].
  simpl in H. apply collect_meshes in E. simpl in E.
  fold (vertexTotal model) in E.
  destruct (bool_decide (fst r0 = [])) eqn:Hempty.
  - apply bool_decide_eq_true in Hempty. rewrite Hempty in E. simpl in E.
    injection H as <-. split; [split; auto |]. discriminate.
  - apply bool_decide_eq_false in Hempty.
    assert (Hpos : vertexTotal model <> 0).
    { rewrite <- E. destruct (fst r0); [congruence | simpl; lia]. }
    destruct physics; [| discriminate]. simpl in H.
    destruct (cookSucceeds a 0 0); simpl in H.
    2:{ injection H as <-. split; [split; auto |]. discriminate. }
    destruct (meshCreated a 0 0); simpl in H.
    2:{ injection H as <-. split; [split; auto |]. discriminate. }
    destruct material, (shapeCreated a 0 0), (rigidCreated a), scene;
      try discriminate.
    simpl in H. injection H as <-. split.
    + split; [discriminate |]. intros [? | [? | ?]]; congruence.
    + intros desc [= <-]. simpl. rewrite E. auto 10.
Qed.

Lemma CreateDynamicConvexBody_result_witness :
  exists desc,
    CreateDynamicConvexBody true true true
      (mkBuilderAnswers true (fun _ _ => true) (fun _ _ => true) (fun _ _ => true))
      triangleModel unitScale = Some (Some desc)
    /\ length (convex_data desc) = 6.
Proof.
  pose (a := mkBuilderAnswers true (fun _ _ => true) (fun _ _ => true)
                              (fun _ _ => true)).
  pose (desc := default (mkConvexMeshDesc 0%Z [])
                  (default None
                     (CreateDynamicConvexBody true true true a triangleModel
                                              unitScale))).
  assert (H : CreateDynamicConvexBody true true true a triangleModel unitScale
              = Some (Some desc)) by (vm_compute; reflexivity).
  exists desc. split; [exact H |].
  destruct (proj2 (CreateDynamicConvexBody_result _ _ _ _ _ _ _ H) desc eq_refl)
    as (Hlen & _).
  rewrite Hlen. vm_compute. reflexivity.
Defined.

Lemma shapeOf_unique a model scale m p d d' :
  shapeOf a model scale m p d -> shapeOf a model scale m p d' -> d = d'.
Proof.
  intros (mesh & prim & Hm & Hp & He & _ & _ & Hc & Ht & _)
         (mesh' & prim' & Hm' & Hp' & He' & _ & _ & Hc' & Ht' & _).
  rewrite Hm in Hm'. injection Hm' as <-.
  rewrite Hp in Hp'. injection Hp' as <-.
  rewrite He in He'. injection He' as E1 E2.
  destruct d, d'. simpl in *. congruence.
Qed.

(** One round of the inner loop: nothing is attached, or the shape of the
    primitive is. *)
Lemma staticPrimitive_cases material a model scale m p mesh prim body body' :
  tinygltf.meshes model !! m = Some mesh ->
  tinygltf.primitives mesh !! p = Some prim ->
  staticPrimitive material a model scale m p prim body = Some body' ->
  (body' = body /\ forall d, ~ shapeOf a model scale m p d)
  \/ (exists d, body' = body ++ [d] /\ shapeOf a model scale m p d
                /\ material = true /\ rigidCreated a = true).
Proof.
  intros Hm Hp. unfold staticPrimitive.
  destruct (ExtractMeshData model prim scale [] []) as [[vs ixs]|] eqn:He;
    [| discriminate].
  simpl.
  assert (Hno : forall (P : PxTriangleMeshDesc -> Prop),
             (forall d, shapeOf a model scale m p d -> P d -> False) ->
             forall d, shapeOf a model scale m p d -> ~ P d).
  { intros P HP d Hd HPd. eauto. }
  destruct (bool_decide (vs = [])) eqn:Hv; simpl.
  { apply bool_decide_eq_true in Hv. intros [= <-]. left. split; [reflexivity |].
    intros d (mesh' & prim' & Hm' & Hp' & He' & Hne & _).
    rewrite Hm in Hm'. injection Hm' as <-.
    rewrite Hp in Hp'. injection Hp' as <-.
    rewrite He in He'. injection He' as E1 E2. congruence. }
  apply bool_decide_eq_false in Hv.
  destruct (length ixs <? 3) eqn:Hi.
  { apply Nat.ltb_lt in Hi. intros [= <-]. left. split; [reflexivity |].
    intros d (mesh' & prim' & Hm' & Hp' & He' & _ & Hlen & _).
    rewrite Hm in Hm'. injection Hm' as <-.
    rewrite Hp in Hp'. injection Hp' as <-.
    rewrite He in He'. injection He' as E1 E2. subst ixs. lia. }
  apply Nat.ltb_ge in Hi.
  destruct (cookSucceeds a m p) eqn:Hc; simpl.
  2:{ intros [= <-]. left. split; [reflexivity |].
      intros d (_ & _ & _ & _ & _ & _ & _ & _ & _ & Hc' & _). congruence. }
  destruct (meshCreated a m p) eqn:Hmc; simpl.
  2:{ intros [= <-]. left. split; [reflexivity |].
      intros d (_ & _ & _ & _ & _ & _ & _ & _ & _ & _ & Hmc'). congruence. }
  destruct material, (shapeCreated a m p), (rigidCreated a); try discriminate.
  simpl. intros [= <-]. right. eexists. split; [reflexivity |].
  split; [| auto]. exists mesh, prim. simpl. auto 12.
Qed.

Lemma static_primitives material a model scale m mesh :
  tinygltf.meshes model !! m = Some mesh ->
  forall prims rest body body',
    tinygltf.primitives mesh = prims ++ rest ->
    foldM (staticPrimitive material a model scale m) prims body = Some body' ->
    (forall d, d ∈ body' <->
               d ∈ body \/ exists p, p < length prims /\ shapeOf a model scale m p d)
    /\ (body' = body \/ material = true /\ rigidCreated a = true).
Proof.
  intros Hm. induction prims as [|prim prims IH] using rev_ind;
    intros rest body body' Hsplit H.
  - injection H as <-. split; [| auto]. intros d. split; [auto |].
    intros [? | (p & Hp & _)]; [assumption | simpl in Hp; lia].
  - rewrite foldM_snoc in H.
    destruct (foldM _ prims body) as [b1|] eqn:E; [| discriminate].
    simpl in H. rewrite <- app_assoc in Hsplit.
    destruct (IH _ _ _ Hsplit E) as [IH1 IH2].
    assert (Hp : tinygltf.primitives mesh !! length prims = Some prim).
    { rewrite Hsplit, lookup_app_r by lia.
      by replace (length prims - length prims) with 0 by lia. }
    rewrite length_app. simpl.
    destruct (staticPrimitive_cases _ _ _ _ _ _ _ _ _ _ Hm Hp H)
      as [[-> Hno] | (d0 & -> & Hd0 & Hmat & Hrig)].
    + split; [| exact IH2]. intros d. rewrite IH1. split.
      * intros [? | (p & Hlt & Hs)]; [auto |]. right. exists p. split; [lia | auto].
      * intros [? | (p & Hlt & Hs)]; [auto |].
        destruct (decide (p = length prims)) as [-> | Hne];
          [by apply Hno in Hs |].
        right. exists p. split; [lia | auto].
    + split; [| auto]. intros d. rewrite elem_of_app, IH1, list_elem_of_singleton.
      split.
      * intros [[? | (p & Hlt & Hs)] | ->]; [auto | |].
        -- right. exists p. split; [lia | auto].
        -- right. exists (length prims). split; [lia | auto].
      * intros [? | (p & Hlt & Hs)]; [auto |].
        destruct (decide (p = length prims)) as [-> | Hne].
        -- right. by eapply shapeOf_unique.
        -- left. right. exists p. split; [lia | auto].
Qed.

Lemma static_meshes material a model scale :
  forall meshes rest body body',
    tinygltf.meshes model = meshes ++ rest ->
    foldM (fun m mesh =>
             foldM (staticPrimitive material a model scale m)
                   (tinygltf.primitives mesh)) meshes body = Some body' ->
    (forall d, d ∈ body' <->
               d ∈ body
               \/ exists m p, m < length meshes /\ shapeOf a model scale m p d)
    /\ (body' = body \/ material = true /\ rigidCreated a = true).
Proof.
  induction meshes as [|mesh meshes IH] using rev_ind;
    intros rest body body' Hsplit H.
  - injection H as <-. split; [| auto]. intros d. split; [auto |].
    intros [? | (m & p & Hm & _)]; [assumption | simpl in Hm; lia].
  - rewrite foldM_snoc in H.
    destruct (foldM _ meshes body) as [b1|] eqn:E; [| discriminate].
    simpl in H. rewrite <- app_assoc in Hsplit.
    destruct (IH _ _ _ Hsplit E) as [IH1 IH2].
    assert (Hm : tinygltf.meshes model !! length meshes = Some mesh).
    { rewrite Hsplit, lookup_app_r by lia.
      by replace (length meshes - length meshes) with 0 by lia. }
    destruct (static_primitives _ _ _ _ _ _ Hm (tinygltf.primitives mesh) []
                b1 body' (eq_sym (app_nil_r _)) H) as [P1 P2].
    rewrite length_app. simpl. split.
    + intros d. rewrite P1, IH1. split.
      * intros [[? | (m & p & Hlt & Hs)] | (p & _ & Hs)]; [auto | |].
        -- right. exists m, p. split; [lia | auto].
        -- right. exists (length meshes), p. split; [lia | auto].
      * intros [? | (m & p & Hlt & Hs)]; [auto |].
        destruct (decide (m = length meshes)) as [-> | Hne].
        -- right. exists p. split; [| exact Hs].
           destruct Hs as (mesh' & prim & Hm' & Hp & _).
           rewrite Hm in Hm'. injection Hm' as <-.
           by eapply lookup_lt_Some.
        -- left. right. exists m, p. split; [lia | auto].
    + destruct P2 as [-> | ?]; [exact IH2 | auto].
Qed.

(** X17. [CreateStaticBody] attaches one shape for each primitive that
    yields at least one vertex and three indices (read into vectors that
    start empty, so indices count from zero) and that the engine cooks and
    creates a mesh for, and for no other; a mesh is described with as many
    triangles as a third of the indices, rounded down.  When the function
    returns, the physics pointer was not null; the result is null exactly
    if there is no such primitive, and the body has been created even
    then; with a body returned, it holds at least one shape and the scene
    and material pointers were not null. *)
Theorem CreateStaticBody_shapes
    (physics scene material : bool) (a : BuilderAnswers)
    (model : tinygltf.Model) (scale : PxVec3) (r : option PxRigidStatic) :
  CreateStaticBody physics scene material a model scale = Some r ->
  physics = true
  /\ rigidCreated a = true
  /\ (forall d, d ∈ default [] r <-> exists m p, shapeOf a model scale m p d)
  /\ (r = None <-> forall m p d, ~ shapeOf a model scale m p d)
  /\ (forall body, r = Some body ->
        body <> [] /\ scene = true /\ material = true).
Proof.
  unfold CreateStaticBody. destruct physics; [| discriminate]. cbn [negb].
  match goal with
  | |- context [foldM ?f (tinygltf.meshes model) ?s] =>
    destruct (foldM f (tinygltf.meshes model) s) as [body|] eqn:E;
      [| discriminate]
  end.
  simpl.
  destruct (static_meshes _ _ _ _ (tinygltf.meshes model) [] [] body
              (eq_sym (app_nil_r _)) E) as [H1 H2].
  assert (Hin : forall d, d ∈ body <-> exists m p, shapeOf a model scale m p d).
  { intros d. rewrite H1. split.
    - intros [Hd | (m & p & _ & Hs)]; [by apply elem_of_nil in Hd | eauto].
    - intros (m & p & Hs). right. exists m, p. split; [| exact Hs].
      destruct Hs as (mesh & _ & Hm & _). by eapply lookup_lt_Some. }
  destruct body as [|d0 body]; simpl.
  - destruct (rigidCreated a); [| discriminate]. simpl. intros [= <-].
    split; [reflexivity |]. split; [reflexivity |]. split; [exact Hin |].
    split; [| discriminate]. split; [| reflexivity].
    intros _ m p d Hs. apply (elem_of_nil d). apply Hin. eauto.
  - destruct scene; [| discriminate]. simpl. intros [= <-].
    destruct H2 as [? | [-> ->]]; [discriminate |].
    split; [reflexivity |]. split; [reflexivity |]. split; [exact Hin |].
    split.
    + split; [discriminate |]. intros Hno. exfalso.
      destruct (proj1 (Hin d0) (list_elem_of_here _ _)) as (m & p & Hs).
      by eapply Hno.
    + intros ? [= <-]. auto.
Qed.

Lemma CreateStaticBody_shapes_witness :
  exists body,
    CreateStaticBody true true true
      (mkBuilderAnswers true (fun _ _ => true) (fun _ p => negb (p =? 1))
                        (fun _ _ => true))
      triangleModel unitScale = Some (Some body)
    /\ length body = 1
    /\ (triangles_count <$> body) = [1%Z]
    /\ body <> [].
Proof.
  pose (a := mkBuilderAnswers true (fun _ _ => true) (fun _ p => negb (p =? 1))
                              (fun _ _ => true)).
  pose (body := default []
                  (default None
                     (CreateStaticBody true true true a triangleModel unitScale))).
  assert (H : CreateStaticBody true true true a triangleModel unitScale
              = Some (Some body)) by (vm_compute; reflexivity).
  exists body. split; [exact H |].
  split; [vm_compute; reflexivity |]. split; [vm_compute; reflexivity |].
  destruct (CreateStaticBody_shapes _ _ _ _ _ _ _ H) as (_ & _ & _ & _ & Hb).
  exact (proj1 (Hb body eq_refl)).
Defined.

(** ** Multiplying by one, and the floats of bit patterns *)

Lemma F32_one_bits : F32.one = S754_finite false 8388608 (-23).
Proof. vm_compute. reflexivity. Qed.

Lemma mul_one_finite (s : bool) (m : positive) (e : Z) :
  bounded F32.prec F32.emax m e = true ->
  F32.mul (S754_finite s m e) F32.one = S754_finite s m e.
Proof.
  intros Hb. unfold bounded, canonical_mantissa in Hb.
  apply andb_true_iff in Hb as [Hc He]. apply Z.eqb_eq in Hc.
  rewrite F32_one_bits. unfold F32.mul, SFmul, binary_round_aux.
  rewrite xorb_false_r.
  rewrite !Pos.mul_xO_r, Pos.mul_1_r.
  assert (Hd : forall p, (Zdigits2 (Z.pos p~0) = Zdigits2 (Z.pos p) + 1)%Z).
  { intros p. simpl. lia. }
  unfold shr_fexp at 1. rewrite !Hd.
  replace (Zdigits2 (Z.pos m) + 1 + 1 + 1 + 1 + 1 + 1 + 1 + 1 + 1 + 1 + 1 + 1
           + 1 + 1 + 1 + 1 + 1 + 1 + 1 + 1 + 1 + 1 + 1 + (e + -23))%Z
    with (Z.pos (digits2_pos m) + e)%Z by (simpl; lia).
  rewrite Hc. replace (e - (e + -23))%Z with 23%Z by lia.
  cbn [shr shr_record_of_loc].
  match goal with
  | |- context [SpecFloat.iter_pos shr_1 23 ?r] =>
    change (SpecFloat.iter_pos shr_1 23 r)
      with {| shr_m := Z.pos m; shr_r := false; shr_s := false |}
  end.
  cbn [shr_m shr_r shr_s loc_of_shr_record round_nearest_even].
  replace (e + -23 + 23)%Z with e by lia.
  unfold shr_fexp. cbn [Zdigits2]. rewrite Hc, Z.sub_diag.
  cbn [shr shr_record_of_loc shr_m]. rewrite He. reflexivity.
Qed.

Lemma digits2_pos_low (m : positive) :
  (2 ^ (Z.pos (digits2_pos m) - 1) <= Z.pos m)%Z.
Proof.
  induction m as [m IH | m IH |]; simpl; [| | lia];
    rewrite Pos2Z.inj_succ;
    replace (Z.succ (Z.pos (digits2_pos m)) - 1)%Z
      with (Z.succ (Z.pos (digits2_pos m) - 1)) by lia;
    rewrite Z.pow_succ_r by lia; lia.
Qed.

Lemma digits2_pos_range (m : positive) (n : Z) :
  (2 ^ (n - 1) <= Z.pos m < 2 ^ n)%Z -> Z.pos (digits2_pos m) = n.
Proof.
  intros [Hlo Hhi].
  pose proof (digits2_pos_bound m) as Hu. pose proof (digits2_pos_low m) as Hl.
  assert (0 < n)%Z.
  { destruct (Z.lt_trichotomy n 0%Z) as [Hn | [-> | Hn]]; [| simpl in Hhi; lia | lia].
    rewrite Z.pow_neg_r in Hhi by lia. lia. }
  assert (n - 1 < Z.pos (digits2_pos m))%Z
    by (apply (Z.pow_lt_mono_r_iff 2); lia).
  assert (Z.pos (digits2_pos m) - 1 < n)%Z
    by (apply (Z.pow_lt_mono_r_iff 2); lia).
  lia.
Qed.

Lemma digits2_pos_small (m : positive) (n : Z) :
  (Z.pos m < 2 ^ n)%Z -> (Z.pos (digits2_pos m) <= n)%Z.
Proof.
  intros Hhi. pose proof (digits2_pos_low m) as Hl.
  assert (0 <= n)%Z.
  { destruct (Z.lt_trichotomy n 0%Z) as [Hn | [-> | Hn]]; [| lia | lia].
    rewrite Z.pow_neg_r in Hhi by lia. lia. }
  assert (Z.pos (digits2_pos m) - 1 < n)%Z
    by (apply (Z.pow_lt_mono_r_iff 2); lia).
  lia.
Qed.

(** Every bit pattern gives a float that multiplying by one leaves as it
    is. *)
Lemma f32_of_bits_mul_one (bits : Z) :
  F32.mul (f32_of_bits bits) F32.one = f32_of_bits bits.
Proof.
  unfold f32_of_bits.
  assert (He : (0 <= Z.land (Z.shiftr bits 23) 255 < 256)%Z).
  { change 255%Z with (Z.ones 8). rewrite Z.land_ones by lia.
    apply Z.mod_pos_bound. lia. }
  assert (Hm : (0 <= Z.land bits (2 ^ 23 - 1) < 2 ^ 23)%Z).
  { change (2 ^ 23 - 1)%Z with (Z.ones 23). rewrite Z.land_ones by lia.
    apply Z.mod_pos_bound. lia. }
  set (e := Z.land (Z.shiftr bits 23) 255) in *.
  set (m := Z.land bits (2 ^ 23 - 1)) in *.
  set (sign := Z.testbit bits 31).
  destruct (e =? 0)%Z eqn:E0.
  - destruct (m =? 0)%Z eqn:M0.
    + rewrite F32_one_bits. simpl. by rewrite xorb_false_r.
    + apply Z.eqb_neq in M0. apply mul_one_finite.
      unfold bounded, canonical_mantissa. apply andb_true_iff. split; [| reflexivity].
      apply Z.eqb_eq.
      assert (Hd : (Z.pos (digits2_pos (Z.to_pos m)) <= 23)%Z).
      { apply digits2_pos_small. rewrite Z2Pos.id by lia. lia. }
      unfold fexp, emin, F32.prec, F32.emax. lia.
  - apply Z.eqb_neq in E0. destruct (e =? 255)%Z eqn:E255.
    + destruct (m =? 0)%Z; [| reflexivity].
      rewrite F32_one_bits. simpl. by rewrite xorb_false_r.
    + apply Z.eqb_neq in E255. apply mul_one_finite.
      assert (Hl : (2 ^ 23 <= Z.lor m (2 ^ 23) < 2 ^ 24)%Z).
      { assert (Hnn : (0 <= Z.lor m (2 ^ 23))%Z) by (apply Z.lor_nonneg; lia).
        assert (Hlog : Z.log2 (Z.lor m (2 ^ 23)) = 23%Z).
        { rewrite Z.log2_lor by lia. rewrite Z.log2_pow2 by lia.
          apply Z.max_r.
          destruct (Z.eq_dec m 0%Z) as [Hz | Hne]; [rewrite Hz; simpl; lia |].
          assert (Z.log2 m < 23)%Z by (apply Z.log2_lt_pow2; lia). lia. }
        assert (Hpos : (0 < Z.lor m (2 ^ 23))%Z).
        { destruct (Z.eq_dec (Z.lor m (2 ^ 23)) 0%Z) as [Hz | Hnz]; [| lia].
          rewrite Hz in Hlog. simpl in Hlog. lia. }
        pose proof (Z.log2_spec _ Hpos) as Hs. rewrite Hlog in Hs.
        change (Z.succ 23) with 24%Z in Hs. exact Hs. }
      unfold bounded, canonical_mantissa. apply andb_true_iff. split.
      * apply Z.eqb_eq.
        rewrite (digits2_pos_range _ 24) by (rewrite Z2Pos.id by lia; exact Hl).
        unfold fexp, emin, F32.prec, F32.emax. lia.
      * apply Z.leb_le. unfold F32.prec, F32.emax. lia.
Qed.

(** ** What is drawn and what collides *)

Lemma loadFloat_mul_one d p j x :
  loadFloat d p j = Some x -> F32.mul x F32.one = x.
Proof.
  unfold loadFloat. destruct (loadLE 4 d (p + 4 * j)) as [bits|]; [| discriminate].
  intros [= <-]. apply f32_of_bits_mul_one.
Qed.

Lemma buildVertex_position model prim d posData posStride normals colors i v :
  buildVertex model prim d posData posStride normals colors i = Some v ->
  readVertex d posData posStride unitScale i = Some (positionOf v).
Proof.
  unfold buildVertex, loadFloat3, readVertex.
  destruct (loadFloat d posData (wrap64 (wrap64 (i * posStride) + 0)))
    as [x|] eqn:Hx; [| discriminate]. simpl.
  destruct (loadFloat d posData (wrap64 (wrap64 (i * posStride) + 1)))
    as [y|] eqn:Hy; [| discriminate]. simpl.
  destruct (loadFloat d posData (wrap64 (wrap64 (i * posStride) + 2)))
    as [z|] eqn:Hz; [| discriminate]. simpl.
  destruct (match normals with Some _ => _ | None => _ end) as [n|];
    [| discriminate]. simpl.
  destruct (match colors with ColorFallback => _ | _ => _ end) as [c|];
    [| discriminate]. simpl.
  intros [= <-]. unfold positionOf. simpl.
  by rewrite (loadFloat_mul_one _ _ _ _ Hx), (loadFloat_mul_one _ _ _ _ Hy),
             (loadFloat_mul_one _ _ _ _ Hz).
Qed.

Lemma buildVertex_positions model prim d posData posStride normals colors
    (l : list Z) (nv : list Pipeline.Vertex) :
  mapM (buildVertex model prim d posData posStride normals colors) l = Some nv ->
  mapM (readVertex d posData posStride unitScale) l = Some (positionOf <$> nv).
Proof.
  intros H. apply mapM_Some in H. apply mapM_Some.
  induction H as [|i v l nv Hv _ IH]; [constructor |].
  rewrite fmap_cons. constructor; [| exact IH].
  by eapply buildVertex_position.
Qed.

(** The physics side reads what the renderer reads. *)
Lemma ExtractPrimitive_ExtractMeshData model prim rv ri r :
  ExtractPrimitive model prim rv ri = Some r ->
  ExtractMeshData model prim unitScale (positionOf <$> rv) ri
  = Some (positionOf <$> fst r, snd r).
Proof.
  unfold ExtractPrimitive, ExtractMeshData.
  destruct (tinygltf.attributes prim !! "POSITION") as [position|];
    [| by intros [= <-]].
  destruct (index (tinygltf.accessors model) position) as [pa|];
    [| discriminate]. simpl.
  destruct (index (tinygltf.bufferViews model) (tinygltf.bufferView pa))
    as [view|]; [| discriminate]. simpl.
  destruct (index (tinygltf.buffers model) (tinygltf.buffer view))
    as [buf|]; [| discriminate]. simpl.
  destruct (index (tinygltf.data buf) _) as [b0|]; [| discriminate]. simpl.
  destruct (match tinygltf.attributes prim !! "NORMAL" with
            | Some _ => _ | None => _ end) as [normals|]; [| discriminate].
  simpl.
  destruct (match tinygltf.attributes prim !! "COLOR_0" with
            | Some _ => _ | None => _ end) as [colors|]; [| discriminate].
  simpl.
  destruct (mapM (buildVertex _ _ _ _ _ _ _) _) as [nv|] eqn:Hnv;
    [| discriminate].
  simpl. rewrite (buildVertex_positions _ _ _ _ _ _ _ _ _ Hnv). simpl.
  rewrite <- fmap_app, length_fmap.
  destruct (0 <=? tinygltf.indices prim)%Z.
  - destruct (index (tinygltf.accessors model) (tinygltf.indices prim))
      as [ia|]; [| discriminate]. simpl.
    destruct (index (tinygltf.bufferViews model) (tinygltf.bufferView ia))
      as [iview|]; [| discriminate]. simpl.
    destruct (index (tinygltf.buffers model) (tinygltf.buffer iview))
      as [ibuf|]; [| discriminate]. simpl.
    destruct (index (tinygltf.data ibuf) _) as [b1|]; [| discriminate]. simpl.
    destruct (mapM _ (seqZ 0 (tinygltf.count ia))) as [ni|]; [| discriminate].
    simpl. by intros [= <-].
  - by intros [= <-].
Qed.



Lemma loadedPrimitive_cases model m p prim result result' :
  loadedPrimitive model m p prim result = Some result' ->
  exists r,
    ExtractPrimitive model prim [] [] = Some r
    /\ (forall x, x ∈ result -> x ∈ result')
    /\ (fst r <> [] -> snd r <> [] -> r ∈ result').
Proof.
  unfold loadedPrimitive.
  destruct (ExtractPrimitive model prim [] []) as [r|]; [| discriminate].
  simpl. intros H. exists r. split; [reflexivity |].
  destruct (bool_decide (fst r = [])) eqn:Hv; simpl in H.
  { apply bool_decide_eq_true in Hv. injection H as <-. split; [auto |]. tauto. }
  destruct (bool_decide (snd r = [])) eqn:Hi; simpl in H.
  { apply bool_decide_eq_true in Hi. injection H as <-. split; [auto |]. tauto. }
  injection H as <-. split.
  - intros x Hx. apply elem_of_app. auto.
  - intros _ _. apply elem_of_app. right. apply list_elem_of_here.
Qed.

Lemma loaded_primitives model m : forall prims result result',
  foldM (loadedPrimitive model m) prims result = Some result' ->
  (forall x, x ∈ result -> x ∈ result')
  /\ forall p prim, prims !! p = Some prim ->
       exists r, ExtractPrimitive model prim [] [] = Some r
                 /\ (fst r <> [] -> snd r <> [] -> r ∈ result').
Proof.
  induction prims as [|prim prims IH] using rev_ind; intros result result' H.
  - injection H as <-. split; [auto |]. intros p prim Hp. by destruct p.
  - rewrite foldM_snoc in H.
    destruct (foldM _ prims result) as [r1|] eqn:E; [| discriminate].
    simpl in H. destruct (IH _ _ E) as [IH1 IH2].
    destruct (loadedPrimitive_cases _ _ _ _ _ _ H) as (r & Hr & Hmono & Hin).
    split; [auto |]. intros p prim' Hp.
    destruct (decide (p < length prims)) as [Hlt | Hge].
    + rewrite lookup_app_l in Hp by exact Hlt.
      destruct (IH2 _ _ Hp) as (r' & Hr' & Hin'). exists r'. split; [exact Hr' |].
      auto.
    + rewrite lookup_app_r in Hp by lia.
      destruct (p - length prims) as [|k] eqn:Hk; [| by destruct k].
      injection Hp as <-. exists r. auto.
Qed.

Lemma loaded_meshes model : forall meshes result result',
  foldM (fun m mesh => foldM (loadedPrimitive model m) (tinygltf.primitives mesh))
        meshes result = Some result' ->
  (forall x, x ∈ result -> x ∈ result')
  /\ forall m mesh p prim,
       meshes !! m = Some mesh -> tinygltf.primitives mesh !! p = Some prim ->
       exists r, ExtractPrimitive model prim [] [] = Some r
                 /\ (fst r <> [] -> snd r <> [] -> r ∈ result').
Proof.
  induction meshes as [|mesh meshes IH] using rev_ind; intros result result' H.
  - injection H as <-. split; [auto |]. intros m mesh p prim Hm. by destruct m.
  - rewrite foldM_snoc in H.
    destruct (foldM _ meshes result) as [r1|] eqn:E; [| discriminate].
    simpl in H. destruct (IH _ _ E) as [IH1 IH2].
    destruct (loaded_primitives _ _ _ _ _ H) as [P1 P2].
    split; [auto |]. intros m mesh' p prim Hm Hp.
    destruct (decide (m < length meshes)) as [Hlt | Hge].
    + rewrite lookup_app_l in Hm by exact Hlt.
      destruct (IH2 _ _ _ _ Hm Hp) as (r' & Hr' & Hin'). exists r'. auto.
    + rewrite lookup_app_r in Hm by lia.
      destruct (m - length meshes) as [|k] eqn:Hk; [| by destruct k].
      injection Hm as <-. exact (P2 _ _ Hp).
Qed.

(** X20. What collides is drawn.  For one model, whenever the loop of
    [LoadModel] and [CreateStaticBody] at scale 1 both complete, each
    shape of the static body is the mesh of a primitive that is also among
    the meshes drawn: with the positions of the drawn vertices, in the
    same order, and the same indices, of which the collision mesh uses a
    third, rounded down, as triangles. *)
Theorem what_collides_is_drawn
    (physics scene material : bool) (a : BuilderAnswers)
    (model : tinygltf.Model) (drawn : list (list Pipeline.Vertex * list Z))
    (body : PxRigidStatic) (d : PxTriangleMeshDesc) :
  LoadModel_meshes model = Some drawn ->
  CreateStaticBody physics scene material a model unitScale = Some (Some body) ->
  d ∈ body ->
  exists rv ri,
    (rv, ri) ∈ drawn
    /\ points_data d = positionOf <$> rv
    /\ triangles_data d = ri
    /\ triangles_count d = wrap32 (Z.of_nat (length ri) / 3)
    /\ points_count d = wrap32 (Z.of_nat (length rv)).
Proof.
  intros Hdrawn Hbody Hd.
  unfold CreateStaticBody in Hbody. destruct physics; [| discriminate].
  cbn [negb] in Hbody.
  match type of Hbody with
  | context [foldM ?f (tinygltf.meshes model) ?s] =>
    destruct (foldM f (tinygltf.meshes model) s) as [body'|] eqn:E;
      [| discriminate]
  end.
  simpl in Hbody.
  destruct (static_meshes _ _ _ _ (tinygltf.meshes model) [] [] body'
              (eq_sym (app_nil_r _)) E) as [H1 _].
  assert (body' = body) as ->.
  { destruct (0 <? length body'); [| destruct (negb (rigidCreated a)); discriminate].
    destruct (negb scene); [discriminate | congruence]. }
  apply H1 in Hd as [Hd | (m & p & _ & Hs)]; [by apply elem_of_nil in Hd |].
  destruct Hs as (mesh & prim & Hm & Hp & He & Hne & Hlen & Hpc & Htc & _).
  destruct (proj2 (loaded_meshes _ _ _ _ Hdrawn) _ _ _ _ Hm Hp)
    as ([rv ri] & Hr & Hin).
  pose proof (ExtractPrimitive_ExtractMeshData _ _ _ _ _ Hr) as Hagree.
  assert (Heq : Some (points_data d, triangles_data d)
                = Some (positionOf <$> rv, ri))
    by (rewrite <- He; exact Hagree).
  injection Heq as Hv Hi.
  exists rv, ri. simpl in Hin.
  rewrite Hv, length_fmap in Hpc. rewrite Hi in Htc.
  split; [| auto]. apply Hin.
  - intros ->. simpl in Hv. congruence.
  - intros ->. rewrite Hi in Hlen. simpl in Hlen. lia.
Qed.

Lemma what_collides_is_drawn_witness :
  exists drawn body rv,
    LoadModel_meshes triangleModel = Some drawn
    /\ length drawn = 2
    /\ length body = 1
    /\ (rv, [0; 1; 2]%Z) ∈ drawn
    /\ (points_data <$> body) = [positionOf <$> rv].
Proof.
  pose (a := mkBuilderAnswers true (fun _ _ => true) (fun _ p => negb (p =? 1))
                              (fun _ _ => true)).
  pose (drawn := default [] (LoadModel_meshes triangleModel)).
  pose (body := default []
                  (default None
                     (CreateStaticBody true true true a triangleModel unitScale))).
  pose (d := default (mkTriangleMeshDesc 0%Z [] 0%Z []) (body !! 0)).
  assert (H1 : LoadModel_meshes triangleModel = Some drawn)
    by (vm_compute; reflexivity).
  assert (H2 : CreateStaticBody true true true a triangleModel unitScale
               = Some (Some body)) by (vm_compute; reflexivity).
  assert (H3 : d ∈ body).
  { apply (list_elem_of_lookup_2 _ 0). vm_compute. reflexivity. }
  destruct (what_collides_is_drawn _ _ _ _ _ _ _ _ H1 H2 H3)
    as (rv & ri & Hin & Hv & Hi & _).
  assert (Hri : ri = [0; 1; 2]%Z) by (rewrite <- Hi; vm_compute; reflexivity).
  subst ri. exists drawn, body, rv.
  split; [exact H1 |]. split; [vm_compute; reflexivity |].
  split; [vm_compute; reflexivity |]. split; [exact Hin |].
  rewrite <- Hv. vm_compute. reflexivity.
Defined.

(** ** The acquire semaphore of a frame *)

Lemma BeginFrame_step recreated r :
  ringOk r ->
  exists sem,
    index (mAcquireSemaphores r) (mAcquireSemaphoreIndex r) = Some sem
    /\ BeginFrame false recreated r
       = Some (sem, true,
               mkAcquireRing (mAcquireSemaphores r)
                 ((mAcquireSemaphoreIndex r + 1)
                  mod Z.of_nat (length (mAcquireSemaphores r))))
    /\ ringOk (mkAcquireRing (mAcquireSemaphores r)
                 ((mAcquireSemaphoreIndex r + 1)
                  mod Z.of_nat (length (mAcquireSemaphores r)))).
Proof.
  intros [Hi Hn]. unfold BeginFrame.
  destruct (index_is_Some (mAcquireSemaphores r) (mAcquireSemaphoreIndex r) Hi)
    as [sem Hs].
  exists sem. rewrite Hs. simpl.
  assert (Hw : wrap32 (Z.of_nat (length (mAcquireSemaphores r)))
               = Z.of_nat (length (mAcquireSemaphores r)))
    by (apply Z.mod_small; lia).
  assert (Hw1 : wrap32 (mAcquireSemaphoreIndex r + 1)
                = (mAcquireSemaphoreIndex r + 1)%Z)
    by (apply Z.mod_small; lia).
  rewrite Hw, Hw1.
  destruct (Z.of_nat (length (mAcquireSemaphores r)) =? 0)%Z eqn:E;
    [apply Z.eqb_eq in E; lia |].
  split; [reflexivity |]. split; [reflexivity |]. split; [| exact Hn]. simpl.
  apply Z.mod_pos_bound. lia.
Qed.

Lemma acquired_cycle n : forall r,
  ringOk r ->
  exists l,
    acquired n r = Some l
    /\ length l = n
    /\ forall k, k < n ->
         l !! k
         = mAcquireSemaphores r
             !! Z.to_nat ((mAcquireSemaphoreIndex r + Z.of_nat k)
                          mod Z.of_nat (length (mAcquireSemaphores r))).
Proof.
  induction n as [|n IH]; intros r Hok.
  - exists []. split; [reflexivity |]. split; [reflexivity |]. intros k Hk. lia.
  - destruct (BeginFrame_step r r Hok) as (sem & Hs & Hb & Hok').
    destruct (IH _ Hok') as (l & Hl & Hlen & Hk).
    simpl in Hl, Hk. simpl. rewrite Hb. simpl. rewrite Hl. simpl.
    exists (sem :: l). split; [reflexivity |]. split; [simpl; lia |].
    destruct Hok as [Hi Hn]. intros [|k] Hlt.
    + simpl. apply index_Some in Hs as [_ Hs].
      rewrite Z.add_0_r, Z.mod_small by lia. by rewrite Hs.
    + simpl. rewrite Hk by lia. do 2 f_equal.
      rewrite Zplus_mod_idemp_l. f_equal. lia.
Qed.

(** X21. [EndFrame] waits on the semaphore of its frame.  With the index
    inside a ring of at most 2^31 semaphores, a [BeginFrame] that does not
    find the swapchain out of date hands the semaphore at the index to the
    acquire call and moves the index on by one, around the ring; the index
    [EndFrame] then computes, one back around the ring in 32 bit
    arithmetic, is the one [BeginFrame] used, so the submission waits on
    the very semaphore the image was acquired with.  Frames in a row
    take the semaphores in ring order, so a semaphore comes up again only
    after every other one has been used.  The ring [CreateSyncResources]
    makes for up to 2^31 - 1 images is such a ring, one semaphore longer
    than there are images. *)
Theorem EndFrame_waits_on_acquire_semaphore
    (recreated r r' : AcquireRing) (sem : VkSemaphore) (go : bool) :
  ringOk r ->
  BeginFrame false recreated r = Some (sem, go, r') ->
  go = true
  /\ index (mAcquireSemaphores r) (mAcquireSemaphoreIndex r) = Some sem
  /\ EndFrame r' = Some sem
  /\ mAcquireSemaphores r' = mAcquireSemaphores r
  /\ mAcquireSemaphoreIndex r'
     = ((mAcquireSemaphoreIndex r + 1)
        mod Z.of_nat (length (mAcquireSemaphores r)))%Z
  /\ ringOk r'
  /\ (forall n, exists l,
        acquired n r = Some l
        /\ length l = n
        /\ forall k, k < n ->
             l !! k
             = mAcquireSemaphores r
                 !! Z.to_nat ((mAcquireSemaphoreIndex r + Z.of_nat k)
                              mod Z.of_nat (length (mAcquireSemaphores r))))
  /\ forall imageCount created,
       (0 <= imageCount < 2 ^ 31)%Z ->
       ringOk (CreateSyncResources imageCount created)
       /\ length (mAcquireSemaphores (CreateSyncResources imageCount created))
          = S (Z.to_nat imageCount).
Proof.
  intros Hok H. destruct (BeginFrame_step recreated r Hok) as (s & Hs & Hb & Hok').
  rewrite Hb in H. injection H as <- <- <-.
  pose proof (fun n => acquired_cycle n r Hok) as Hcycle.
  destruct Hok as [Hi Hn].
  split; [reflexivity |]. split; [exact Hs |]. split.
  - unfold EndFrame. simpl.
    set (n := Z.of_nat (length (mAcquireSemaphores r))) in *.
    assert (Hw : wrap32 n = n) by (apply Z.mod_small; lia).
    rewrite Hw. destruct (n =? 0)%Z eqn:E; [apply Z.eqb_eq in E; lia |].
    assert (Hused : (wrap32 (wrap32 ((mAcquireSemaphoreIndex r + 1) mod n + n) - 1)
                     mod n)%Z = mAcquireSemaphoreIndex r).
    { pose proof (Z.mod_pos_bound (mAcquireSemaphoreIndex r + 1) n ltac:(lia)).
      unfold wrap32. rewrite (Z.mod_small (_ + n)%Z) by lia.
      rewrite (Z.mod_small (_ - 1)%Z) by lia.
      destruct (Z.eq_dec (mAcquireSemaphoreIndex r + 1)%Z n) as [Heq | Hne].
      - rewrite Heq, Z.mod_same by lia. simpl.
        rewrite Z.mod_small by lia. lia.
      - rewrite (Z.mod_small (mAcquireSemaphoreIndex r + 1)%Z) by lia.
        replace (mAcquireSemaphoreIndex r + 1 + n - 1)%Z
          with (mAcquireSemaphoreIndex r + 1 * n)%Z by lia.
        rewrite Z.mod_add by lia. apply Z.mod_small. lia. }
    rewrite Hused. exact Hs.
  - split; [reflexivity |]. split; [reflexivity |]. split; [exact Hok' |].
    split; [exact Hcycle |].
    intros imageCount created Hc. unfold CreateSyncResources, ringOk. simpl.
    rewrite length_fmap, length_seq.
    assert (Hw : wrap32 (imageCount + 1) = (imageCount + 1)%Z)
      by (apply Z.mod_small; lia).
    rewrite Hw. split; [lia |]. lia.
Qed.

Lemma EndFrame_waits_on_acquire_semaphore_witness :
  acquired 5 (CreateSyncResources 3 (fun i => 100 + i))
  = Some [100; 101; 102; 103; 100]
  /\ (b ← BeginFrame false (mkAcquireRing [] 0)
            (mkAcquireRing [100; 101; 102; 103] 3);
      EndFrame (snd b)) = Some 103.
Proof.
  split; [vm_compute; reflexivity |].
  assert (Hok : ringOk (mkAcquireRing [100; 101; 102; 103] 3))
    by (unfold ringOk; simpl; lia).
  destruct (BeginFrame false (mkAcquireRing [] 0)
              (mkAcquireRing [100; 101; 102; 103] 3))
    as [[[sem go] r']|] eqn:Hb; [| vm_compute in Hb; discriminate].
  destruct (EndFrame_waits_on_acquire_semaphore _ _ _ _ _ Hok Hb)
    as (_ & Hs & He & _).
  simpl. rewrite He. rewrite <- Hs. vm_compute. reflexivity.
Defined.

(** ** When TryIntake takes a block, and what a refusal leaves *)

(** X22. The decisions of [TryIntake].  It returns true exactly when the
    block exists, is not held and has a body, the robot has a chassis and
    room, the distance from the front is not above the intake range (a
    distance that is not a number passes this test), and the engine
    creates the joint; the state it leaves is then the attached one.
    When one of the checks fails it returns false and changes nothing at
    all.  Only when every check passes and the engine creates no joint
    does it return false with the block already moved. *)
Theorem TryIntake_decision (created : bool) (i : nat) (w : World) :
  (forall w', TryIntake created i w = (true, w') <->
              created = true
              /\ exists blk chassis b,
                   intakeReady i blk chassis b w
                   /\ w' = attachedWorld i blk chassis b w)
  /\ ((forall blk chassis b, ~ intakeReady i blk chassis b w) ->
      TryIntake created i w = (false, w))
  /\ (forall blk chassis b,
        intakeReady i blk chassis b w -> created = false ->
        TryIntake created i w = (false, abortedWorld i blk chassis b w))
  /\ (forall blk chassis b,
        intakeReady i blk chassis b w <->
        blocks w !! i = Some blk /\ mChassis (robot w) = Some chassis
        /\ held blk = false /\ body blk = Some b
        /\ GetHeldCount (robot w) < MAX_HELD_BLOCKS
        /\ F32.ltb INTAKE_RANGE (frontDistance (robot w) b) = false)
  /\ (forall x, F32.is_nan x = true -> F32.ltb INTAKE_RANGE x = false).
Proof.
  split; [| split; [| split; [| split]]].
  - intros w'. split.
    + apply TryIntake_true.
    + intros (-> & blk & chassis & b & R & ->).
      exact (TryIntake_ready true _ _ _ _ _ R).
  - intros Hno.
    destruct (TryIntake_cases created i w) as [E | (blk & chassis & b & R)];
      [exact E | by apply Hno in R].
  - intros blk chassis b R ->. exact (TryIntake_ready false _ _ _ _ _ R).
  - intros blk chassis b. unfold intakeReady, IsIntakeFull, GetHeldCount.
    rewrite Nat.leb_gt. tauto.
  - intros x Hx. destruct x; try discriminate. reflexivity.
Qed.

(** ** Blocks stay *)

Lemma blocks_stay_exec e w w' :
  exec e w = Some w' ->
  length (blocks w) <= length (blocks w')
  /\ forall i g, blocks w !! i = Some g ->
       exists g', blocks w' !! i = Some g'
                  /\ color g' = color g
                  /\ (is_Some (body g) -> is_Some (body g')).
Proof.
  assert (Hsame : forall w0 w1 : World,
             blocks w1 = blocks w0 ->
             length (blocks w0) <= length (blocks w1)
             /\ forall i g, blocks w0 !! i = Some g ->
                  exists g', blocks w1 !! i = Some g' /\ color g' = color g
                             /\ (is_Some (body g) -> is_Some (body g')))
    by (intros w0 w1 ->; split; [lia | eauto]).
  assert (Hins : forall (bs : list GameBlock) j gj,
             (forall g, bs !! j = Some g ->
                        color gj = color g /\ is_Some (body gj)) ->
             length bs <= length (<[j := gj]> bs)
             /\ forall i g, bs !! i = Some g ->
                  exists g', <[j := gj]> bs !! i = Some g' /\ color g' = color g
                             /\ (is_Some (body g) -> is_Some (body g'))).
  { intros bs j gj Hj. rewrite length_insert. split; [lia |]. intros i g Hg.
    destruct (decide (i = j)) as [-> | Hne].
    - exists gj. rewrite list_lookup_insert_eq by (by eapply lookup_lt_Some).
      destruct (Hj g Hg). auto.
    - exists g. rewrite list_lookup_insert_ne by congruence. auto. }
  destruct e as [l r | created c pos | created i | | dt | sim dt]; simpl.
  - intros [= <-]. by apply Hsame.
  - rewrite SpawnBlock_spawns. destruct (spawns created); [| discriminate].
    intros [= <-]. simpl.
    rewrite length_app. split; [lia |]. intros i g Hg. exists g.
    rewrite lookup_app_l by (by eapply lookup_lt_Some). auto.
  - intros [= <-].
    destruct (TryIntake_cases created i w) as [E | (blk & chassis & b & R)].
    + rewrite E. by apply Hsame.
    + rewrite (TryIntake_ready created _ _ _ _ _ R).
      destruct R as (Hb & _).
      destruct created; simpl; apply Hins; intros g Hg;
        rewrite Hb in Hg; injection Hg as <-; simpl; eauto.
  - unfold Outtake. intros H.
    destruct (last (mHeldBlocks (robot w))) as [hb|];
      [| injection H as <-; by apply Hsame].
    simpl in H.
    destruct (blocks w !! block hb) as [blk|] eqn:Hb;
      [| injection H as <-; by apply Hsame].
    destruct (body blk) as [b|]; [| injection H as <-; by apply Hsame].
    destruct (joint hb); simpl in H;
      (destruct (mChassis (robot w)); [| discriminate]);
      injection H as <-; simpl; apply Hins; intros g Hg;
      rewrite Hb in Hg; injection Hg as <-; simpl; eauto.
  - intros [= <-]. by apply Hsame.
  - intros [= <-]. simpl. rewrite length_imap. split; [lia |].
    intros i g Hg. rewrite list_lookup_imap, Hg. simpl.
    eexists. split; [reflexivity |]. simpl. split; [reflexivity |].
    intros [b ->]. simpl. eauto.
Qed.

Lemma blocks_stay_run es : forall w w',
  run es w = Some w' ->
  length (blocks w) <= length (blocks w')
  /\ forall i g, blocks w !! i = Some g ->
       exists g', blocks w' !! i = Some g'
                  /\ color g' = color g
                  /\ (is_Some (body g) -> is_Some (body g')).
Proof.
  induction es as [|e es IH]; intros w w' H; simpl in H.
  - injection H as <-. split; [lia | eauto].
  - destruct (exec e w) as [w1|] eqn:He; [| discriminate]. simpl in H.
    destruct (blocks_stay_exec _ _ _ He) as [L1 B1].
    destruct (IH _ _ H) as [L2 B2]. split; [lia |].
    intros i g Hg. destruct (B1 _ _ Hg) as (g1 & Hg1 & Hc1 & Hb1).
    destruct (B2 _ _ Hg1) as (g2 & Hg2 & Hc2 & Hb2).
    exists g2. split; [exact Hg2 |]. split; [congruence | auto].
Qed.

(** X23. Blocks stay.  No event of a session, and so no pass of the loop
    of main, removes a block or moves it in the list: the list never
    shrinks, and the block at a place keeps that place, its colour and its
    body for good.  The places the [HeldBlock] records name therefore stay
    valid, whatever is spawned later. *)
Theorem blocks_stay (fuel : nat) (fis : list FrameInput) (l l' : MainLoop)
    (i : nat) (g : GameBlock) :
  frames fuel fis l = Some l' ->
  blocks (world l) !! i = Some g ->
  length (blocks (world l)) <= length (blocks (world l'))
  /\ exists g', blocks (world l') !! i = Some g'
                /\ color g' = color g
                /\ (is_Some (body g) -> is_Some (body g')).
Proof.
  intros H Hg.
  assert (Hs : Steps (world l) (world l')).
  { clear Hg. revert l H. induction fis as [|fi fis IH]; intros l H; simpl in H.
    - injection H as <-. apply Steps_refl.
    - destruct (frame fuel fi l) as [l1|] eqn:Hf; [| discriminate].
      simpl in H. eapply Steps_trans; [| exact (IH _ H)].
      exact (proj1 (frame_Steps _ _ _ _ Hf)). }
  destruct Hs as [es Hrun].
  destruct (blocks_stay_run _ _ _ Hrun) as [L B]. split; [exact L | eauto].
Qed.

Lemma blocks_stay_witness :
  blocks (world (afterPasses 1)) !! 0 = Some (mkBlock
    (body (default (mkBlock None RED false) (blocks (world (afterPasses 1)) !! 0)))
    RED false)
  /\ length (blocks (world (afterPasses 1)))
     <= length (blocks (world (afterPasses 4)))
  /\ exists g', blocks (world (afterPasses 4)) !! 0 = Some g'
                /\ color g' = RED.
Proof.
  assert (H : frames 7 (drop 1 samplePasses) (afterPasses 1)
              = Some (afterPasses 4)) by (vm_compute; reflexivity).
  pose (g := mkBlock
    (body (default (mkBlock None RED false) (blocks (world (afterPasses 1)) !! 0)))
    RED false).
  assert (Hg : blocks (world (afterPasses 1)) !! 0 = Some g)
    by (vm_compute; reflexivity).
  destruct (blocks_stay 7 _ _ _ 0 g H Hg) as (L & g' & Hg' & Hc & _).
  split; [exact Hg |]. split; [exact L |]. exists g'. auto.
Defined.

(** ** Meshes are destroyed once *)

Ltac by_elements :=
  try apply set_eq; intros;
  rewrite ?elem_of_difference, ?elem_of_union, ?elem_of_singleton,
          ?elem_of_difference, ?elem_of_union, ?elem_of_singleton;
  intuition congruence.

Lemma fresh_swap (n x : nat) (s : gset nat) :
  n ∉ s -> x <> n -> ({[x]} ∪ ({[n]} ∪ s)) ∖ {[n]} = {[x]} ∪ s.
Proof. intros Hn Hx. by_elements. Qed.

Lemma fresh_round (n : nat) (s : gset nat) :
  n ∉ s -> ({[n]} ∪ s) ∖ {[n]} = s.
Proof. intros Hn. by_elements. Qed.

Lemma pair_round (a b : nat) (s : gset nat) :
  a ∉ s -> b ∉ s -> a <> b ->
  (({[b]} ∪ ({[a]} ∪ s)) ∖ {[a]}) ∖ {[b]} = s
  /\ {[b]} ∪ ({[a]} ∪ s) = {[a; b]} ∪ s
  /\ a ∈ {[b]} ∪ ({[a]} ∪ s)
  /\ b ∈ ({[b]} ∪ ({[a]} ∪ s)) ∖ {[a]}.
Proof. intros Ha Hb Hab. repeat split; by_elements. Qed.

Lemma CreateBufferWithStaging_ok (d : Device) :
  deviceOk d ->
  exists d',
    CreateBufferWithStaging allUploaded d = (Some (S (nextHandle d)), d')
    /\ liveBuffers d' = {[S (nextHandle d)]} ∪ liveBuffers d
    /\ livePools d' = livePools d
    /\ nextHandle d' = S (S (S (nextHandle d)))
    /\ deviceOk d'.
Proof.
  intros Hok.
  assert (Hb : nextHandle d ∉ liveBuffers d).
  { intros Hin. assert (nextHandle d < nextHandle d); [| lia].
    apply Hok. apply elem_of_union. by left. }
  assert (Hp : S (S (nextHandle d)) ∉ livePools d).
  { intros Hin. assert (S (S (nextHandle d)) < nextHandle d); [| lia].
    apply Hok. apply elem_of_union. by right. }
  eexists. split; [reflexivity |]. simpl.
  split; [apply fresh_swap; [exact Hb | lia] |].
  split; [apply fresh_round; exact Hp |]. split; [reflexivity |].
  intros h Hin. simpl in Hin.
  rewrite fresh_swap in Hin by (exact Hb || lia).
  rewrite fresh_round in Hin by exact Hp. simpl.
  apply elem_of_union in Hin as [Hin | Hin].
  - apply elem_of_union in Hin as [Hin | Hin].
    + apply elem_of_singleton in Hin. lia.
    + assert (h < nextHandle d); [| lia]. apply Hok. apply elem_of_union. by left.
  - assert (h < nextHandle d); [| lia]. apply Hok. apply elem_of_union. by right.
Qed.

(** X24. A mesh is destroyed once.  On a device whose handles are in
    order, a [CreateMesh] whose uploads all succeed returns a mesh with
    two buffers of its own and leaves no staging buffer or command pool
    behind; [DestroyMesh] then returns the device to the buffers it had
    before and the mesh to null handles and a count of zero (as does
    [DestroyModel] on a vector holding it), and a second [DestroyMesh] on
    that mesh changes nothing and cannot fault, while one through a copy
    of the mesh made before, which still holds the handles, does.  When
    the index upload fails where the vertex upload succeeded, [CreateMesh]
    is left by the exception with the vertex buffer alive and no mesh to
    destroy it through. *)
Theorem mesh_destroyed_once
    (indices : list Z) (d : Device) (failing : UploadAnswers) :
  deviceOk d ->
  (exists mesh d',
     CreateMesh allUploaded allUploaded indices d = (Some mesh, d')
     /\ indexCount mesh = wrap32 (Z.of_nat (length indices))
     /\ (exists vb ib, vertexBuffer mesh = Some vb /\ indexBuffer mesh = Some ib
                       /\ vb <> ib /\ (vb ∉ liveBuffers d) /\ (ib ∉ liveBuffers d)
                       /\ liveBuffers d' = {[vb; ib]} ∪ liveBuffers d)
     /\ livePools d' = livePools d
     /\ exists d'',
          DestroyMesh mesh d' = Some (mkMesh None None 0, d'')
          /\ DestroyModel [mesh] d' = Some d''
          /\ liveBuffers d'' = liveBuffers d
          /\ livePools d'' = livePools d
          /\ DestroyMesh (mkMesh None None 0) d''
             = Some (mkMesh None None 0, d'')
          /\ DestroyMesh mesh d'' = None)
  /\ (stagingCreated failing && gpuCreated failing && poolCreated failing
      && commandAllocated failing = false ->
      exists d',
        CreateMesh allUploaded failing indices d = (None, d')
        /\ S (nextHandle d) ∈ liveBuffers d'
        /\ S (nextHandle d) ∉ liveBuffers d).
Proof.
  intros Hok.
  destruct (CreateBufferWithStaging_ok d Hok) as (d1 & H1 & B1 & P1 & N1 & Hok1).
  destruct (CreateBufferWithStaging_ok d1 Hok1) as (d2 & H2 & B2 & P2 & N2 & Hok2).
  assert (Hfresh : forall k, nextHandle d + k ∉ liveBuffers d).
  { intros k Hin. assert (nextHandle d + k < nextHandle d); [| lia].
    apply Hok. apply elem_of_union. by left. }
  pose proof (Hfresh 1) as F1. pose proof (Hfresh 4) as F4.
  replace (nextHandle d + 1) with (S (nextHandle d)) in F1 by lia.
  replace (nextHandle d + 4) with (S (nextHandle d1)) in F4 by lia.
  assert (Hne : S (nextHandle d) <> S (nextHandle d1)) by lia.
  destruct (pair_round _ _ _ F1 F4 Hne) as (R1 & R2 & R3 & R4).
  split.
  - exists (mkMesh (Some (S (nextHandle d))) (Some (S (nextHandle d1)))
                   (wrap32 (Z.of_nat (length indices)))), d2.
    split; [unfold CreateMesh; rewrite H1, H2; reflexivity |].
    split; [reflexivity |]. split.
    { exists (S (nextHandle d)), (S (nextHandle d1)). simpl.
      split; [reflexivity |]. split; [reflexivity |]. split; [exact Hne |].
      split; [exact F1 |]. split; [exact F4 |]. by rewrite B2, B1. }
    split; [congruence |].
    set (mesh := mkMesh (Some (S (nextHandle d))) (Some (S (nextHandle d1)))
                        (wrap32 (Z.of_nat (length indices)))).
    set (d'' := mkDevice ((liveBuffers d2 ∖ {[S (nextHandle d)]})
                            ∖ {[S (nextHandle d1)]})
                         (livePools d2) (nextHandle d2)).
    assert (Hd : DestroyMesh mesh d2 = Some (mkMesh None None 0, d'')).
    { unfold DestroyMesh, destroyBuffer. simpl.
      rewrite bool_decide_eq_true_2 by (rewrite B2, B1; exact R3). simpl.
      rewrite bool_decide_eq_true_2 by (rewrite B2, B1; exact R4).
      reflexivity. }
    assert (Hl : liveBuffers d'' = liveBuffers d)
      by (unfold d''; simpl; rewrite B2, B1; exact R1).
    exists d''. split; [exact Hd |].
    split; [simpl; rewrite Hd; reflexivity |].
    split; [exact Hl |]. split; [simpl; congruence |]. split; [reflexivity |].
    unfold DestroyMesh, destroyBuffer. cbn [vertexBuffer mesh].
    rewrite Hl, bool_decide_eq_false_2 by exact F1. reflexivity.
  - intros Hfail. unfold CreateMesh. rewrite H1.
    assert (Hin1 : S (nextHandle d) ∈ liveBuffers d1)
      by (rewrite B1; apply elem_of_union; left; by apply elem_of_singleton).
    unfold CreateBufferWithStaging.
    destruct failing as [s g p c]. simpl in Hfail.
    destruct s; simpl; [| eexists; split; [reflexivity |]; by split].
    destruct g; simpl;
      [| eexists; split; [reflexivity |]; simpl;
         split; [rewrite ?elem_of_union; auto | exact F1]].
    destruct p; simpl;
      [| eexists; split; [reflexivity |]; simpl;
         split; [rewrite ?elem_of_union; auto | exact F1]].
    destruct c; [simpl in Hfail; discriminate |]. simpl.
    eexists. split; [reflexivity |]. simpl.
    split; [rewrite ?elem_of_union; auto | exact F1].
Qed.

Lemma mesh_destroyed_once_witness :
  exists mesh d',
    CreateMesh allUploaded allUploaded [0; 1; 2]%Z (mkDevice ∅ ∅ 0)
    = (Some mesh, d')
    /\ indexCount mesh = 3%Z
    /\ fst <$> DestroyMesh mesh d' = Some (mkMesh None None 0).
Proof.
  assert (Hok : deviceOk (mkDevice ∅ ∅ 0)).
  { intros h Hh. simpl in Hh. apply elem_of_union in Hh as [Hh | Hh];
      by apply elem_of_empty in Hh. }
  destruct (proj1 (mesh_destroyed_once [0; 1; 2]%Z (mkDevice ∅ ∅ 0)
                     allUploaded Hok))
    as (mesh & d' & Hc & Hn & _ & _ & d'' & Hd & _ & _).
  exists mesh, d'. split; [exact Hc |]. split; [exact Hn |].
  rewrite Hd. reflexivity.
Defined.

(** ** The drivetrain of a session *)

Lemma Update_geometry dt r :
  jointGeometry <$> mWheelJoints (Update dt r) = jointGeometry <$> mWheelJoints r.
Proof.
  unfold Update. destruct (mChassis r); [| reflexivity]. simpl.
  apply list_eq. intros i. rewrite !list_lookup_fmap, list_lookup_imap.
  by destruct (mWheelJoints r !! i).
Qed.

Lemma Update_forceLimit dt r :
  Forall (fun j => driveForceLimit j = DRIVE_TORQUE) (mWheelJoints r) ->
  Forall (fun j => driveForceLimit j = DRIVE_TORQUE) (mWheelJoints (Update dt r)).
Proof.
  intros H. unfold Update. destruct (mChassis r); [| exact H]. simpl.
  apply Forall_lookup. intros i j Hj. rewrite list_lookup_imap in Hj.
  destruct (mWheelJoints r !! i); [| discriminate].
  simpl in Hj. by injection Hj as <-.
Qed.

Lemma drivetrain_exec e w w' :
  exec e w = Some w' ->
  (jointGeometry <$> mWheelJoints (robot w')
   = jointGeometry <$> mWheelJoints (robot w))
  /\ (Forall (fun j => driveForceLimit j = DRIVE_TORQUE) (mWheelJoints (robot w)) ->
      Forall (fun j => driveForceLimit j = DRIVE_TORQUE) (mWheelJoints (robot w'))).
Proof.
  destruct e as [l r | created c pos | created i | | dt | sim dt]; simpl.
  - by intros [= <-].
  - rewrite SpawnBlock_spawns. destruct (spawns created); [| discriminate].
    by intros [= <-].
  - intros [= <-].
    destruct (TryIntake_cases created i w) as [E | (blk & chassis & b & R)].
    + by rewrite E.
    + rewrite (TryIntake_ready created _ _ _ _ _ R). by destruct created.
  - unfold Outtake. intros H.
    destruct (last (mHeldBlocks (robot w))) as [hb|]; [| by injection H as <-].
    simpl in H.
    destruct (blocks w !! block hb) as [blk|]; [| by injection H as <-].
    destruct (body blk) as [b|]; [| by injection H as <-].
    destruct (joint hb); simpl in H;
      (destruct (mChassis (robot w)); [| discriminate]);
      by injection H as <-.
  - intros [= <-]. simpl. split; [apply Update_geometry | apply Update_forceLimit].
  - by intros [= <-].
Qed.

Lemma drivetrain_run es : forall w w',
  run es w = Some w' ->
  (jointGeometry <$> mWheelJoints (robot w')
   = jointGeometry <$> mWheelJoints (robot w))
  /\ (Forall (fun j => driveForceLimit j = DRIVE_TORQUE) (mWheelJoints (robot w)) ->
      Forall (fun j => driveForceLimit j = DRIVE_TORQUE) (mWheelJoints (robot w'))).
Proof.
  induction es as [|e es IH]; intros w w' H; simpl in H.
  - by injection H as <-.
  - destruct (exec e w) as [w1|] eqn:He; [| discriminate]. simpl in H.
    destruct (drivetrain_exec _ _ _ He) as [G1 F1].
    destruct (IH _ _ H) as [G2 F2]. split; [congruence | auto].
Qed.

(** X25. The drivetrain of a session.  [Initialize] with a chassis builds
    eight motorised joints, side -1 first: joint [4 s + i] holds wheel [i]
    of its side at the chassis frame (side times half the width, -0.2,
    minus half the length plus [i] thirds of the length), wherever the
    robot starts.  Nothing in a session changes these frames or switches a
    drive off, and every joint keeps the force limit [DRIVE_TORQUE]: the
    only thing ever written to a wheel joint afterwards is its drive
    velocity.  A robot without chassis has no joints at all. *)
Theorem drivetrain_is_fixed (w : World) :
  Reachable w ->
  (forall chassis, mChassis (robot w) = Some chassis ->
     jointGeometry <$> mWheelJoints (robot w)
     = (fun f => (f, PxTransform_at (mkVec3 F32.zero F32.zero F32.zero), true))
         <$> (wheelFrame (-1) <$> [0; 1; 2; 3]%Z) ++ (wheelFrame 1 <$> [0; 1; 2; 3]%Z))
  /\ (mChassis (robot w) = None -> mWheelJoints (robot w) = [])
  /\ Forall (fun j => driveForceLimit j = DRIVE_TORQUE) (mWheelJoints (robot w)).
Proof.
  intros (ok & pos & es & Hrun).
  pose proof (Reachable_inv w (ex_intro _ ok (ex_intro _ pos (ex_intro _ es Hrun))))
    as Hinv.
  destruct (drivetrain_run _ _ _ Hrun) as [G F].
  pose proof (robotShapes_run _ _ _ Hrun) as Hs.
  destruct ok.
  - split; [| split].
    + intros chassis _. rewrite G. reflexivity.
    + intros Hc. unfold robotShapes in Hs. rewrite Hc in Hs. discriminate.
    + apply F. simpl. repeat constructor.
  - assert (Hj : jointGeometry <$> mWheelJoints (robot w) = []) by exact G.
    apply fmap_nil_inv in Hj.
    split; [| split].
    + intros chassis Hc. unfold robotShapes in Hs. rewrite Hc in Hs. discriminate.
    + intros _. exact Hj.
    + rewrite Hj. constructor.
Qed.

Lemma drivetrain_is_fixed_witness :
  length (mWheelJoints (robot (world (afterPasses 4)))) = 8
  /\ Forall (fun j => driveForceLimit j = DRIVE_TORQUE)
            (mWheelJoints (robot (world (afterPasses 4)))).
Proof.
  assert (HR : Reachable (world (afterPasses 4))).
  { apply (frames_inv 7 samplePasses (loopStart true));
      [vm_compute; reflexivity | apply loopStart_Reachable | reflexivity]. }
  destruct (drivetrain_is_fixed _ HR) as (Hg & _ & Hf).
  split; [| exact Hf].
  pose (chassis := default (createRigidDynamic PxTransform_identity)
                           (mChassis (robot (world (afterPasses 4))))).
  assert (Hc : mChassis (robot (world (afterPasses 4))) = Some chassis)
    by (vm_compute; reflexivity).
  specialize (Hg _ Hc). apply (f_equal length) in Hg.
  rewrite !length_fmap in Hg. exact Hg.
Defined.

(** ** Rounding to binary32, on the significand *)

Lemma emin_value : emin F32.prec F32.emax = (-149)%Z.
Proof. reflexivity. Qed.

Lemma fexp_value (x : Z) :
  fexp F32.prec F32.emax x = Z.max (x - 24) (-149).
Proof. reflexivity. Qed.

Lemma iter_xO_value (p k : positive) :
  Z.pos (Pos.iter xO p k) = (Z.pos p * 2 ^ Z.pos k)%Z.
Proof.
  induction k as [|k IH] using Pos.peano_ind.
  - simpl. lia.
  - rewrite Pos.iter_succ, Pos2Z.inj_xO, IH, Pos2Z.inj_succ, Z.pow_succ_r by lia.
    lia.
Qed.

Lemma shr_1_div (r : shr_record) :
  (0 <= shr_m r)%Z -> shr_m (shr_1 r) = (shr_m r / 2)%Z.
Proof.
  destruct r as [[|[p|p|]|p] rr ss]; simpl; intros H; try lia;
    rewrite <- Z.div2_div; reflexivity.
Qed.

Lemma iter_shr_1_div (p : positive) : forall r,
  (0 <= shr_m r)%Z ->
  shr_m (SpecFloat.iter_pos shr_1 p r) = (shr_m r / 2 ^ Z.pos p)%Z.
Proof.
  induction p as [p IH | p IH |]; intros r H; simpl SpecFloat.iter_pos.
  - assert (Hp : (0 < 2 ^ Z.pos p)%Z) by (apply Z.pow_pos_nonneg; lia).
    rewrite IH by (apply iter_shr_1_nonneg; by apply shr_1_nonneg).
    rewrite IH by (by apply shr_1_nonneg).
    rewrite shr_1_div by exact H.
    rewrite !Z.div_div by lia. f_equal.
    replace (Z.pos p~1) with (1 + Z.pos p + Z.pos p)%Z by lia.
    rewrite !Z.pow_add_r by lia. lia.
  - assert (Hp : (0 < 2 ^ Z.pos p)%Z) by (apply Z.pow_pos_nonneg; lia).
    rewrite IH by (by apply iter_shr_1_nonneg).
    rewrite IH by exact H.
    rewrite Z.div_div by lia. f_equal.
    replace (Z.pos p~0) with (Z.pos p + Z.pos p)%Z by lia.
    rewrite Z.pow_add_r by lia. lia.
  - rewrite shr_1_div by exact H. reflexivity.
Qed.

(** A significand that already has its place is left alone. *)
Lemma binary_round_aux_canonical (sx : bool) (m : positive) (e : Z) :
  canonical_mantissa F32.prec F32.emax m e = true ->
  binary_round_aux F32.prec F32.emax sx (Z.pos m) e loc_Exact
  = if (e <=? 104)%Z then S754_finite sx m e else S754_infinity sx.
Proof.
  unfold canonical_mantissa. intros Hc. apply Z.eqb_eq in Hc.
  unfold binary_round_aux, shr_fexp. simpl Zdigits2. rewrite Hc, Z.sub_diag.
  simpl. rewrite Hc, Z.sub_diag. simpl. reflexivity.
Qed.

(** Up to 24 digits: the value is kept, the significand moved to its
    place. *)
Lemma binary_round_small (sx : bool) (p : positive) (ez : Z) :
  (-149 <= ez)%Z -> (Z.pos (digits2_pos p) <= 24)%Z ->
  exists m e,
    binary_round F32.prec F32.emax sx p ez
    = (if (e <=? 104)%Z then S754_finite sx m e else S754_infinity sx)
    /\ canonical_mantissa F32.prec F32.emax m e = true
    /\ e = Z.max (Z.pos (digits2_pos p) + ez - 24) (-149)
    /\ (e <= ez)%Z
    /\ Z.pos m = (Z.pos p * 2 ^ (ez - e))%Z.
Proof.
  intros Hez Hd. set (d := Z.pos (digits2_pos p)) in *.
  set (e := Z.max (d + ez - 24) (-149)).
  assert (He : (e <= ez)%Z) by lia.
  unfold binary_round. fold d. rewrite fexp_value. fold e.
  unfold shl_align.
  destruct (e - ez)%Z as [|k|k] eqn:Hk; try lia.
  - assert (e = ez) by lia.
    assert (Hc : canonical_mantissa F32.prec F32.emax p ez = true).
    { unfold canonical_mantissa. fold d. rewrite fexp_value. apply Z.eqb_eq. lia. }
    exists p, ez. rewrite binary_round_aux_canonical by exact Hc.
    split; [reflexivity |]. split; [exact Hc |]. split; [lia |]. split; [lia |].
    replace (ez - ez)%Z with 0%Z by lia. lia.
  - assert (Hv : Z.pos (Pos.iter xO p k) = (Z.pos p * 2 ^ (ez - e))%Z).
    { rewrite iter_xO_value. f_equal. f_equal. lia. }
    assert (Hdig : Z.pos (digits2_pos (Pos.iter xO p k)) = (d + Z.pos k)%Z).
    { apply digits2_pos_range. rewrite iter_xO_value.
      pose proof (digits2_pos_bound p) as Hu. pose proof (digits2_pos_low p) as Hl.
      fold d in Hu, Hl.
      replace (d + Z.pos k - 1)%Z with ((d - 1) + Z.pos k)%Z by lia.
      rewrite !Z.pow_add_r by lia.
      assert (0 < 2 ^ Z.pos k)%Z by (apply Z.pow_pos_nonneg; lia).
      split; nia. }
    assert (Hc : canonical_mantissa F32.prec F32.emax (Pos.iter xO p k) e = true).
    { unfold canonical_mantissa. rewrite Hdig, fexp_value. apply Z.eqb_eq. lia. }
    exists (Pos.iter xO p k), e. rewrite binary_round_aux_canonical by exact Hc.
    split; [reflexivity |]. split; [exact Hc |]. split; [reflexivity |].
    split; [exact He | exact Hv].
Qed.

Lemma round_nearest_even_range (m : Z) (l : location) :
  (m <= round_nearest_even m l <= m + 1)%Z.
Proof.
  unfold round_nearest_even.
  destruct l as [|[ | | ]]; try destruct (Z.even m); lia.
Qed.

(** More than 24 digits: the significand is cut to 24 digits and rounded,
    up by at most one; if that carries into a 25th digit the result is a
    power of two. *)
Lemma binary_round_big (sx : bool) (p : positive) (ez : Z) :
  (-149 <= ez)%Z -> (24 < Z.pos (digits2_pos p))%Z ->
  let n := (Z.pos (digits2_pos p) - 24)%Z in
  let q := (Z.pos p / 2 ^ n)%Z in
  exists m e,
    binary_round F32.prec F32.emax sx p ez
    = (if (e <=? 104)%Z then S754_finite sx m e else S754_infinity sx)
    /\ canonical_mantissa F32.prec F32.emax m e = true
    /\ ((e = (ez + n)%Z /\ (q <= Z.pos m <= q + 1)%Z /\ (Z.pos m < 2 ^ 24)%Z)
        \/ (e = (ez + n + 1)%Z /\ Z.pos m = (2 ^ 23)%Z /\ (q + 1 = 2 ^ 24)%Z)).
Proof.
  intros Hez Hd n q. set (d := Z.pos (digits2_pos p)) in *.
  assert (Hnd : n = (d - 24)%Z) by reflexivity.
  assert (Hqd : q = (Z.pos p / 2 ^ n)%Z) by reflexivity.
  clearbody n q.
  assert (Hn : (0 < n)%Z) by lia.
  assert (Hpow : (0 < 2 ^ n)%Z) by (apply Z.pow_pos_nonneg; lia).
  assert (Hq : (8388608 <= q < 16777216)%Z).
  { pose proof (digits2_pos_bound p) as Hu. pose proof (digits2_pos_low p) as Hl.
    fold d in Hu, Hl.
    replace (d - 1)%Z with (23 + n)%Z in Hl by lia.
    replace d with (24 + n)%Z in Hu by lia.
    rewrite Z.pow_add_r in Hl, Hu by lia.
    change (2 ^ 23)%Z with 8388608%Z in Hl.
    change (2 ^ 24)%Z with 16777216%Z in Hu.
    rewrite Hqd. split.
    - apply Z.div_le_lower_bound; lia.
    - apply Z.div_lt_upper_bound; lia. }
  unfold binary_round. fold d. rewrite fexp_value.
  replace (Z.max (d + ez - 24) (-149)) with (ez + n)%Z by lia.
  unfold shl_align.
  replace (ez + n - ez)%Z with n by lia.
  destruct n as [|n'|n']; try lia.
  unfold binary_round_aux.
  assert (Hs1 : exists mrs,
             shr_fexp F32.prec F32.emax (Z.pos p) ez loc_Exact = (mrs, (ez + Z.pos n')%Z)
             /\ shr_m mrs = q).
  { unfold shr_fexp. simpl Zdigits2. fold d. rewrite fexp_value.
    replace (Z.max (d + ez - 24) (-149) - ez)%Z with (Z.pos n') by lia.
    unfold shr. eexists. split; [reflexivity |].
    rewrite iter_shr_1_div by (simpl; lia). rewrite Hqd. reflexivity. }
  destruct Hs1 as (mrs & -> & Hm).
  pose proof (round_nearest_even_range (shr_m mrs) (loc_of_shr_record mrs)) as Hr.
  remember (round_nearest_even (shr_m mrs) (loc_of_shr_record mrs)) as r eqn:Er.
  clear Er. rewrite Hm in Hr. destruct r as [|rp|rp]; [lia | | lia].
  destruct (Z.eq_dec (Z.pos rp) 16777216%Z) as [Hcarry | Hno].
  - (* the carry *)
    assert (rp = 16777216%positive) by lia. subst rp.
    unfold shr_fexp. change (Zdigits2 (Z.pos 16777216)) with 25%Z.
    rewrite fexp_value.
    replace (Z.max (25 + (ez + Z.pos n') - 24) (-149) - (ez + Z.pos n'))%Z
      with 1%Z by lia.
    cbn [shr SpecFloat.iter_pos shr_1 shr_record_of_loc shr_m orb].
    exists 8388608%positive, (ez + Z.pos n' + 1)%Z.
    split; [reflexivity |]. split.
    + unfold canonical_mantissa. rewrite fexp_value. apply Z.eqb_eq. simpl. lia.
    + right. split; [reflexivity |]. split; [reflexivity |].
      change (2 ^ 24)%Z with 16777216%Z. lia.
  - assert (Hlt : (Z.pos rp < 2 ^ 24)%Z)
      by (change (2 ^ 24)%Z with 16777216%Z; lia).
    assert (Hdig : Z.pos (digits2_pos rp) = 24%Z)
      by (apply digits2_pos_range; simpl; lia).
    unfold shr_fexp. simpl Zdigits2. rewrite Hdig, fexp_value.
    replace (Z.max (24 + (ez + Z.pos n') - 24) (-149) - (ez + Z.pos n'))%Z
      with 0%Z by lia.
    unfold shr. simpl shr_m.
    exists rp, (ez + Z.pos n')%Z.
    split; [reflexivity |]. split.
    + unfold canonical_mantissa. rewrite Hdig, fexp_value. apply Z.eqb_eq. lia.
    + left. split; [reflexivity |]. split; [lia | exact Hlt].
Qed.

(** What rounding a positive integer times a power of two gives, in every
    case: a float in its place, or an infinity of the same sign. *)
Lemma binary_round_valid (sx : bool) (p : positive) (ez : Z) :
  (-149 <= ez)%Z ->
  valid_binary F32.prec F32.emax (binary_round F32.prec F32.emax sx p ez) = true.
Proof.
  intros Hez.
  destruct (Z_le_gt_dec (Z.pos (digits2_pos p)) 24) as [Hd | Hd].
  - destruct (binary_round_small sx p ez Hez Hd) as (m & e & -> & Hc & _).
    destruct (e <=? 104)%Z eqn:He; [| reflexivity].
    simpl. unfold bounded. rewrite Hc. exact He.
  - destruct (binary_round_big sx p ez Hez ltac:(lia)) as (m & e & -> & Hc & _).
    destruct (e <=? 104)%Z eqn:He; [| reflexivity].
    simpl. unfold bounded. rewrite Hc. exact He.
Qed.

(** ** The physics loop is bounded *)

Lemma tenth_bits : F32.lit 1 10 = S754_finite false 13421773 (-27).
Proof. vm_compute. reflexivity. Qed.

Lemma bounded_exponent (m : positive) (e : Z) :
  bounded F32.prec F32.emax m e = true -> (-149 <= e <= 104)%Z.
Proof.
  unfold bounded, canonical_mantissa. rewrite fexp_value. intros H.
  apply andb_prop in H as [H1 H2]. apply Z.eqb_eq in H1. apply Z.leb_le in H2.
  change (F32.emax - F32.prec)%Z with 104%Z in H2. lia.
Qed.

Lemma leb_ts_finite (s : bool) (m : positive) (e : Z) :
  F32.leb physicsTimestep (S754_finite s m e) = true ->
  s = false /\ ((-29 < e)%Z \/ (e = (-29)%Z /\ (8947849 <= Z.pos m)%Z)).
Proof.
  rewrite (proj1 physicsTimestep_bits). unfold F32.leb, SFleb.
  destruct s; [simpl; discriminate |].
  rewrite SFcompare_finite_pos. intros H. split; [reflexivity |].
  order_cases.
Qed.

Lemma ltb_finite_ts (m : positive) (e : Z) :
  F32.ltb (S754_finite false m e) physicsTimestep = true ->
  (e < -29)%Z \/ (e = (-29)%Z /\ (Z.pos m < 8947849)%Z).
Proof.
  rewrite (proj1 physicsTimestep_bits). unfold F32.ltb, SFltb.
  rewrite SFcompare_finite_pos. intros H. order_cases.
Qed.

Lemma not_above_tenth (m : positive) (e : Z) :
  F32.ltb (F32.lit 1 10) (S754_finite false m e) = false ->
  (e < -27)%Z \/ (e = (-27)%Z /\ (Z.pos m <= 13421773)%Z).
Proof.
  rewrite tenth_bits. unfold F32.ltb, SFltb.
  rewrite SFcompare_finite_pos. intros H. order_cases.
Qed.

Lemma leb_ts_negative (r : float) :
  (exists m e, r = S754_finite true m e) \/ r = S754_infinity true
  \/ (exists s, r = S754_zero s) ->
  F32.leb physicsTimestep r = false.
Proof.
  rewrite (proj1 physicsTimestep_bits).
  intros [(m & e & ->) | [-> | (s & ->)]]; reflexivity.
Qed.

Lemma shl_align_value (m : positive) (e ez : Z) :
  (ez <= e)%Z -> Z.pos (fst (shl_align m e ez)) = (Z.pos m * 2 ^ (e - ez))%Z.
Proof.
  intros H. unfold shl_align.
  destruct (ez - e)%Z as [|k|k] eqn:Hk; try lia; simpl fst.
  - replace (e - ez)%Z with 0%Z by lia. lia.
  - rewrite iter_xO_value. f_equal. f_equal. lia.
Qed.

Lemma pow2_pos (n : Z) : (0 <= n)%Z -> (0 < 2 ^ n)%Z.
Proof. intros H. apply Z.pow_pos_nonneg; lia. Qed.

Lemma inRange_weaken (B B' : Z) (s : float) :
  (B <= B')%Z -> inRange B s -> inRange B' s.
Proof.
  intros H (m & e & -> & Hb & He & Ht). exists m, e. repeat split; auto. lia.
Qed.

(** What rounding a positive integer [N] of units 2^[ez] gives, when read
    against the timestep: nothing at or above it, or a float within the
    units [N] itself stands for, plus the rounding. *)
Lemma binary_round_ticks (p : positive) (B : Z) :
  (Z.pos p <= B)%Z -> (B < 67108864)%Z ->
  F32.leb physicsTimestep (binary_round F32.prec F32.emax false p (-29)) = true ->
  inRange (B + 4) (binary_round F32.prec F32.emax false p (-29)).
Proof.
  intros HB HB'.
  assert (Hd26 : (Z.pos (digits2_pos p) <= 26)%Z)
    by (apply digits2_pos_small; change (2 ^ 26)%Z with 67108864%Z; lia).
  destruct (Z_le_gt_dec (Z.pos (digits2_pos p)) 24) as [Hd | Hd].
  - destruct (binary_round_small false p (-29) ltac:(lia) Hd)
      as (m & e & -> & Hc & He & Hle & Hm).
    assert (H104 : (e <=? 104)%Z = true) by (apply Z.leb_le; lia).
    rewrite H104. intros Hge.
    apply leb_ts_finite in Hge as [_ Hge].
    assert (Hee : e = (-29)%Z) by lia. clear He. subst e.
    exists m, (-29)%Z. split; [reflexivity |]. split.
    { unfold bounded. rewrite Hc. reflexivity. }
    split; [lia |]. unfold ticks. rewrite Hm. simpl. lia.
  - destruct (binary_round_big false p (-29) ltac:(lia) ltac:(lia))
      as (m & e & -> & Hc & Hcase).
    set (n := (Z.pos (digits2_pos p) - 24)%Z) in *.
    set (q := (Z.pos p / 2 ^ n)%Z) in *.
    assert (Hn : (1 <= n <= 2)%Z) by (unfold n; lia).
    assert (Hq : (2 ^ n * q <= Z.pos p)%Z)
      by (apply Z.mul_div_le; apply pow2_pos; lia).
    assert (H104 : (e <=? 104)%Z = true)
      by (apply Z.leb_le; destruct Hcase as [(-> & _) | (-> & _)]; lia).
    rewrite H104. intros _.
    exists m, e. split; [reflexivity |]. split.
    { unfold bounded. rewrite Hc. exact H104. }
    assert (Hn12 : n = 1%Z \/ n = 2%Z) by lia.
    unfold ticks.
    destruct Hcase as [(-> & Hm & _) | (-> & Hm & Hq24)].
    + split; [lia |].
      replace (-29 + n + 29)%Z with n by lia.
      destruct Hn12 as [E | E]; rewrite E in *; simpl in *; lia.
    + split; [lia |].
      replace (-29 + n + 1 + 29)%Z with (n + 1)%Z by lia.
      change (2 ^ 24)%Z with 16777216%Z in Hq24. rewrite Hm.
      destruct Hn12 as [E | E]; rewrite E in *; simpl in *; lia.
Qed.

(** One round of the loop, on an accumulator within [B] units. *)
Lemma sub_ts_ticks (B : Z) (s : float) :
  (B <= 67108864)%Z -> inRange B s ->
  F32.leb physicsTimestep (F32.sub s physicsTimestep) = true ->
  inRange (B - 8947845) (F32.sub s physicsTimestep).
Proof.
  intros HB (m & e & -> & Hb & He & Ht).
  unfold ticks in Ht. set (V := (Z.pos m * 2 ^ (e + 29))%Z) in *.
  assert (E : F32.sub (S754_finite false m e) physicsTimestep
              = binary_normalize F32.prec F32.emax (V - 8947849) (-29) false).
  { rewrite (proj1 physicsTimestep_bits). unfold F32.sub, SFsub.
    rewrite Z.min_r by lia.
    rewrite shl_align_value by lia.
    change (fst (shl_align 8947849 (-29) (-29))) with 8947849%positive.
    unfold cond_Zopp. replace (e - -29)%Z with (e + 29)%Z by lia. reflexivity. }
  rewrite E. clear E.
  destruct (V - 8947849)%Z as [|p|p] eqn:HN; unfold binary_normalize.
  - intros H. rewrite leb_ts_negative in H by (right; right; eauto). discriminate.
  - intros H.
    replace (B - 8947845)%Z with ((B - 8947849) + 4)%Z by lia.
    apply binary_round_ticks; [lia | lia | exact H].
  - intros H. exfalso.
    destruct (Z_le_gt_dec (Z.pos (digits2_pos p)) 24) as [Hd | Hd].
    + destruct (binary_round_small true p (-29) ltac:(lia) Hd) as (m' & e' & E & _).
      rewrite E in H. rewrite leb_ts_negative in H; [discriminate |].
      destruct (e' <=? 104)%Z; eauto.
    + destruct (binary_round_big true p (-29) ltac:(lia) ltac:(lia))
        as (m' & e' & E & _).
      rewrite E in H. rewrite leb_ts_negative in H; [discriminate |].
      destruct (e' <=? 104)%Z; eauto.
Qed.

Lemma binary_normalize_valid (N ez : Z) (s : bool) :
  (-149 <= ez)%Z ->
  valid_binary F32.prec F32.emax (binary_normalize F32.prec F32.emax N ez s) = true.
Proof.
  intros H. destruct N as [|p|p]; [reflexivity | |]; by apply binary_round_valid.
Qed.

Lemma valid_exponent (s : bool) (m : positive) (e : Z) :
  valid_binary F32.prec F32.emax (S754_finite s m e) = true -> (-149 <= e)%Z.
Proof. intros H. apply bounded_exponent in H. lia. Qed.

Lemma add_valid (a b : float) :
  valid_binary F32.prec F32.emax a = true ->
  valid_binary F32.prec F32.emax b = true ->
  valid_binary F32.prec F32.emax (F32.add a b) = true.
Proof.
  intros Ha Hb. unfold F32.add, SFadd.
  destruct a as [sa|sa| |sa ma ea], b as [sb|sb| |sb mb eb];
    try reflexivity; try assumption; try (by destruct sa, sb).
  apply binary_normalize_valid.
  apply valid_exponent in Ha, Hb. lia.
Qed.

Lemma sub_ts_valid (a : float) :
  valid_binary F32.prec F32.emax a = true ->
  valid_binary F32.prec F32.emax (F32.sub a physicsTimestep) = true.
Proof.
  intros Ha. rewrite (proj1 physicsTimestep_bits). unfold F32.sub, SFsub.
  destruct a as [sa|sa| |sa ma ea]; try reflexivity.
  apply binary_normalize_valid.
  apply valid_exponent in Ha. lia.
Qed.

Lemma clampFrameTime_valid (dt : float) :
  valid_binary F32.prec F32.emax dt = true ->
  valid_binary F32.prec F32.emax (clampFrameTime dt) = true.
Proof.
  intros H. unfold clampFrameTime.
  destruct (F32.ltb (F32.lit 1 10) dt); [reflexivity | exact H].
Qed.

Lemma clampFrameTime_not_above (dt : float) :
  F32.ltb (F32.lit 1 10) (clampFrameTime dt) = false.
Proof.
  unfold clampFrameTime.
  destruct (F32.ltb (F32.lit 1 10) dt) eqn:E; [reflexivity | exact E].
Qed.

(** The value of a float below the timestep, and of one not above a
    tenth, in units of 2^-149. *)
Lemma below_ts_units (m : positive) (e : Z) :
  bounded F32.prec F32.emax m e = true ->
  F32.ltb (S754_finite false m e) physicsTimestep = true ->
  (Z.pos m * 2 ^ (e + 149) <= 8947848 * 2 ^ 120)%Z.
Proof.
  intros Hb Hlt. pose proof (bounded_mantissa _ _ Hb) as Hm.
  pose proof (bounded_exponent _ _ Hb) as He.
  change (2 ^ 24)%Z with 16777216%Z in Hm.
  destruct (ltb_finite_ts _ _ Hlt) as [Hlow | [-> Hmt]].
  - assert (Hp : (2 ^ (e + 149) <= 2 ^ 119)%Z) by (apply Z.pow_le_mono_r; lia).
    assert (H0 : (0 < 2 ^ (e + 149))%Z) by (apply pow2_pos; lia).
    change (2 ^ 120)%Z with (2 * 2 ^ 119)%Z.
    assert (0 < 2 ^ 119)%Z by (apply pow2_pos; lia).
    nia.
  - change (-29 + 149)%Z with 120%Z.
    assert (0 < 2 ^ 120)%Z by (apply pow2_pos; lia).
    nia.
Qed.

Lemma not_above_tenth_units (m : positive) (e : Z) :
  bounded F32.prec F32.emax m e = true ->
  F32.ltb (F32.lit 1 10) (S754_finite false m e) = false ->
  (Z.pos m * 2 ^ (e + 149) <= 53687092 * 2 ^ 120)%Z.
Proof.
  intros Hb Hlt. pose proof (bounded_mantissa _ _ Hb) as Hm.
  pose proof (bounded_exponent _ _ Hb) as He.
  change (2 ^ 24)%Z with 16777216%Z in Hm.
  destruct (not_above_tenth _ _ Hlt) as [Hlow | [-> Hmt]].
  - assert (Hp : (2 ^ (e + 149) <= 2 ^ 121)%Z) by (apply Z.pow_le_mono_r; lia).
    assert (H0 : (0 < 2 ^ (e + 149))%Z) by (apply pow2_pos; lia).
    change (2 ^ 121)%Z with (2 * 2 ^ 120)%Z in Hp.
    assert (0 < 2 ^ 120)%Z by (apply pow2_pos; lia).
    nia.
  - change (-27 + 149)%Z with 122%Z.
    change (2 ^ 122)%Z with (4 * 2 ^ 120)%Z.
    assert (0 < 2 ^ 120)%Z by (apply pow2_pos; lia).
    nia.
Qed.

(** A float in its place, of exponent at least -29, whose digits end at
    or below 2^-3, is within 2^26 units. *)
Lemma ticks_of_digits (m : positive) (e : Z) :
  (-29 <= e)%Z -> (Z.pos (digits2_pos m) + e <= -3)%Z ->
  (ticks m e <= 67108864)%Z.
Proof.
  intros He Hd. unfold ticks.
  pose proof (digits2_pos_bound m) as Hu.
  set (d := Z.pos (digits2_pos m)) in *.
  assert (Hle : (2 ^ d * 2 ^ (e + 29) <= 2 ^ 26)%Z).
  { rewrite <- Z.pow_add_r by lia. apply Z.pow_le_mono_r; lia. }
  change (2 ^ 26)%Z with 67108864%Z in Hle.
  assert (0 < 2 ^ (e + 29))%Z by (apply pow2_pos; lia).
  nia.
Qed.

(** What rounding a positive integer of units 2^[ez] gives when the value
    is below 2^-3 (2^146 units of 2^-149): nothing at or above the
    timestep, or a float within 2^26 units of 2^-29. *)
Lemma binary_round_sum (p : positive) (ez : Z) :
  (-149 <= ez)%Z ->
  (Z.pos p * 2 ^ (ez + 149) < 67108864 * 2 ^ 120)%Z ->
  F32.leb physicsTimestep (binary_round F32.prec F32.emax false p ez) = true ->
  inRange 67108864 (binary_round F32.prec F32.emax false p ez).
Proof.
  intros Hez Hval.
  pose proof (digits2_pos_low p) as Hl.
  set (d := Z.pos (digits2_pos p)) in *.
  assert (Hd1 : (1 <= d)%Z) by (unfold d; lia).
  assert (Hsum : (d + ez <= -3)%Z).
  { assert (Hlt : (2 ^ (d - 1 + (ez + 149)) < 2 ^ 146)%Z).
    { rewrite Z.pow_add_r by lia.
      change (2 ^ 146)%Z with (67108864 * 2 ^ 120)%Z.
      assert (0 < 2 ^ (ez + 149))%Z by (apply pow2_pos; lia).
      nia. }
    apply Z.pow_lt_mono_r_iff in Hlt; lia. }
  destruct (Z_le_gt_dec d 24) as [Hd | Hd].
  - destruct (binary_round_small false p ez Hez Hd)
      as (m & e & -> & Hc & He & Hle & Hm).
    fold d in He.
    assert (H104 : (e <=? 104)%Z = true) by (apply Z.leb_le; lia).
    rewrite H104. intros Hge.
    apply leb_ts_finite in Hge as [_ Hge].
    assert (He29 : (-29 <= e)%Z) by lia.
    exists m, e. split; [reflexivity |]. split.
    { unfold bounded. rewrite Hc. exact H104. }
    split; [exact He29 |].
    apply ticks_of_digits; [exact He29 |].
    unfold canonical_mantissa in Hc. rewrite fexp_value in Hc.
    apply Z.eqb_eq in Hc. lia.
  - destruct (binary_round_big false p ez Hez ltac:(fold d; lia))
      as (m & e & -> & Hc & Hcase).
    fold d in Hcase.
    assert (H104 : (e <=? 104)%Z = true)
      by (apply Z.leb_le; destruct Hcase as [(-> & _) | (-> & _)]; lia).
    rewrite H104. intros Hge.
    apply leb_ts_finite in Hge as [_ Hge].
    assert (He29 : (-29 <= e)%Z) by lia.
    exists m, e. split; [reflexivity |]. split.
    { unfold bounded. rewrite Hc. exact H104. }
    split; [exact He29 |].
    destruct Hcase as [(He & _ & _) | (He & Hm & _)].
    + apply ticks_of_digits; [exact He29 |].
      unfold canonical_mantissa in Hc. rewrite fexp_value in Hc.
      apply Z.eqb_eq in Hc. lia.
    + unfold ticks. rewrite Hm.
      assert (Hp : (2 ^ (e + 29) <= 2 ^ 3)%Z) by (apply Z.pow_le_mono_r; lia).
      assert (0 < 2 ^ (e + 29))%Z by (apply pow2_pos; lia).
      change (2 ^ 23)%Z with 8388608%Z. change (2 ^ 3)%Z with 8%Z in Hp. nia.
Qed.

Lemma leb_ts_round_negative (p : positive) (ez : Z) :
  (-149 <= ez)%Z ->
  F32.leb physicsTimestep (binary_round F32.prec F32.emax true p ez) = false.
Proof.
  intros Hez. apply leb_ts_negative.
  destruct (Z_le_gt_dec (Z.pos (digits2_pos p)) 24) as [Hd | Hd].
  - destruct (binary_round_small true p ez Hez Hd) as (m' & e' & -> & _).
    destruct (e' <=? 104)%Z; eauto.
  - destruct (binary_round_big true p ez Hez ltac:(lia)) as (m' & e' & -> & _).
    destruct (e' <=? 104)%Z; eauto.
Qed.

(** The accumulator after [physicsAccumulator += dt]: below the timestep,
    or within 2^26 units. *)
Lemma add_ticks (acc dt : float) :
  valid_binary F32.prec F32.emax acc = true ->
  F32.ltb acc physicsTimestep = true ->
  valid_binary F32.prec F32.emax dt = true ->
  F32.is_nan dt = false ->
  F32.ltb (F32.lit 1 10) dt = false ->
  F32.leb physicsTimestep (F32.add acc dt) = true ->
  inRange 67108864 (F32.add acc dt).
Proof.
  intros Va La Vd Nd Ld.
  destruct acc as [sa|sa| |sa ma ea].
  - (* nothing accumulated *)
    destruct dt as [sb|sb| |sb mb eb]; try discriminate.
    + intros H. rewrite leb_ts_negative in H; [discriminate |].
      right; right. unfold F32.add, SFadd. destruct sa, sb; eauto.
    + destruct sb; [| rewrite tenth_bits in Ld; discriminate].
      intros H. rewrite leb_ts_negative in H; [discriminate | right; left; reflexivity].
    + change (F32.add (S754_zero sa) (S754_finite sb mb eb))
        with (S754_finite sb mb eb).
      intros H. destruct (leb_ts_finite _ _ _ H) as [-> He].
      pose proof (bounded_mantissa _ _ Vd) as Hm.
      change (2 ^ 24)%Z with 16777216%Z in Hm.
      exists mb, eb. split; [reflexivity |]. split; [exact Vd |].
      split; [lia |]. unfold ticks.
      destruct (not_above_tenth _ _ Ld) as [Hlow | [-> Hmt]].
      * assert (Hp : (2 ^ (eb + 29) <= 2 ^ 1)%Z) by (apply Z.pow_le_mono_r; lia).
        assert (0 < 2 ^ (eb + 29))%Z by (apply pow2_pos; lia).
        change (2 ^ 1)%Z with 2%Z in Hp. nia.
      * change (2 ^ (-27 + 29))%Z with 4%Z. lia.
  - (* minus infinity *)
    destruct sa; [| rewrite (proj1 physicsTimestep_bits) in La; discriminate].
    destruct dt as [sb|sb| |sb mb eb]; try discriminate.
    destruct sb; [discriminate | rewrite tenth_bits in Ld; discriminate].
  - discriminate.
  - destruct dt as [sb|sb| |sb mb eb]; try discriminate.
    + change (F32.add (S754_finite sa ma ea) (S754_zero sb))
        with (S754_finite sa ma ea).
      intros H. rewrite (ltb_not_leb _ _ La) in H. discriminate.
    + destruct sb; [| rewrite tenth_bits in Ld; discriminate].
      intros H. rewrite leb_ts_negative in H; [discriminate | right; left; reflexivity].
    + pose proof (bounded_exponent _ _ Va) as Hea.
      pose proof (bounded_exponent _ _ Vd) as Heb.
      unfold F32.add, SFadd.
      set (ez := Z.min ea eb).
      assert (Hez : (-149 <= ez)%Z) by (unfold ez; lia).
      rewrite !shl_align_value by (unfold ez; lia).
      set (A := (Z.pos ma * 2 ^ (ea - ez))%Z).
      set (Bv := (Z.pos mb * 2 ^ (eb - ez))%Z).
      assert (HU : (0 < 2 ^ (ez + 149))%Z) by (apply pow2_pos; lia).
      assert (HA : (A * 2 ^ (ez + 149) = Z.pos ma * 2 ^ (ea + 149))%Z).
      { unfold A. rewrite <- Z.mul_assoc, <- Z.pow_add_r by (unfold ez; lia).
        f_equal. f_equal. lia. }
      assert (HB : (Bv * 2 ^ (ez + 149) = Z.pos mb * 2 ^ (eb + 149))%Z).
      { unfold Bv. rewrite <- Z.mul_assoc, <- Z.pow_add_r by (unfold ez; lia).
        f_equal. f_equal. lia. }
      assert (HA0 : (0 < A)%Z)
        by (unfold A; pose proof (pow2_pos (ea - ez) ltac:(unfold ez; lia)); nia).
      assert (HB0 : (0 < Bv)%Z)
        by (unfold Bv; pose proof (pow2_pos (eb - ez) ltac:(unfold ez; lia)); nia).
      assert (HAb : sa = false ->
                    (A * 2 ^ (ez + 149) <= 8947848 * 2 ^ 120)%Z).
      { intros ->. rewrite HA. by apply below_ts_units. }
      assert (HBb : sb = false ->
                    (Bv * 2 ^ (ez + 149) <= 53687092 * 2 ^ 120)%Z).
      { intros ->. rewrite HB. by apply not_above_tenth_units. }
      assert (H120 : (0 < 2 ^ 120)%Z) by (apply pow2_pos; lia).
      clearbody A Bv ez.
      destruct (cond_Zopp sa A + cond_Zopp sb Bv)%Z as [|p|p] eqn:HN;
        unfold binary_normalize.
      * intros H. rewrite leb_ts_negative in H by (right; right; eauto).
        discriminate.
      * apply binary_round_sum; [exact Hez |].
        destruct sa, sb; simpl in HN;
          try specialize (HAb eq_refl); try specialize (HBb eq_refl); nia.
      * intros H. rewrite leb_ts_round_negative in H by exact Hez. discriminate.
Qed.

Lemma budget_step (j : nat) : (budget (S j) - 8947845 <= budget j)%Z.
Proof. unfold budget. rewrite Nat2Z.inj_succ. lia. Qed.

Lemma budget_top (j : nat) : 7 <= j -> budget j = 67108864%Z.
Proof. intros H. unfold budget. lia. Qed.

Lemma budget_le (j : nat) : (budget j <= 67108864)%Z.
Proof. unfold budget. lia. Qed.

(** Within the budget of no round there is nothing at or above the
    timestep. *)
Lemma budget_zero (s : float) :
  inRange (budget 0) s -> F32.leb physicsTimestep s = false.
Proof.
  intros (m & e & -> & Hb & He & Ht).
  destruct (F32.leb physicsTimestep (S754_finite false m e)) eqn:E; [| reflexivity].
  exfalso. apply leb_ts_finite in E as [_ E].
  unfold budget, ticks in Ht. simpl Z.min in Ht.
  destruct E as [E | [-> E]].
  - pose proof (bounded_exponent _ _ Hb) as Hx.
    assert (Hc : canonical_mantissa F32.prec F32.emax m e = true)
      by (unfold bounded in Hb; by apply andb_prop in Hb as [? _]).
    unfold canonical_mantissa in Hc. rewrite fexp_value in Hc.
    apply Z.eqb_eq in Hc.
    assert (Hd : Z.pos (digits2_pos m) = 24%Z) by lia.
    pose proof (digits2_pos_low m) as Hl. rewrite Hd in Hl.
    change (2 ^ (24 - 1))%Z with 8388608%Z in Hl.
    assert (Hp : (2 ^ 1 <= 2 ^ (e + 29))%Z) by (apply Z.pow_le_mono_r; lia).
    change (2 ^ 1)%Z with 2%Z in Hp. nia.
  - change (2 ^ (-29 + 29))%Z with 1%Z in Ht. lia.
Qed.

(** From an accumulator that is in its place and within the budget of
    [j] rounds, [j] rounds are enough. *)
Lemma drain_bounded {St : Type} (f g : float -> St -> St) (j : nat) :
  forall acc s,
    valid_binary F32.prec F32.emax acc = true ->
    (F32.leb physicsTimestep acc = true -> inRange (budget j) acc) ->
    exists r, drain f g j acc s = Some r.
Proof.
  induction j as [|j IH]; intros acc s Hv Hr.
  - simpl. destruct (F32.leb physicsTimestep acc) eqn:E; [| eauto].
    rewrite (budget_zero _ (Hr eq_refl)) in E. discriminate.
  - destruct (F32.leb physicsTimestep acc) eqn:E.
    + rewrite drain_step by exact E. apply IH.
      * by apply sub_ts_valid.
      * intros Hge. apply (inRange_weaken _ _ _ (budget_step j)).
        apply sub_ts_ticks; [apply budget_le | by apply Hr | exact Hge].
    + rewrite drain_stop by exact E. eauto.
Qed.

Lemma drain_more_fuel {St : Type} (f g : float -> St -> St) (j : nat) :
  forall acc s r j',
    drain f g j acc s = Some r -> j <= j' -> drain f g j' acc s = Some r.
Proof.
  induction j as [|j IH]; intros acc s r j' H Hj.
  - simpl in H. destruct (F32.leb physicsTimestep acc) eqn:E; [discriminate |].
    by rewrite drain_stop.
  - destruct j' as [|j']; [lia |].
    destruct (F32.leb physicsTimestep acc) eqn:E.
    + rewrite drain_step in H |- * by exact E. apply (IH _ _ _ _ H). lia.
    + rewrite drain_stop in H |- * by exact E. exact H.
Qed.

Lemma drain_valid {St : Type} (f g : float -> St -> St) (fuel : nat) :
  forall acc s acc' s',
    drain f g fuel acc s = Some (acc', s') ->
    valid_binary F32.prec F32.emax acc = true ->
    valid_binary F32.prec F32.emax acc' = true.
Proof.
  intros acc s acc' s' H Hv.
  destruct (drain_shape _ _ _ _ _ _ _ H) as (n & _ & _ & -> & _).
  clear H. induction n as [|n IH]; [exact Hv |].
  rewrite Nat.iter_succ. by apply sub_ts_valid.
Qed.

Lemma rounds_count (fuel : nat) (acc : float) (n : nat) :
  rounds fuel acc = Some n -> n <= fuel.
Proof.
  unfold rounds.
  destruct (drain (fun _ n => S n) (fun _ n => n) fuel acc 0) as [[acc' k]|] eqn:E;
    [| discriminate].
  simpl. intros [= <-].
  destruct (drain_shape _ _ _ _ _ _ _ E) as (n & Hn & -> & _).
  clear E. assert (Nat.iter n (fun x => S x) 0 = n) as ->; [| exact Hn].
  clear Hn. induction n as [|n IH]; [reflexivity |].
  rewrite Nat.iter_succ. by rewrite IH.
Qed.

(** The loop makes the rounds the count says, whatever the updates. *)
Lemma drain_counted {St : Type} (f g : float -> St -> St) (j : nat) :
  forall acc s acc' s',
    drain f g j acc s = Some (acc', s') ->
    exists n,
      s' = Nat.iter n (fun x => g physicsTimestep (f physicsTimestep x)) s
      /\ forall k, drain (fun _ n => S n) (fun _ n => n) j acc k = Some (acc', n + k).
Proof.
  induction j as [|j IH]; intros acc s acc' s' H.
  - simpl in H. destruct (F32.leb physicsTimestep acc) eqn:E; [discriminate |].
    injection H as <- <-. exists 0. split; [reflexivity |].
    intros k. by rewrite drain_stop.
  - destruct (F32.leb physicsTimestep acc) eqn:E.
    + rewrite drain_step in H by exact E.
      destruct (IH _ _ _ _ H) as (n & -> & Hk).
      exists (S n). split; [by rewrite Nat.iter_succ_r |].
      intros k. rewrite drain_step by exact E. rewrite Hk. f_equal. f_equal. lia.
    + rewrite drain_stop in H by exact E. injection H as <- <-.
      exists 0. split; [reflexivity |]. intros k. by rewrite drain_stop.
Qed.

(** A pass keeps the accumulator a binary32 value below the timestep, if
    its frame time is one. *)
Lemma frame_binary32 fuel fi l l' :
  frame fuel fi l = Some l' ->
  resized fi = true \/ binary32 (frameTime fi) ->
  valid_binary F32.prec F32.emax (accumulator l) = true ->
  F32.ltb (accumulator l) physicsTimestep = true ->
  valid_binary F32.prec F32.emax (accumulator l') = true
  /\ F32.ltb (accumulator l') physicsTimestep = true.
Proof.
  intros H Hdt Hv Ha. split.
  - destruct (resized fi) eqn:Hr.
    + apply (frame_resized _ _ _ _ Hr) in H. by subst l'.
    + destruct Hdt as [? | [Hdt _]]; [discriminate |].
      destruct (frame_inv _ _ _ _ H Hr) as (w1 & w2 & w3 & _ & _ & _ & H4 & _).
      unfold frameDrain, physicsDrain in H4.
      apply drain_valid in H4; [exact H4 |].
      apply add_valid; [exact Hv | by apply clampFrameTime_valid].
  - apply (frame_below _ _ _ _ H); [| exact Ha].
    destruct Hdt as [? | [_ ?]]; auto.
Qed.

Lemma frames_binary32 fuel : forall fis l0 l1,
  frames fuel fis l0 = Some l1 ->
  Forall (fun fi => resized fi = true \/ binary32 (frameTime fi)) fis ->
  valid_binary F32.prec F32.emax (accumulator l0) = true ->
  F32.ltb (accumulator l0) physicsTimestep = true ->
  valid_binary F32.prec F32.emax (accumulator l1) = true
  /\ F32.ltb (accumulator l1) physicsTimestep = true.
Proof.
  induction fis as [|fi fis IH]; intros l0 l1 H Hall Hv Ha; simpl in H.
  - injection H as <-. auto.
  - destruct (frame fuel fi l0) as [l'|] eqn:Hf; [| discriminate].
    simpl in H. inversion Hall as [|? ? Hfi Hrest]; subst.
    destruct (frame_binary32 _ _ _ _ Hf Hfi Hv Ha) as [Hv' Ha'].
    by apply (IH _ _ H Hrest).
Qed.

(** X26. The physics loop of a pass is over within seven rounds.  If the
    frame times of the passes so far (those that were not resizes) and of
    this pass are binary32 values other than NaN, the accumulator after
    [physicsAccumulator += dt] is below the timestep or at most 2^-3, and
    each round takes a timestep off it up to a rounding of at most 4
    units in the last place of the timestep: the loop stops after some
    [n <= 7] rounds, the same for every bound of at least seven on the
    rounds; the physics part of the pass makes exactly these [n] rounds,
    whatever the engine does to the bodies, and leaves an accumulator that
    is a number below the timestep. *)
Theorem physics_loop_is_bounded
    (fuel : nat) (fis : list FrameInput) (chassisCreated : bool)
    (l : MainLoop) (fi : FrameInput) :
  frames fuel fis (loopStart chassisCreated) = Some l ->
  Forall (fun fi => resized fi = true \/ binary32 (frameTime fi)) fis ->
  binary32 (frameTime fi) ->
  exists n,
    n <= 7
    /\ (forall fuel', 7 <= fuel' ->
          rounds fuel' (F32.add (accumulator l) (clampFrameTime (frameTime fi)))
          = Some n)
    /\ (forall fuel' w, 7 <= fuel' ->
          exists acc',
            frameDrain (simulation fi) fuel' (frameTime fi) (accumulator l) w
            = Some (acc', Nat.iter n (round (simulation fi)) w)
            /\ F32.is_nan acc' = false
            /\ F32.ltb acc' physicsTimestep = true).
Proof.
  intros H Hall [Hv Hn].
  destruct (frames_binary32 _ _ _ _ H Hall eq_refl eq_refl) as [Va La].
  set (s0 := F32.add (accumulator l) (clampFrameTime (frameTime fi))).
  destruct (clampFrameTime_number _ Hn) as [Hcn Hci].
  assert (Vs : valid_binary F32.prec F32.emax s0 = true)
    by (apply add_valid; [exact Va | by apply clampFrameTime_valid]).
  assert (Hs : F32.leb physicsTimestep s0 = true -> inRange (budget 7) s0).
  { intros Hge. rewrite budget_top by lia.
    apply add_ticks; auto using clampFrameTime_valid, clampFrameTime_not_above. }
  assert (Hnum : F32.is_nan s0 = false).
  { destruct (ltb_not_nan _ _ La) as [Hna _].
    apply add_not_nan; auto.
    intros E. rewrite E in La. vm_compute in La. discriminate. }
  destruct (drain_bounded (fun _ n => S n) (fun _ n => n) 7 s0 0 Vs Hs)
    as ([acc1 n] & Hd).
  assert (Hr7 : rounds 7 s0 = Some n) by (unfold rounds; rewrite Hd; reflexivity).
  exists n. split; [exact (rounds_count _ _ _ Hr7) |]. split.
  - intros fuel' Hf. unfold rounds.
    rewrite (drain_more_fuel _ _ _ _ _ _ _ Hd Hf). reflexivity.
  - intros fuel' w Hf.
    destruct (drain_bounded Robot_Update (PhysicsWorld_Update (simulation fi)) 7
                s0 w Vs Hs) as ([acc' w'] & Hd').
    destruct (drain_counted _ _ _ _ _ _ _ Hd') as (n' & Hw & Hk).
    rewrite (Hk 0) in Hd. injection Hd as _ Hnn.
    assert (n' = n) by lia. subst n'.
    exists acc'. unfold frameDrain, physicsDrain. fold s0.
    rewrite (drain_more_fuel _ _ _ _ _ _ _ Hd' Hf). rewrite Hw.
    split; [reflexivity |].
    exact (drain_number _ _ _ _ _ _ _ Hd' Hnum).
Qed.

Lemma physics_loop_is_bounded_witness :
  frames 7 samplePasses (loopStart true) = Some (afterPasses 4)
  /\ Forall (fun fi => resized fi = true \/ binary32 (frameTime fi)) samplePasses
  /\ binary32 (frameTime (pass keysR))
  /\ exists n,
       n <= 7
       /\ rounds 7 (F32.add (accumulator (afterPasses 4))
                            (clampFrameTime (frameTime (pass keysR)))) = Some n.
Proof.
  assert (H : frames 7 samplePasses (loopStart true) = Some (afterPasses 4))
    by (vm_compute; reflexivity).
  assert (Hb : binary32 (frameTime (pass keysR))) by (split; reflexivity).
  assert (Hall : Forall (fun fi => resized fi = true \/ binary32 (frameTime fi))
                        samplePasses)
    by (repeat constructor; right; exact Hb).
  split; [exact H |]. split; [exact Hall |]. split; [exact Hb |].
  destruct (physics_loop_is_bounded 7 samplePasses true (afterPasses 4)
              (pass keysR) H Hall Hb) as (n & Hn & Hr & _).
  exists n. split; [exact Hn |]. apply Hr. lia.
Defined.
